(** * Keon canonical JSON (RFC 8785) -- a shallow embedding of
      [src/src/canonicalize.py] and the properties of its specification.

    Python values are modelled by the inductive type [value]; a [str] is the
    list of its code points, [bytes] the list of its octets.  Exceptions are
    the left summand of [result].  The three library functions the module
    calls are modelled as follows:
    - [unicodedata.normalize("NFC", .)] is a parameter [nfc] of the
      development;
    - [repr], [str], [int], [float] on numbers follow CPython (binary64
      floats are [SpecFloat.spec_float]);
    - [json.loads] follows CPython's [json.decoder] and [json.scanner].

    The functions are embedded as the source reads, with [str] keys in every
    [dict].  The interpreter adds limits of its own: the recursion limit,
    which deeply nested values and texts reach, and the limit on the digits
    of an [int] that is converted to or from a string.  The encoder is
    embedded a second time with these limits and with [dict]s of any keys
    ([_canonicalize_value_limited] and the functions around it); the two
    embeddings agree within the limits ([limited_agrees]).  [json.loads] is
    embedded without the limits: a text nested deeper than the recursion
    limit allows, or with more digits in an integer than [int] converts, is
    read by the model and refused by the interpreter. *)

From Stdlib Require Import String Ascii ZArith QArith Qround List Bool Lia.
From Stdlib Require Import Sorted Permutation SpecFloat.
Import ListNotations.

Set Warnings "-register-all".

Local Open Scope Z_scope.

(** ** Strings, bytes and exceptions *)

(** A Python [str]: the sequence of its code points ([ord] of each
    character). *)
Definition str := list Z.

(** A Python [bytes] object: octets, each in [0, 255]. *)
Definition bytes := list Z.

(** The exceptions that can leave the module. *)
Inductive exn : Type :=
| ValueError          (* non-finite number: the FormatError of the specification *)
| TypeError           (* unsupported type *)
| KeyError            (* obj[k] on a missing key *)
| UnicodeEncodeError  (* str.encode("utf-8") on a lone surrogate *)
| UnicodeDecodeError  (* bytes.decode("utf-8") on malformed input *)
| JSONDecodeError     (* json.loads on malformed text: the ParseError of the specification *)
| RecursionError.     (* the parser's fuel ran out *)

Definition result (A : Type) : Type := exn + A.

Definition Ok {A : Type} (a : A) : result A := inr a.
Definition Raise {A : Type} (e : exn) : result A := inl e.

Definition bind {A B : Type} (r : result A) (k : A -> result B) : result B :=
  match r with
  | inl e => inl e
  | inr a => k a
  end.

Declare Scope result_scope.
Delimit Scope result_scope with result.
Notation "x <- r ;; k" := (bind r (fun x => k))
  (at level 61, r at next level, right associativity) : result_scope.
Notation "' p <- r ;; k" := (bind r (fun x => let p := x in k))
  (at level 61, p pattern, r at next level, right associativity) : result_scope.
Local Open Scope result_scope.

(** Evaluates the computations of a list from left to right and stops at the
    first exception, as a list comprehension or a [for] loop does. *)
Fixpoint sequence {A : Type} (l : list (result A)) : result (list A) :=
  match l with
  | [] => Ok []
  | r :: tl => x <- r ;; xs <- sequence tl ;; Ok (x :: xs)
  end.

(** The code points of an ASCII literal. *)
Definition lit (s : string) : str :=
  map (fun c => Z.of_nat (nat_of_ascii c)) (list_ascii_of_string s).

(** The same, with every apostrophe read as a double quote, for JSON
    texts. *)
Definition json_lit (s : string) : str :=
  map (fun c => if c =? 39 then 34 else c) (lit s).

Fixpoint str_eqb (a b : str) : bool :=
  match a, b with
  | [], [] => true
  | x :: a', y :: b' => (x =? y) && str_eqb a' b'
  | _, _ => false
  end.

(** [sep.join(parts)]. *)
Fixpoint join (sep : str) (parts : list str) : str :=
  match parts with
  | [] => []
  | [p] => p
  | p :: tl => p ++ sep ++ join sep tl
  end.

(** [s.endswith(suffix)]. *)
Definition endswith (s suffix : str) : bool :=
  (Nat.leb (length suffix) (length s))
  && str_eqb (skipn (length s - length suffix) s) suffix.

(** ** Python values *)

(** A binary64 float. *)
Definition float := spec_float.

(** The values [_canonicalize_value] can receive.  A [dict] keeps its items
    in insertion order, with pairwise distinct keys; [VOther] stands for an
    object of any other type (a tuple, a set, ...). *)
Inductive value : Type :=
| VNone
| VBool (b : bool)
| VInt (n : Z)
| VFloat (f : float)
| VStr (s : str)
| VList (arr : list value)
| VDict (obj : list (str * value))
| VOther.

Definition dict (A : Type) : Type := list (str * A).

Definition dict_keys {A : Type} (obj : dict A) : list str := map fst obj.

(** [obj[k]]. *)
Fixpoint dict_get {A : Type} (obj : dict A) (k : str) : result A :=
  match obj with
  | [] => Raise KeyError
  | (k', v) :: tl => if str_eqb k' k then Ok v else dict_get tl k
  end.

(** [obj[k] = v]: replaces the value of an existing key in place, or appends a
    new item. *)
Fixpoint dict_set {A : Type} (obj : dict A) (k : str) (v : A) : dict A :=
  match obj with
  | [] => [(k, v)]
  | (k', v') :: tl =>
      if str_eqb k' k then (k', v) :: tl else (k', v') :: dict_set tl k v
  end.

(** [dict(pairs)]: the pairs are set one after the other. *)
Definition dict_step {A : Type} (d : dict A) (kv : str * A) : dict A :=
  dict_set d (fst kv) (snd kv).

Definition dict_of_pairs {A : Type} (pairs : list (str * A)) : dict A :=
  fold_left dict_step pairs [].

(** Well-formed values: the keys of every [dict] are pairwise distinct. *)
Fixpoint wf_value (v : value) : Prop :=
  match v with
  | VList arr => (fix all (l : list value) : Prop :=
                    match l with
                    | [] => True
                    | x :: tl => wf_value x /\ all tl
                    end) arr
  | VDict obj => NoDup (map fst obj) /\
                 (fix all (l : list (str * value)) : Prop :=
                    match l with
                    | [] => True
                    | kv :: tl => wf_value (snd kv) /\ all tl
                    end) obj
  | _ => True
  end.

(** Nesting depth of a value: a scalar has depth 0. *)
Fixpoint depth (v : value) : nat :=
  match v with
  | VList arr => S (fold_right (fun x d => Nat.max (depth x) d) O arr)
  | VDict obj => S (fold_right (fun kv d => Nat.max (depth (snd kv)) d) O obj)
  | _ => O
  end.

(** ** Numbers *)

(** The character of a digit [d] in [0, 15]: ['0'..'9'], then lowercase
    ['a'..'f']. *)
Definition digit_char (d : Z) : Z := if d <? 10 then 48 + d else 87 + d.

(** Digits of a non-negative [n] in base [base], most significant first. *)
Fixpoint to_base_aux (fuel : nat) (base n : Z) (acc : str) : str :=
  match fuel with
  | O => acc
  | S fuel' =>
      let acc' := digit_char (n mod base) :: acc in
      if n / base =? 0 then acc' else to_base_aux fuel' base (n / base) acc'
  end.

Definition to_base (base n : Z) : str :=
  to_base_aux (S (Z.to_nat (Z.log2 n))) base n [].

(** [str(n)] for an [int]. *)
Definition str_int (n : Z) : str :=
  if n <? 0 then 45 :: to_base 10 (- n) else to_base 10 n.

(** [f"{code:04x}"]. *)
Definition format_04x (code : Z) : str :=
  let digits := to_base 16 code in
  repeat 48 (4 - List.length digits) ++ digits.

Definition prec : Z := 53.
Definition emax : Z := 1024.

(** [math.isnan(num)] and [math.isinf(num)]. *)
Definition isnan (f : float) : bool :=
  match f with S754_nan => true | _ => false end.

Definition isinf (f : float) : bool :=
  match f with S754_infinity _ => true | _ => false end.

(** [num == 0.0]: true of both zeros. *)
Definition float_is_zero (f : float) : bool :=
  match f with S754_zero _ => true | _ => false end.

(** [int(num)] for a finite float: truncation towards zero. *)
Definition int_of_float (f : float) : Z :=
  match f with
  | S754_finite s m e =>
      cond_Zopp s (if 0 <=? e then Zpos m * 2 ^ e else Zpos m / 2 ^ (- e))
  | _ => 0
  end.

(** [num == n] for a float [num] and an int [n]: CPython compares the two
    exactly, without converting [n] to a float. *)
Definition float_eq_int (f : float) (n : Z) : bool :=
  match f with
  | S754_zero _ => n =? 0
  | S754_finite s m e =>
      if 0 <=? e then cond_Zopp s (Zpos m * 2 ^ e) =? n
      else cond_Zopp s (Zpos m) =? n * 2 ^ (- e)
  | _ => false
  end.

(** [abs(num) <= n] for a float [num] and an int [n], exactly as well. *)
Definition float_abs_le_int (f : float) (n : Z) : bool :=
  match f with
  | S754_zero _ => 0 <=? n
  | S754_finite _ m e =>
      if 0 <=? e then Zpos m * 2 ^ e <=? n else Zpos m <=? n * 2 ^ (- e)
  | S754_infinity _ => false
  | S754_nan => false
  end.

(** [float(text)] for the decimal [d * 10^q] with [0 <= d]: the nearest
    binary64 float, ties to even. *)
Definition float_of_decimal (neg : bool) (d q : Z) : float :=
  match d with
  | Zpos p =>
      if 0 <=? q then binary_round prec emax neg (p * Z.to_pos (10 ^ q)) 0
      else
        let '(mz, ez, lz) := SFdiv_core_binary prec emax (Zpos p) 0 (10 ^ (- q)) 0 in
        binary_round_aux prec emax neg mz ez lz
  | _ => S754_zero neg
  end.

(** [10^n <= m * 2^e], on integers. *)
Definition ge_pow10 (m : positive) (e n : Z) : bool :=
  10 ^ (Z.max n 0) * 2 ^ (Z.max (- e) 0)
    <=? Zpos m * 2 ^ (Z.max e 0) * 10 ^ (Z.max (- n) 0).

(** The decimal exponent of [m * 2^e]: the [n] with
    [10^(n-1) <= m * 2^e < 10^n], found from an estimate by the binary
    logarithm. *)
Definition decimal_exponent (m : positive) (e : Z) : Z :=
  let n0 := (Zpos (digits2_pos m) + e) * 30103 / 100000 in
  if ge_pow10 m e (n0 + 1) then n0 + 2
  else if ge_pow10 m e n0 then n0 + 1
  else if ge_pow10 m e (n0 - 1) then n0
  else n0 - 1.

(** The candidates with [k] digits for [m * 2^e], whose decimal exponent is
    [n]: the two multiples of [10^(n-k)] around it, the nearer one first (the
    even one on a tie). *)
Definition candidates (m : positive) (e n k : Z) : list Z :=
  let num := Zpos m * 2 ^ (Z.max e 0) * 10 ^ (Z.max (k - n) 0) in
  let den := 2 ^ (Z.max (- e) 0) * 10 ^ (Z.max (n - k) 0) in
  let lo := num / den in
  let r := num mod den in
  if r =? 0 then [lo]
  else
    match 2 * r ?= den with
    | Lt => [lo; lo + 1]
    | Gt => [lo + 1; lo]
    | Eq => if Z.even lo then [lo; lo + 1] else [lo + 1; lo]
    end.

(** The exact decimal expansion of [m * 2^e]. *)
Definition exact_decimal (m : positive) (e : Z) : Z * Z :=
  if 0 <=? e then (Zpos m * 2 ^ e, 0) else (Zpos m * 5 ^ (- e), e).

(** The digits [repr] prints for the positive float [m * 2^e], as a pair
    [(d, q)] standing for [d * 10^q]: the shortest decimal that [float] reads
    back as the same float, the nearest one when several have that length.
    Seventeen digits are enough for a binary64 float; past them the search
    ends on the exact expansion. *)
Fixpoint shortest_from (fuel : nat) (m : positive) (e n k : Z) : Z * Z :=
  let c := candidates m e n k in
  match find (fun d => SFeqb (float_of_decimal false d (n - k))
                             (S754_finite false m e)) c with
  | Some d => (d, n - k)
  | None =>
      match fuel with
      | O => exact_decimal m e
      | S fuel' => shortest_from fuel' m e n (k + 1)
      end
  end.

Definition shortest_decimal (m : positive) (e : Z) : Z * Z :=
  shortest_from 16 m e (decimal_exponent m e) 1.

(** Removes the trailing zeros of a digit string (never the first digit). *)
Fixpoint strip_zeros_rev (rev_digits : str) : str :=
  match rev_digits with
  | d :: ((_ :: _) as tl) => if d =? 48 then strip_zeros_rev tl else rev_digits
  | _ => rev_digits
  end.

Definition strip_trailing_zeros (digits : str) : str :=
  rev (strip_zeros_rev (rev digits)).

(** The exponent of [repr]: a sign and at least two digits (["%+.02d"]). *)
Definition format_exponent (x : Z) : str :=
  let digits := to_base 10 (Z.abs x) in
  (if x <? 0 then 45 else 43)
    :: repeat 48 (2 - List.length digits) ++ digits.

(** The layout of [repr] for the digits [digits] with the decimal point after
    the first [decpt] of them (format code ['r'] of CPython's
    [PyOS_double_to_string]): an exponent when [decpt <= -4] or [decpt > 16],
    a plain decimal with at least one digit after the point otherwise. *)
Definition repr_layout (digits : str) (decpt : Z) : str :=
  let ndigits := Z.of_nat (List.length digits) in
  if (decpt <=? -4) || (16 <? decpt) then
    firstn 1 digits
      ++ (if 1 <? ndigits then 46 :: skipn 1 digits else [])
      ++ 101 :: format_exponent (decpt - 1)
  else if decpt <=? 0 then
    48 :: 46 :: repeat 48 (Z.to_nat (- decpt)) ++ digits
  else if decpt <? ndigits then
    firstn (Z.to_nat decpt) digits ++ 46 :: skipn (Z.to_nat decpt) digits
  else
    digits ++ repeat 48 (Z.to_nat (decpt - ndigits)) ++ [46; 48].

(** [repr(num)] for a float. *)
Definition repr_float (f : float) : str :=
  match f with
  | S754_nan => lit "nan"
  | S754_infinity s => if s then lit "-inf" else lit "inf"
  | S754_zero s => if s then lit "-0.0" else lit "0.0"
  | S754_finite s m e =>
      let '(d, q) := shortest_decimal m e in
      let all_digits := to_base 10 d in
      let digits := strip_trailing_zeros all_digits in
      (if s then [45] else [])
        ++ repr_layout digits (Z.of_nat (List.length all_digits) + q)
  end.

(** *** [_canonicalize_number] *)

Inductive number : Type :=
| NInt (n : Z)
| NFloat (f : float).

Definition _canonicalize_number (num : number) : result str :=
  match num with
  | NFloat f =>
      if isnan f || isinf f then Raise ValueError
      else if float_is_zero f then Ok (lit "0")
      else if float_eq_int f (int_of_float f) && float_abs_le_int f (2 ^ 53)
      then Ok (str_int (int_of_float f))
      else
        let s := repr_float f in
        Ok (if endswith s (lit ".0") then firstn (List.length s - 2) s else s)
  | NInt n => Ok (str_int n)
  end.

(** ** UTF-8 *)

(** A continuation octet [10xxxxxx]. *)
Definition is_cont (b : Z) : bool := (128 <=? b) && (b <? 192).

(** [s.encode("utf-8")]: a surrogate code point cannot be encoded. *)
Definition utf8_encode_char (c : Z) : result bytes :=
  if c <? 0x80 then Ok [c]
  else if c <? 0x800 then Ok [192 + c / 64; 128 + c mod 64]
  else if (0xD800 <=? c) && (c <? 0xE000) then Raise UnicodeEncodeError
  else if c <? 0x10000 then
    Ok [224 + c / 4096; 128 + (c / 64) mod 64; 128 + c mod 64]
  else
    Ok [240 + c / 262144; 128 + (c / 4096) mod 64; 128 + (c / 64) mod 64;
        128 + c mod 64].

Fixpoint utf8_encode (s : str) : result bytes :=
  match s with
  | [] => Ok []
  | c :: tl =>
      b <- utf8_encode_char c ;;
      bs <- utf8_encode tl ;;
      Ok (b ++ bs)
  end.

(** [b.decode("utf-8")]: rejects truncated and overlong sequences, encoded
    surrogates and code points above U+10FFFF. *)
Fixpoint utf8_decode (b : bytes) : result str :=
  match b with
  | [] => Ok []
  | b0 :: r0 =>
      if (0 <=? b0) && (b0 <? 128) then
        s <- utf8_decode r0 ;; Ok (b0 :: s)
      else
        match r0 with
        | [] => Raise UnicodeDecodeError
        | b1 :: r1 =>
            if (192 <=? b0) && (b0 <? 224) then
              let c := (b0 - 192) * 64 + (b1 - 128) in
              if is_cont b1 && (0x80 <=? c) then
                s <- utf8_decode r1 ;; Ok (c :: s)
              else Raise UnicodeDecodeError
            else
              match r1 with
              | [] => Raise UnicodeDecodeError
              | b2 :: r2 =>
                  if (224 <=? b0) && (b0 <? 240) then
                    let c := (b0 - 224) * 4096 + (b1 - 128) * 64 + (b2 - 128) in
                    if is_cont b1 && is_cont b2 && (0x800 <=? c)
                       && negb ((0xD800 <=? c) && (c <? 0xE000)) then
                      s <- utf8_decode r2 ;; Ok (c :: s)
                    else Raise UnicodeDecodeError
                  else
                    match r2 with
                    | [] => Raise UnicodeDecodeError
                    | b3 :: r3 =>
                        let c := (b0 - 240) * 262144 + (b1 - 128) * 4096
                                 + (b2 - 128) * 64 + (b3 - 128) in
                        if (240 <=? b0) && (b0 <? 248)
                           && is_cont b1 && is_cont b2 && is_cont b3
                           && (0x10000 <=? c) && (c <? 0x110000) then
                          s <- utf8_decode r3 ;; Ok (c :: s)
                        else Raise UnicodeDecodeError
                    end
              end
        end
  end.

(** ** The encoder *)

(** [_utf16_sort_key]: the UTF-16 code units of a string. *)
Fixpoint _utf16_sort_key (s : str) : list Z :=
  match s with
  | [] => []
  | code :: tl =>
      if code <? 0x10000 then code :: _utf16_sort_key tl
      else
        let code := code - 0x10000 in
        let high := 0xD800 + Z.shiftr code 10 in
        let low := 0xDC00 + Z.land code 0x3FF in
        high :: low :: _utf16_sort_key tl
  end.

(** [a < b] on lists of integers: the first difference decides, and a strict
    prefix is smaller. *)
Fixpoint list_lt (a b : list Z) : bool :=
  match a, b with
  | _, [] => false
  | [], _ :: _ => true
  | x :: a', y :: b' => if x =? y then list_lt a' b' else x <? y
  end.

(** [keys.sort(key=lambda k: _utf16_sort_key(k))]: a stable sort that only
    compares the sort keys with [<]. *)
Fixpoint insert_key (k : str) (sorted : list str) : list str :=
  match sorted with
  | [] => [k]
  | y :: tl =>
      if list_lt (_utf16_sort_key y) (_utf16_sort_key k)
      then y :: insert_key k tl
      else k :: sorted
  end.

Definition sort_keys (keys : list str) : list str :=
  fold_right insert_key [] keys.

(** The output of [_canonicalize_string] for one character of the normalized
    string. *)
Definition escape_char (char : Z) : str :=
  let code := char in
  if char =? 34 then [92; 34]
  else if char =? 92 then [92; 92]
  else if char =? 8 then [92; 98]
  else if char =? 12 then [92; 102]
  else if char =? 10 then [92; 110]
  else if char =? 13 then [92; 114]
  else if char =? 9 then [92; 116]
  else if code <? 0x20 then 92 :: 117 :: format_04x code
  else [char].

Section Codec.

(** [unicodedata.normalize("NFC", s)]. *)
Variable nfc : str -> str.

Definition _canonicalize_string (s : str) : str :=
  let normalized := nfc s in
  [34] ++ flat_map escape_char normalized ++ [34].

(** The expression [next((k for k in obj.keys() if normalize(k) == key), key)]. *)
Definition original_key_of {A : Type} (obj : dict A) (key : str) : str :=
  match find (fun k => str_eqb (nfc k) key) (dict_keys obj) with
  | Some k => k
  | None => key
  end.

(** The body of [_canonicalize_object], with the recursive call on a member's
    value as a parameter [canon]. *)
Definition canonicalize_object_with {A : Type} (canon : A -> result str)
    (obj : dict A) : result str :=
  let keys := sort_keys (map nfc (dict_keys obj)) in
  pairs <- sequence
             (map (fun key =>
                     let original_key := original_key_of obj key in
                     value <- dict_get obj original_key ;;
                     text <- canon value ;;
                     Ok (_canonicalize_string key ++ [58] ++ text))
                  keys) ;;
  Ok ([123] ++ join [44] pairs ++ [125]).

(** [_canonicalize_value].  The recursion is structural: the call on each
    member's value is passed to the object's body as a suspended computation
    ([_canonicalize_value_dict] below shows it is the call of the source). *)
Fixpoint _canonicalize_value (value : value) : result str :=
  match value with
  | VNone => Ok (lit "null")
  | VBool b => Ok (if b then lit "true" else lit "false")
  | VInt n => _canonicalize_number (NInt n)
  | VFloat f => _canonicalize_number (NFloat f)
  | VStr s => Ok (_canonicalize_string s)
  | VList arr =>
      elements <- sequence (map _canonicalize_value arr) ;;
      Ok ([91] ++ join [44] elements ++ [93])
  | VDict obj =>
      canonicalize_object_with (fun text => text)
        (map (fun kv => (fst kv, _canonicalize_value (snd kv))) obj)
  | VOther => Raise TypeError
  end.

Definition _canonicalize_array (arr : list value) : result str :=
  elements <- sequence (map _canonicalize_value arr) ;;
  Ok ([91] ++ join [44] elements ++ [93]).

Definition _canonicalize_object (obj : dict value) : result str :=
  canonicalize_object_with _canonicalize_value obj.

Definition canonicalize_to_string (value : value) : result str :=
  _canonicalize_value value.

Definition canonicalize (value : value) : result bytes :=
  s <- canonicalize_to_string value ;; utf8_encode s.

End Codec.

(** ** [json.loads] *)

(** The whitespace of [json.decoder]: space, tab, line feed, carriage
    return. *)
Definition is_ws (c : Z) : bool :=
  (c =? 32) || (c =? 9) || (c =? 10) || (c =? 13).

Fixpoint skip_ws (s : str) : str :=
  match s with
  | c :: tl => if is_ws c then skip_ws tl else s
  | [] => []
  end.

Definition is_digit (c : Z) : bool := (48 <=? c) && (c <=? 57).

(** The value of a hexadecimal digit. *)
Definition hex_value (c : Z) : option Z :=
  if is_digit c then Some (c - 48)
  else if (97 <=? c) && (c <=? 102) then Some (c - 87)
  else if (65 <=? c) && (c <=? 70) then Some (c - 55)
  else None.

(** [_decode_uXXXX]: the four hexadecimal digits of a [\u] escape. *)
Definition decode_uXXXX (h1 h2 h3 h4 : Z) : result Z :=
  match hex_value h1, hex_value h2, hex_value h3, hex_value h4 with
  | Some a, Some b, Some c, Some d => Ok (((a * 16 + b) * 16 + c) * 16 + d)
  | _, _, _, _ => Raise JSONDecodeError
  end.

(** The table [BACKSLASH] of the one-character escapes. *)
Definition backslash (esc : Z) : option Z :=
  if esc =? 34 then Some 34
  else if esc =? 92 then Some 92
  else if esc =? 47 then Some 47
  else if esc =? 98 then Some 8
  else if esc =? 102 then Some 12
  else if esc =? 110 then Some 10
  else if esc =? 114 then Some 13
  else if esc =? 116 then Some 9
  else None.

(** [scanstring] (strict mode), from the character after the opening quote:
    the decoded string and the text after the closing quote.  A high
    surrogate escape followed by a low surrogate escape is one character. *)
Fixpoint scanstring (s : str) : result (str * str) :=
  match s with
  | [] => Raise JSONDecodeError
  | c :: tl =>
      if c =? 34 then Ok ([], tl)
      else if c =? 92 then
        match tl with
        | [] => Raise JSONDecodeError
        | esc :: tl1 =>
            if esc =? 117 then
              match tl1 with
              | h1 :: h2 :: h3 :: h4 :: tl5 =>
                  uni <- decode_uXXXX h1 h2 h3 h4 ;;
                  let single := r <- scanstring tl5 ;; Ok (uni :: fst r, snd r) in
                  if (0xD800 <=? uni) && (uni <=? 0xDBFF) then
                    match tl5 with
                    | b :: u :: tl7 =>
                        if (b =? 92) && (u =? 117) then
                          match tl7 with
                          | g1 :: g2 :: g3 :: g4 :: tl11 =>
                              uni2 <- decode_uXXXX g1 g2 g3 g4 ;;
                              if (0xDC00 <=? uni2) && (uni2 <=? 0xDFFF) then
                                r <- scanstring tl11 ;;
                                Ok (0x10000
                                    + Z.lor (Z.shiftl (uni - 0xD800) 10)
                                            (uni2 - 0xDC00) :: fst r, snd r)
                              else single
                          | _ => Raise JSONDecodeError
                          end
                        else single
                    | _ => single
                    end
                  else single
              | _ => Raise JSONDecodeError
              end
            else
              match backslash esc with
              | Some char => r <- scanstring tl1 ;; Ok (char :: fst r, snd r)
              | None => Raise JSONDecodeError
              end
        end
      else if c <? 0x20 then Raise JSONDecodeError
      else r <- scanstring tl ;; Ok (c :: fst r, snd r)
  end.

(** The longest prefix of decimal digits, and the rest. *)
Fixpoint span_digits (s : str) : str * str :=
  match s with
  | c :: tl =>
      if is_digit c then let '(ds, rest) := span_digits tl in (c :: ds, rest)
      else ([], s)
  | [] => ([], [])
  end.

(** The value of a string of decimal digits. *)
Definition digits_value (ds : str) : Z :=
  fold_left (fun acc c => acc * 10 + (c - 48)) ds 0.

(** A match of [NUMBER_RE], the regular expression of a JSON number: the
    groups [integer], [frac] and [exp], without their punctuation. *)
Record number_match : Type := {
  nm_neg : bool;
  nm_int : str;
  nm_frac : option str;
  nm_exp : option (bool * str)
}.

(** The groups of [NUMBER_RE], each with the rest of the text.  The integer
    part is an optional minus sign, then a zero or a digit from 1 to 9
    followed by any digits. *)
Definition match_sign (s : str) : bool * str :=
  match s with
  | c :: tl => if c =? 45 then (true, tl) else (false, s)
  | [] => (false, s)
  end.

Definition match_integer (s : str) : option (str * str) :=
  match s with
  | c :: tl =>
      if c =? 48 then Some ([c], tl)
      else if is_digit c then
        let '(ds, rest) := span_digits tl in Some (c :: ds, rest)
      else None
  | [] => None
  end.

(** The fraction: a point and at least one digit, or nothing. *)
Definition match_frac (s : str) : option str * str :=
  match s with
  | c :: tl =>
      if c =? 46 then
        match span_digits tl with
        | (d :: ds, rest) => (Some (d :: ds), rest)
        | ([], _) => (None, s)
        end
      else (None, s)
  | [] => (None, s)
  end.

(** The exponent: [e] or [E], an optional sign and at least one digit, or
    nothing. *)
Definition match_exp (s : str) : option (bool * str) * str :=
  match s with
  | c :: tl =>
      if (c =? 101) || (c =? 69) then
        let '(eneg, tl') :=
          match tl with
          | sg :: tl'' =>
              if sg =? 45 then (true, tl'')
              else if sg =? 43 then (false, tl'')
              else (false, tl)
          | [] => (false, tl)
          end in
        match span_digits tl' with
        | (d :: ds, rest) => (Some (eneg, d :: ds), rest)
        | ([], _) => (None, s)
        end
      else (None, s)
  | [] => (None, s)
  end.

(** [NUMBER_RE.match]. *)
Definition match_number (s : str) : option (number_match * str) :=
  let '(neg, s1) := match_sign s in
  match match_integer s1 with
  | None => None
  | Some (int_digits, s2) =>
      let '(frac, s3) := match_frac s2 in
      let '(exp, s4) := match_exp s3 in
      Some ({| nm_neg := neg; nm_int := int_digits;
               nm_frac := frac; nm_exp := exp |}, s4)
  end.

(** The number of a match: [int(integer)] when there is neither a fraction
    nor an exponent, [float(integer + frac + exp)] otherwise. *)
Definition number_of_match (m : number_match) : value :=
  match nm_frac m, nm_exp m with
  | None, None => VInt (cond_Zopp (nm_neg m) (digits_value (nm_int m)))
  | frac, exp =>
      let fs := match frac with Some fs => fs | None => [] end in
      let e := match exp with
               | Some (eneg, es) => cond_Zopp eneg (digits_value es)
               | None => 0
               end in
      VFloat (float_of_decimal (nm_neg m) (digits_value (nm_int m ++ fs))
                               (e - Z.of_nat (List.length fs)))
  end.

(** [s[:len(prefix)] == prefix]: the rest of [s] after [prefix]. *)
Fixpoint strip_prefix (prefix s : str) : option str :=
  match prefix, s with
  | [], _ => Some s
  | p :: prefix', c :: s' => if p =? c then strip_prefix prefix' s' else None
  | _ :: _, [] => None
  end.

(** [JSONArray], from the first element to the closing bracket: the
    elements and the text after the bracket.  [scan_once] is the scanner for
    one value, as in the source; [fuel] bounds the number of turns of the
    loop. *)
Fixpoint array_elements (scan_once : str -> result (value * str))
    (fuel : nat) (s : str) : result (list value * str) :=
  match fuel with
  | O => Raise RecursionError
  | S fuel =>
      r <- scan_once s ;;
      match skip_ws (snd r) with
      | c :: tl =>
          if c =? 93 then Ok ([fst r], tl)
          else if c =? 44 then
            r' <- array_elements scan_once fuel (skip_ws tl) ;;
            Ok (fst r :: fst r', snd r')
          else Raise JSONDecodeError
      | [] => Raise JSONDecodeError
      end
  end.

(** [JSONObject], from the character after the opening quote of the first
    name to the closing brace: the members in the order of the text, and the
    text after the brace. *)
Fixpoint object_members (scan_once : str -> result (value * str))
    (fuel : nat) (s : str) : result (list (str * value) * str) :=
  match fuel with
  | O => Raise RecursionError
  | S fuel =>
      k <- scanstring s ;;
      match skip_ws (snd k) with
      | c :: tl =>
          if c =? 58 then
            r <- scan_once (skip_ws tl) ;;
            match skip_ws (snd r) with
            | c' :: tl' =>
                if c' =? 125 then Ok ([(fst k, fst r)], tl')
                else if c' =? 44 then
                  match skip_ws tl' with
                  | q :: tl'' =>
                      if q =? 34 then
                        r' <- object_members scan_once fuel tl'' ;;
                        Ok ((fst k, fst r) :: fst r', snd r')
                      else Raise JSONDecodeError
                  | [] => Raise JSONDecodeError
                  end
                else Raise JSONDecodeError
            | [] => Raise JSONDecodeError
            end
          else Raise JSONDecodeError
      | [] => Raise JSONDecodeError
      end
  end.

(** The scalars of [scan_once]: [null], [true], [false], a number, and the
    constants [NaN], [Infinity] and [-Infinity], tried in this order. *)
Definition scan_scalar (s : str) : result (value * str) :=
  match strip_prefix (lit "null") s,
        strip_prefix (lit "true") s,
        strip_prefix (lit "false") s with
  | Some rest, _, _ => Ok (VNone, rest)
  | _, Some rest, _ => Ok (VBool true, rest)
  | _, _, Some rest => Ok (VBool false, rest)
  | None, None, None =>
      match match_number s with
      | Some (m, rest) => Ok (number_of_match m, rest)
      | None =>
          match strip_prefix (lit "NaN") s,
                strip_prefix (lit "Infinity") s,
                strip_prefix (lit "-Infinity") s with
          | Some rest, _, _ => Ok (VFloat S754_nan, rest)
          | _, Some rest, _ => Ok (VFloat (S754_infinity false), rest)
          | _, _, Some rest => Ok (VFloat (S754_infinity true), rest)
          | None, None, None => Raise JSONDecodeError
          end
      end
  end.

Section Scanner.

(** What the decoder makes of the list of the members of an object, in the
    order of the text: [dict(pairs)] by default, the [object_pairs_hook] of
    [json.loads] otherwise. *)
Variable object_pairs_hook : list (str * value) -> value.

(** [scan_once]: reads one value at the head of [s] and returns it with the
    rest of the text.  [fuel] bounds the nesting of the calls. *)
Fixpoint scan_once (fuel : nat) (s : str) : result (value * str) :=
  match fuel with
  | O => Raise RecursionError
  | S fuel =>
      match s with
      | [] => Raise JSONDecodeError
      | nextchar :: tl =>
          if nextchar =? 34 then
            r <- scanstring tl ;; Ok (VStr (fst r), snd r)
          else if nextchar =? 123 then
            match skip_ws tl with
            | c :: tl' =>
                if c =? 125 then Ok (object_pairs_hook [], tl')
                else if c =? 34 then
                  r <- object_members (scan_once fuel) fuel tl' ;;
                  Ok (object_pairs_hook (fst r), snd r)
                else Raise JSONDecodeError
            | [] => Raise JSONDecodeError
            end
          else if nextchar =? 91 then
            match skip_ws tl with
            | c :: tl' =>
                if c =? 93 then Ok (VList [], tl')
                else r <- array_elements (scan_once fuel) fuel (c :: tl') ;;
                     Ok (VList (fst r), snd r)
            | [] => Raise JSONDecodeError
            end
          else scan_scalar s
      end
  end.

(** [JSONDecoder.decode]: one value, surrounded by optional whitespace and
    nothing else.  A text that starts with a byte order mark is refused. *)
Definition decode (s : str) : result value :=
  match s with
  | 0xFEFF :: _ => Raise JSONDecodeError
  | _ =>
      r <- scan_once (S (List.length s)) (skip_ws s) ;;
      match skip_ws (snd r) with
      | [] => Ok (fst r)
      | _ :: _ => Raise JSONDecodeError
      end
  end.

End Scanner.

(** [json.loads(s)] with its default arguments: an object becomes
    [dict(pairs)], so the last of several members of one name wins. *)
Definition json_loads (s : str) : result value :=
  decode (fun pairs => VDict (dict_of_pairs pairs)) s.

(** The same with [object_pairs_hook] keeping the members as they stand in
    the text. *)
Definition json_loads_pairs (s : str) : result value :=
  decode VDict s.

Section Entry.

Variable nfc : str -> str.

Definition canonicalize_bytes (json_bytes : bytes) : result bytes :=
  text <- utf8_decode json_bytes ;;
  parsed <- json_loads text ;;
  canonicalize nfc parsed.

(** [json_bytes == canonical] on [bytes]. *)
Definition bytes_eqb (a b : bytes) : bool := str_eqb a b.

Definition validate_integrity (json_bytes : bytes) : bool :=
  match canonicalize_bytes json_bytes with
  | inr canonical => bytes_eqb json_bytes canonical
  | inl _ => false
  end.

End Entry.

(** ** Definitions used by the statements *)

(** The rational value of a finite float. *)
Definition float_value (f : float) : option Q :=
  match f with
  | S754_zero _ => Some 0%Q
  | S754_finite s m e =>
      Some (if 0 <=? e then inject_Z (cond_Zopp s (Zpos m) * 2 ^ e)
            else Qmake (cond_Zopp s (Zpos m)) (Z.to_pos (2 ^ (- e))))
  | S754_infinity _ | S754_nan => None
  end.

(** NaN and the two infinities. *)
Definition non_finite (num : number) : Prop :=
  num = NFloat S754_nan \/ exists s, num = NFloat (S754_infinity s).

(** The literal of the integer [n]: a minus sign when [n] is negative, then
    the decimal digits of its magnitude, with no leading zero. *)
Definition integer_literal (n : Z) (text : str) : Prop :=
  exists ds,
    text = (if n <? 0 then [45] else []) ++ ds
    /\ ds <> []
    /\ Forall (fun c => is_digit c = true) ds
    /\ digits_value ds = Z.abs n
    /\ (n <> 0 -> hd 0 ds <> 48).

(** A Unicode code point. *)
Definition code_point (c : Z) : Prop := 0 <= c <= 0x10FFFF.

(** A Unicode scalar value: a code point that is not a surrogate. *)
Definition scalar_value (c : Z) : Prop :=
  0 <= c < 0xD800 \/ 0xE000 <= c <= 0x10FFFF.

(** The escaping table of the specification, for one code point. *)
Definition hex_digit (d : Z) : Z := nth (Z.to_nat d) (lit "0123456789abcdef") 0.

Definition spec_escape (c : Z) : str :=
  if c =? 0x22 then lit "\" ++ [0x22]
  else if c =? 0x5C then lit "\\"
  else if c =? 0x08 then lit "\b"
  else if c =? 0x0C then lit "\f"
  else if c =? 0x0A then lit "\n"
  else if c =? 0x0D then lit "\r"
  else if c =? 0x09 then lit "\t"
  else if c <=? 0x1F then
    lit "\u" ++ [hex_digit (c / 4096 mod 16); hex_digit (c / 256 mod 16);
                 hex_digit (c / 16 mod 16); hex_digit (c mod 16)]
  else [c].

(** The order of the keys: their UTF-16 code units, compared as lists of
    integers. *)
Definition utf16_lt (a b : str) : Prop :=
  list_lt (_utf16_sort_key a) (_utf16_sort_key b) = true.

Definition utf16_le (a b : str) : Prop :=
  list_lt (_utf16_sort_key b) (_utf16_sort_key a) = false.

(** The lexicographic order of the specification: the first difference
    decides, and a strict prefix comes first. *)
Definition lex_lt (a b : list Z) : Prop :=
  (exists c cs, b = a ++ c :: cs)
  \/ (exists p x y a' b', a = p ++ x :: a' /\ b = p ++ y :: b' /\ x < y).

(** The code units the specification gives for one scalar value. *)
Definition utf16_units (v : Z) : list Z :=
  if v <? 0x10000 then [v]
  else [0xD800 + (v - 0x10000) / 1024; 0xDC00 + (v - 0x10000) mod 1024].

(** The empty array inside [n] arrays. *)
Fixpoint nest (n : nat) : value :=
  match n with
  | O => VList []
  | S n' => VList [nest n']
  end.

(** A value the encoder supports throughout: no object of another type
    and no NaN or infinity, at any depth. *)
Fixpoint encodable (v : value) : Prop :=
  match v with
  | VFloat f => isnan f || isinf f = false
  | VList arr => (fix all (l : list value) : Prop :=
                    match l with
                    | [] => True
                    | x :: tl => encodable x /\ all tl
                    end) arr
  | VDict obj => (fix all (l : list (str * value)) : Prop :=
                    match l with
                    | [] => True
                    | kv :: tl => encodable (snd kv) /\ all tl
                    end) obj
  | VOther => False
  | _ => True
  end.

(** A fragment of NFC for the examples: the letter [e] followed by the
    combining acute accent U+0301 is composed into U+00E9, and every other
    character is kept.  On the strings of the examples (ASCII text, U+00E9,
    and [e] followed by U+0301) this is what [unicodedata.normalize]
    returns. *)
Fixpoint nfc_e_acute (s : str) : str :=
  match s with
  | [] => []
  | c :: tl =>
      match tl with
      | c' :: tl' =>
          if (c =? 0x65) && (c' =? 0x301) then 0xE9 :: nfc_e_acute tl'
          else c :: nfc_e_acute tl
      | [] => [c]
      end
  end.

(** The layout of ECMAScript's [Number::toString] (ECMA-262), which RFC 8785
    prescribes, for the digits [digits] of a number in
    [[10^(n-1), 10^n)]. *)
Definition ecma_layout (digits : str) (n : Z) : str :=
  let k := Z.of_nat (List.length digits) in
  if (k <=? n) && (n <=? 21) then digits ++ repeat 48 (Z.to_nat (n - k))
  else if (0 <? n) && (n <=? 21) then
    firstn (Z.to_nat n) digits ++ 46 :: skipn (Z.to_nat n) digits
  else if (-6 <? n) && (n <=? 0) then
    48 :: 46 :: repeat 48 (Z.to_nat (- n)) ++ digits
  else
    firstn 1 digits
      ++ (if 1 <? k then 46 :: skipn 1 digits else [])
      ++ 101 :: (if 0 <=? n - 1 then 43 else 45) :: to_base 10 (Z.abs (n - 1)).

(** [Number::toString] on a float: the same shortest digits as [repr], in
    the layout of ECMA-262. *)
Definition ecma_number_to_string (f : float) : str :=
  match f with
  | S754_nan => lit "NaN"
  | S754_infinity s => if s then lit "-Infinity" else lit "Infinity"
  | S754_zero _ => lit "0"
  | S754_finite s m e =>
      let '(d, q) := shortest_decimal m e in
      let all_digits := to_base 10 d in
      let digits := strip_trailing_zeros all_digits in
      (if s then [45] else [])
        ++ ecma_layout digits (Z.of_nat (List.length all_digits) + q)
  end.

(** ** Definitions for the decoder's treatment of repeated names *)

(** What [json.loads] returns for a text whose members, kept in the order of
    the text, are [tree]: every object becomes [dict(pairs)]. *)
Fixpoint as_dicts (tree : value) : value :=
  match tree with
  | VList arr => VList (map as_dicts arr)
  | VDict members =>
      VDict (dict_of_pairs (map (fun kv => (fst kv, as_dicts (snd kv))) members))
  | _ => tree
  end.

(** The value of the last member named [k] in a list of members. *)
Definition last_member {A : Type} (members : list (str * A)) (k : str)
    : result A :=
  dict_get (rev members) k.

(** The number of members of the objects nested in exactly [depth]
    containers. *)
Fixpoint members_at (depth : nat) (v : value) : nat :=
  match depth, v with
  | O, VDict obj => List.length obj
  | S d, VList arr => list_sum (map (members_at d) arr)
  | S d, VDict obj => list_sum (map (fun kv => members_at d (snd kv)) obj)
  | _, _ => O
  end.

(** No object nested in fewer than [depth] containers has two members of
    one name. *)
Fixpoint distinct_upto (depth : nat) (v : value) : Prop :=
  match depth, v with
  | S d, VList arr => Forall (distinct_upto d) arr
  | S d, VDict obj =>
      NoDup (map fst obj) /\ Forall (fun kv => distinct_upto d (snd kv)) obj
  | _, _ => True
  end.

(** A bound on the fuel [scan_once] needs to read the text of a value. *)
Fixpoint cost (v : value) : nat :=
  match v with
  | VList arr =>
      S (List.length arr + fold_right (fun x m => Nat.max (cost x) m) O arr)
  | VDict obj =>
      S (List.length obj
         + fold_right (fun kv m => Nat.max (cost (snd kv)) m) O obj)
  | _ => 1%nat
  end.

(** The text after a number: it neither continues the digits nor starts a
    fraction or an exponent. *)
Definition number_follow (rest : str) : Prop :=
  match rest with
  | [] => True
  | c :: _ => is_digit c = false /\ c <> 46 /\ c <> 101 /\ c <> 69
  end.

(** The text after a value inside the text of an array or an object: the
    end, a comma, a closing bracket or a closing brace. *)
Definition value_follow (rest : str) : Prop :=
  match rest with
  | [] => True
  | c :: _ => c = 44 \/ c = 93 \/ c = 125
  end.

(** The first character of the text of a value. *)
Definition value_start (c : Z) : Prop :=
  c = 34 \/ c = 123 \/ c = 91 \/ c = 110 \/ c = 116 \/ c = 102 \/ c = 45
  \/ is_digit c = true.

Section Reread.

Variable nfc : str -> str.

(** What [scanstring] reads from the literal [_canonicalize_string] writes
    for [s]. *)
Definition reread_string (s : str) : str :=
  match scanstring (flat_map escape_char (nfc s) ++ [34]) with
  | inr r => fst r
  | inl _ => []
  end.

(** What [scan_once] reads from the text of a number. *)
Definition reread_number (num : number) : value :=
  match _canonicalize_number num with
  | inr text =>
      match match_number text with
      | Some (m, _) => number_of_match m
      | None => VNone
      end
  | inl _ => VNone
  end.

(** The members [scan_once] reads from the text of an object, given what it
    reads from the text of each value. *)
Definition reread_members (obj : dict value) : list (str * value) :=
  map (fun key =>
         (reread_string key,
          match dict_get obj (original_key_of nfc obj key) with
          | inr tree => tree
          | inl _ => VNone
          end))
      (sort_keys (map nfc (dict_keys obj))).

(** What [scan_once], keeping the members of objects as they stand, reads
    from the text [_canonicalize_value] writes for a value. *)
Fixpoint reread (v : value) : value :=
  match v with
  | VInt n => reread_number (NInt n)
  | VFloat f => reread_number (NFloat f)
  | VStr s => VStr (reread_string s)
  | VList arr => VList (map reread arr)
  | VDict obj =>
      VDict (reread_members (map (fun kv => (fst kv, reread (snd kv))) obj))
  | _ => v
  end.

End Reread.

(** ** The texts of numbers *)

(** The integer part of a JSON number: a zero, or digits that do not start
    with a zero. *)
Definition integer_part (ds : str) : Prop :=
  ds = [48]
  \/ exists d ds', ds = d :: ds' /\ is_digit d = true /\ d <> 48
                   /\ Forall (fun c => is_digit c = true) ds'.

(** At least one digit. *)
Definition digits1 (ds : str) : Prop :=
  ds <> [] /\ Forall (fun c => is_digit c = true) ds.

Definition frac_text (frac : option str) : str :=
  match frac with
  | Some fs => 46 :: fs
  | None => []
  end.

Definition exp_text (exp : option (bool * str)) : str :=
  match exp with
  | Some (eneg, es) => 101 :: (if eneg then 45 else 43) :: es
  | None => []
  end.

(** The text of a JSON number with the groups of [m]. *)
Definition number_text (m : number_match) (text : str) : Prop :=
  text = (if nm_neg m then [45] else []) ++ nm_int m
           ++ frac_text (nm_frac m) ++ exp_text (nm_exp m)
  /\ integer_part (nm_int m)
  /\ match nm_frac m with Some fs => digits1 fs | None => True end
  /\ match nm_exp m with Some (_, es) => digits1 es | None => True end.

(** ** Further definitions and tactics for the proofs *)

(** A value that is neither an array nor an object. *)
Definition is_scalar (v : value) : Prop :=
  match v with
  | VList _ | VDict _ => False
  | _ => True
  end.

(** A text that does not start with a digit. *)
Definition not_digit_start (s : str) : Prop :=
  match s with
  | [] => True
  | c :: _ => is_digit c = false
  end.

(** Digits that start with a digit other than zero. *)
Definition significant (ds : str) : Prop :=
  exists d ds', ds = d :: ds' /\ is_digit d = true /\ d <> 48
                /\ Forall (fun c => is_digit c = true) ds'.

(** The value the encoder writes for a sorted key. *)
Definition written_value (nfc : str -> str) (obj : dict value) (key : str)
    : value :=
  match dict_get obj (original_key_of nfc obj key) with
  | inr v => v
  | inl _ => VNone
  end.

(** What a scanner does on the texts of at most [n] characters: it consumes
    at least one character, and raises nothing but [JSONDecodeError]. *)
Definition scanner_progress {A : Type} (scan : str -> result (A * str))
    (n : nat) : Prop :=
  forall s, (List.length s <= n)%nat ->
  match scan s with
  | inr r => (List.length (snd r) < List.length s)%nat
  | inl e => e = JSONDecodeError
  end.

(** Case analysis on the scrutinee of the first [match] or [if] of the
    goal. *)
Ltac break_match :=
  match goal with
  | |- context [match ?x with _ => _ end] =>
      match type of x with
      | sumbool _ _ => destruct x
      | _ => destruct x eqn:?
      end
  end.

(** Decides the conditions of the goal by linear arithmetic. *)
Ltac decide_conditions :=
  repeat match goal with
    | |- context [if ?b then _ else _] =>
        first [ replace b with true by lia
              | replace b with false by lia ]
    end.

(** ** Definitions for the round trips *)

(** [P] holds of a value and of every value nested in it. *)
Fixpoint all_values (P : value -> Prop) (v : value) : Prop :=
  P v /\
  match v with
  | VList arr => (fix all (l : list value) : Prop :=
                    match l with
                    | [] => True
                    | x :: tl => all_values P x /\ all tl
                    end) arr
  | VDict obj => (fix all (l : list (str * value)) : Prop :=
                    match l with
                    | [] => True
                    | kv :: tl => all_values P (snd kv) /\ all tl
                    end) obj
  | _ => True
  end.

(** A float that [_canonicalize_number] writes as an integer: a zero, or an
    integral float of magnitude at most [2^53]. *)
Definition written_as_int (f : float) : bool :=
  negb (isnan f || isinf f)
  && (float_is_zero f
      || (float_eq_int f (int_of_float f) && float_abs_le_int f (2 ^ 53))).

Section Shapes.

Variable nfc : str -> str.




(** A value as [json.loads] returns it from a canonical text without
    floats: the strings are normalized, and the items of every [dict] are in
    the order of their keys. *)
Definition normal_node (v : value) : Prop :=
  match v with
  | VFloat _ | VOther => False
  | VStr s => Forall code_point s /\ nfc s = s
  | VDict obj =>
      StronglySorted utf16_le (dict_keys obj) /\ NoDup (dict_keys obj)
      /\ Forall (fun k => Forall code_point k /\ nfc k = k) (dict_keys obj)
  | _ => True
  end.

Definition normal : value -> Prop := all_values normal_node.

End Shapes.

(** The characters of the strings [_canonicalize_value] writes for a value
    satisfy [Q]: those of the normalized form of a string, and those of the
    normalized form of a normalized key. *)
Definition written_chars (nfc : str -> str) (Q : Z -> Prop) (v : value)
    : Prop :=
  match v with
  | VStr s => Forall Q (nfc s)
  | VDict obj => Forall (fun k => Forall Q (nfc (nfc k))) (dict_keys obj)
  | _ => True
  end.

(** The last character of the text of a value: the end of [null], of
    [true] or [false], a digit, a quote, a closing bracket or a closing
    brace. *)
Definition value_end (c : Z) : Prop :=
  c = 108 \/ c = 101 \/ is_digit c = true \/ c = 34 \/ c = 93 \/ c = 125.

(** Two values that differ at most by the order of the items of their
    [dict]s, at any depth. *)
Fixpoint same_items (v w : value) : Prop :=
  match v, w with
  | VList arr, VList arr' =>
      (fix all (l l' : list value) {struct l} : Prop :=
         match l, l' with
         | [], [] => True
         | x :: tl, y :: tl' => same_items x y /\ all tl tl'
         | _, _ => False
         end) arr arr'
  | VDict obj, VDict obj' =>
      exists mid,
        Permutation mid obj'
        /\ (fix all (l l' : list (str * value)) {struct l} : Prop :=
              match l, l' with
              | [], [] => True
              | kv :: tl, kv' :: tl' =>
                  fst kv = fst kv' /\ same_items (snd kv) (snd kv')
                  /\ all tl tl'
              | _, _ => False
              end) obj mid
  | VList _, _ | VDict _, _ => False
  | _, _ => v = w
  end.

(** An object in which no two keys have the same normalized form, and whose
    normalized keys are strings of Unicode scalar values. *)
Definition distinct_keys (nfc : str -> str) (v : value) : Prop :=
  match v with
  | VDict obj =>
      NoDup (map nfc (dict_keys obj))
      /\ Forall (Forall scalar_value) (map nfc (dict_keys obj))
  | _ => True
  end.

(** An object in which no two keys have the same normalized form. *)
Definition no_collision (nfc : str -> str) (v : value) : Prop :=
  match v with
  | VDict obj => NoDup (map nfc (dict_keys obj))
  | _ => True
  end.

(** What [validate_integrity] asks of the values of a text: normalized
    strings; objects with normalized names, in the order of the names and
    without a repetition; and no float that is written as an integer or not
    written at all. *)
Definition canonical_node (nfc : str -> str) (v : value) : Prop :=
  match v with
  | VStr s => nfc s = s
  | VFloat f => written_as_int f = false /\ isnan f || isinf f = false
  | VDict members =>
      StronglySorted utf16_le (dict_keys members)
      /\ NoDup (dict_keys members)
      /\ Forall (fun k => nfc k = k) (dict_keys members)
  | _ => True
  end.

(** The result of a scanner on a text followed by [tail]: the text left
    after the value is followed by [tail] as well. *)
Definition with_tail {A : Type} (tail : str) (r : result (A * str))
    : result (A * str) :=
  match r with
  | inl e => inl e
  | inr (a, rest) => inr (a, rest ++ tail)
  end.

(** A surrogate code point, which [str.encode] refuses. *)
Definition surrogate (c : Z) : bool := (0xD800 <=? c) && (c <? 0xE000).

(** ** The encoder under the limits of the interpreter

    The functions above follow the source as it reads.  The interpreter adds
    two limits that the source does not mention, and a [dict] has keys of any
    hashable type.  The functions below are the same functions with these
    three things written out:
    - [frames] is the number of frames the interpreter still allows (the
      recursion limit, 1000 by default, less the depth of the caller): a
      call of a function of the module, a comprehension and a generator
      expression each take one frame while they run (CPython up to 3.11;
      later versions run a comprehension in the frame that contains it), and
      a call with no frame left raises [RecursionError].  The checks that
      built-in functions make for themselves are not counted, so a value may
      need a few frames more than the model says, never fewer;
    - [max_str_digits] is [sys.get_int_max_str_digits()], 4300 by default,
      0 for no limit and never between 1 and 639: [str] of an [int] of more
      than 640 digits and of more digits than this limit raises
      [ValueError];
    - [unicodedata.normalize] raises [TypeError] on a key that is not a
      [str]. *)

(** A key of a [dict]: a [str], or an object of another type (an [int], a
    tuple, [None], ...). *)
Inductive key : Type :=
| KStr (s : str)
| KOther.

(** A Python object as [_canonicalize_value] can receive it: a [value],
    with [dict]s of any keys. *)
Inductive object : Type :=
| ONone
| OBool (b : bool)
| OInt (n : Z)
| OFloat (f : float)
| OStr (s : str)
| OList (arr : list object)
| ODict (items : list (key * object))
| OOther.

(** A [value] as an [object]: every key is a [str]. *)
Fixpoint of_value (v : value) : object :=
  match v with
  | VNone => ONone
  | VBool b => OBool b
  | VInt n => OInt n
  | VFloat f => OFloat f
  | VStr s => OStr s
  | VList arr => OList (map of_value arr)
  | VDict obj => ODict (map (fun kv => (KStr (fst kv), of_value (snd kv))) obj)
  | VOther => OOther
  end.

(** [str(n)] refuses an [int] of too many digits. *)
Definition too_many_digits (max_str_digits n : Z) : bool :=
  let digits := Z.of_nat (List.length (to_base 10 (Z.abs n))) in
  (640 <? digits) && (0 <? max_str_digits) && (max_str_digits <? digits).

Definition str_int_limited (max_str_digits n : Z) : result str :=
  if too_many_digits max_str_digits n then Raise ValueError
  else Ok (str_int n).

(** [_canonicalize_number], with [str] as the interpreter has it. *)
Definition _canonicalize_number_limited (max_str_digits : Z) (num : number)
    : result str :=
  match num with
  | NFloat f =>
      if isnan f || isinf f then Raise ValueError
      else if float_is_zero f then Ok (lit "0")
      else if float_eq_int f (int_of_float f) && float_abs_le_int f (2 ^ 53)
      then str_int_limited max_str_digits (int_of_float f)
      else
        let s := repr_float f in
        Ok (if endswith s (lit ".0") then firstn (List.length s - 2) s else s)
  | NInt n => str_int_limited max_str_digits n
  end.

(** The items of a [dict] whose keys are [str]. *)
Definition str_items {A : Type} (items : list (key * A)) : dict A :=
  flat_map (fun kv => match fst kv with
                      | KStr k => [(k, snd kv)]
                      | KOther => []
                      end) items.

Section Limited.

Variable nfc : str -> str.
Variable max_str_digits : Z.

(** The comprehension [[unicodedata.normalize("NFC", k) for k in
    obj.keys()]]. *)
Definition normalized_keys {A : Type} (items : list (key * A))
    : result (list str) :=
  sequence (map (fun kv => match fst kv with
                           | KStr k => Ok (nfc k)
                           | KOther => Raise TypeError
                           end) items).

(** [_canonicalize_value], called with [frames] frames left.  The call
    itself takes one; so do the calls of [_canonicalize_number],
    [_canonicalize_string], [_canonicalize_array] and [_canonicalize_object],
    the comprehensions inside the last two, and, when a [dict] is not empty,
    the function of the sort and [_utf16_sort_key] that it calls. *)
Fixpoint _canonicalize_value_limited (frames : nat) (value : object)
    : result str :=
  match frames with
  | O => Raise RecursionError
  | S in_value =>
      match value with
      | ONone => Ok (lit "null")
      | OBool b => Ok (if b then lit "true" else lit "false")
      | OInt n =>
          match in_value with
          | O => Raise RecursionError
          | S _ => _canonicalize_number_limited max_str_digits (NInt n)
          end
      | OFloat f =>
          match in_value with
          | O => Raise RecursionError
          | S _ => _canonicalize_number_limited max_str_digits (NFloat f)
          end
      | OStr s =>
          match in_value with
          | O => Raise RecursionError
          | S _ => Ok (_canonicalize_string nfc s)
          end
      | OList arr =>
          match in_value with
          | O => Raise RecursionError
          | S in_array =>
              match in_array with
              | O => Raise RecursionError
              | S in_comprehension =>
                  elements <- sequence
                                (map (_canonicalize_value_limited
                                        in_comprehension) arr) ;;
                  Ok ([91] ++ join [44] elements ++ [93])
              end
          end
      | ODict items =>
          match in_value with
          | O => Raise RecursionError
          | S in_object =>
              match in_object with
              | O => Raise RecursionError
              | S in_comprehension =>
                  _ <- normalized_keys items ;;
                  match items, in_comprehension with
                  | _ :: _, O => Raise RecursionError
                  | _, _ =>
                      canonicalize_object_with nfc (fun text => text)
                        (map (fun kv =>
                                (fst kv,
                                 _canonicalize_value_limited in_object
                                   (snd kv)))
                             (str_items items))
                  end
              end
          end
      | OOther => Raise TypeError
      end
  end.

Definition canonicalize_to_string_limited (frames : nat) (value : object)
    : result str :=
  match frames with
  | O => Raise RecursionError
  | S in_function => _canonicalize_value_limited in_function value
  end.


End Limited.

(** An [int] of a value that [str] accepts. *)
Definition int_within (max_str_digits : Z) (v : value) : Prop :=
  match v with
  | VInt n => too_many_digits max_str_digits n = false
  | _ => True
  end.

(** * Properties *)

(** ** Basic facts *)

Lemma str_eqb_eq (a b : str) : str_eqb a b = true <-> a = b.
Proof.
  revert b; induction a as [|x a IH]; intros [|y b]; simpl; split; intro H;
    try reflexivity; try discriminate.
  - apply andb_true_iff in H as [Hx Hr]. apply Z.eqb_eq in Hx.
    apply IH in Hr. congruence.
  - injection H as -> ->. rewrite Z.eqb_refl. simpl. now apply IH.
Qed.

Lemma str_eqb_refl (a : str) : str_eqb a a = true.
Proof. now apply str_eqb_eq. Qed.

Lemma str_eqb_neq (a b : str) : str_eqb a b = false <-> a <> b.
Proof.
  split.
  - intros H E. apply str_eqb_eq in E. congruence.
  - intro H. destruct (str_eqb a b) eqn:E; [|reflexivity].
    apply str_eqb_eq in E. contradiction.
Qed.

Lemma bind_Ok {A B : Type} (a : A) (k : A -> result B) : bind (Ok a) k = k a.
Proof. reflexivity. Qed.

Lemma bind_Raise {A B : Type} (e : exn) (k : A -> result B) :
  bind (Raise e) k = Raise e.
Proof. reflexivity. Qed.

(** ** Decimal digits *)

Lemma digits_value_app (ds : str) (c : Z) :
  digits_value (ds ++ [c]) = digits_value ds * 10 + (c - 48).
Proof. unfold digits_value. now rewrite fold_left_app. Qed.

Lemma digit_char_is_digit (d : Z) :
  0 <= d < 10 -> is_digit (digit_char d) = true /\ digit_char d - 48 = d.
Proof.
  intro H. unfold is_digit, digit_char.
  destruct (d <? 10) eqn:E; [|lia]. split; [|lia].
  apply andb_true_iff. split; apply Z.leb_le; lia.
Qed.

(** [to_base_aux] prepends to [acc] the decimal digits of [n], most
    significant first and without a leading zero, when the fuel covers the
    binary length of [n]. *)
Lemma to_base_aux_decimal (fuel : nat) :
  forall n acc, 0 <= n < 2 ^ Z.of_nat fuel -> (0 < fuel)%nat ->
  exists ds,
    to_base_aux fuel 10 n acc = ds ++ acc
    /\ ds <> []
    /\ Forall (fun c => is_digit c = true) ds
    /\ digits_value ds = n
    /\ (n <> 0 -> hd 0 ds <> 48).
Proof.
  induction fuel as [|fuel IH]; intros n acc Hn Hf; [lia|].
  simpl to_base_aux.
  assert (Hmod : 0 <= n mod 10 < 10) by (apply Z.mod_pos_bound; lia).
  destruct (digit_char_is_digit _ Hmod) as [Hd Hv].
  destruct (n / 10 =? 0) eqn:E.
  - apply Z.eqb_eq in E.
    assert (Hsmall : n mod 10 = n).
    { pose proof (Z.div_mod n 10 ltac:(lia)). lia. }
    exists [digit_char (n mod 10)]. repeat split.
    + discriminate.
    + constructor; [assumption|constructor].
    + unfold digits_value. simpl. lia.
    + simpl. intros Hnz Habs. lia.
  - apply Z.eqb_neq in E.
    assert (Hq : 0 <= n / 10 < 2 ^ Z.of_nat fuel).
    { split; [apply Z.div_pos; lia|].
      apply Z.div_lt_upper_bound; [lia|].
      rewrite Nat2Z.inj_succ, Z.pow_succ_r in Hn by lia. lia. }
    assert (Hfuel : (0 < fuel)%nat).
    { destruct fuel; [|lia]. simpl in Hq. lia. }
    destruct (IH (n / 10) (digit_char (n mod 10) :: acc) Hq Hfuel)
      as (ds & Heq & Hne & Hall & Hval & Hhd).
    exists (ds ++ [digit_char (n mod 10)]). repeat split.
    + rewrite Heq, <- app_assoc. reflexivity.
    + destruct ds; discriminate.
    + apply Forall_app. split; [assumption|]. constructor; [assumption|constructor].
    + rewrite digits_value_app, Hval, Hv.
      pose proof (Z.div_mod n 10 ltac:(lia)). lia.
    + intros _. destruct ds as [|d ds]; [contradiction|]. simpl. apply Hhd. assumption.
Qed.

Lemma to_base_decimal (n : Z) :
  0 <= n ->
  exists ds,
    to_base 10 n = ds
    /\ ds <> []
    /\ Forall (fun c => is_digit c = true) ds
    /\ digits_value ds = n
    /\ (n <> 0 -> hd 0 ds <> 48).
Proof.
  intro Hn. unfold to_base.
  assert (Hb : 0 <= n < 2 ^ Z.of_nat (S (Z.to_nat (Z.log2 n)))).
  { split; [assumption|].
    rewrite Nat2Z.inj_succ, Z2Nat.id by apply Z.log2_nonneg.
    destruct (Z.eq_dec n 0) as [->|Hnz]; [simpl; lia|].
    apply Z.log2_spec. lia. }
  destruct (to_base_aux_decimal _ n [] Hb ltac:(lia)) as (ds & H & Hr).
  exists ds. rewrite app_nil_r in H. auto.
Qed.

(** [str(n)] is the literal of [n]. *)
Lemma str_int_literal (n : Z) : integer_literal n (str_int n).
Proof.
  unfold integer_literal, str_int.
  destruct (n <? 0) eqn:E.
  - apply Z.ltb_lt in E.
    assert (Hpos : 0 <= - n) by lia.
    destruct (to_base_decimal (- n) Hpos) as (ds & H1 & H2 & H3 & H4 & H5).
    exists ds. rewrite H1. repeat split; auto; try lia.
  - apply Z.ltb_ge in E.
    destruct (to_base_decimal n E) as (ds & H1 & H2 & H3 & H4 & H5).
    exists ds. rewrite H1. repeat split; auto. lia.
Qed.

(** ** The number formatter *)

Lemma cond_Zopp_mul (s : bool) (a b : Z) :
  cond_Zopp s (a * b) = cond_Zopp s a * b.
Proof. destruct s; simpl; lia. Qed.

(** A float whose value is the integer [n] is equal to [int] of itself, and
    [int] of it is [n]. *)
Lemma float_integer_value (s : bool) (m : positive) (e : Z) (q : Q) (n : Z) :
  float_value (S754_finite s m e) = Some q -> (q == inject_Z n)%Q ->
  int_of_float (S754_finite s m e) = n
  /\ float_eq_int (S754_finite s m e) n = true
  /\ float_abs_le_int (S754_finite s m e) (Z.abs n) = true.
Proof.
  unfold float_value, int_of_float, float_eq_int, float_abs_le_int.
  intros Hq Heq. injection Hq as <-.
  destruct (0 <=? e) eqn:He.
  - unfold Qeq, inject_Z in Heq. cbn [Qnum Qden] in Heq.
    rewrite !Z.mul_1_r in Heq. rewrite <- cond_Zopp_mul in Heq.
    repeat split.
    + assumption.
    + now apply Z.eqb_eq.
    + apply Z.leb_le. rewrite <- Heq. destruct s; simpl; lia.
  - apply Z.leb_gt in He.
    assert (Hp : 0 < 2 ^ (- e)) by (apply Z.pow_pos_nonneg; lia).
    unfold Qeq, inject_Z in Heq. cbn [Qnum Qden] in Heq.
    rewrite Z.mul_1_r, Z2Pos.id in Heq by assumption.
    set (p := 2 ^ (- e)) in *.
    assert (Hm : Zpos m = Z.abs n * p).
    { destruct s; simpl in Heq; nia. }
    repeat split.
    + rewrite Hm, Z.div_mul by lia. destruct s; simpl in *; nia.
    + now apply Z.eqb_eq.
    + apply Z.leb_le. lia.
Qed.

(** C7: negative zero, as an [int] and as a float, is formatted ["0"]; a
    float whose value is an integer of magnitude at most 2^53 (the bound
    included) is formatted as the literal of that integer: its decimal
    digits after an optional minus sign, with no point and no exponent. *)
Theorem canonicalize_number_zero_and_integral_floats :
  _canonicalize_number (NInt (- 0)) = Ok (lit "0")
  /\ _canonicalize_number (NFloat (S754_zero true)) = Ok (lit "0")
  /\ _canonicalize_number (NFloat (S754_zero false)) = Ok (lit "0")
  /\ (forall (f : float) (q : Q) (n : Z),
        float_value f = Some q -> (q == inject_Z n)%Q -> Z.abs n <= 2 ^ 53 ->
        _canonicalize_number (NFloat f) = Ok (str_int n)
        /\ integer_literal n (str_int n)).
Proof.
  split; [reflexivity|]. split; [reflexivity|]. split; [reflexivity|].
  intros f q n Hq Heq Hn. split; [|apply str_int_literal].
  destruct f as [s|s| |s m e]; try discriminate.
  - simpl in Hq. injection Hq as <-.
    unfold Qeq, inject_Z in Heq. cbn [Qnum Qden] in Heq.
    assert (n = 0) by lia. subst n. reflexivity.
  - destruct (float_integer_value s m e q n Hq Heq) as (Hi & He & Ha).
    unfold _canonicalize_number.
    cbn [isnan isinf float_is_zero orb].
    rewrite Hi, He. cbn [andb].
    replace (float_abs_le_int (S754_finite s m e) (2 ^ 53)) with true;
      [reflexivity|].
    symmetry. revert Ha. unfold float_abs_le_int.
    destruct (0 <=? e) eqn:E; intro Ha.
    + apply Z.leb_le in Ha. apply Z.leb_le. lia.
    + apply Z.leb_le in Ha. apply Z.leb_le.
      apply Z.leb_gt in E.
      assert (0 < 2 ^ (- e)) by (apply Z.pow_pos_nonneg; lia). nia.
Qed.

(** The two floats of the specification's examples: [100.0] and [2.0**53]. *)
Example canonicalize_number_100 :
  _canonicalize_number (NFloat (S754_finite false 7036874417766400 (-46)))
  = Ok (lit "100").
Proof. vm_compute. reflexivity. Qed.

Example canonicalize_number_2_53 :
  _canonicalize_number (NFloat (S754_finite false 4503599627370496 1))
  = Ok (lit "9007199254740992").
Proof. vm_compute. reflexivity. Qed.

Lemma canonicalize_number_raise (num : number) (e : exn) :
  _canonicalize_number num = Raise e -> e = ValueError.
Proof.
  destruct num as [n|f]; [discriminate|].
  unfold _canonicalize_number.
  destruct (isnan f || isinf f).
  - intro H. now injection H.
  - destruct (float_is_zero f); [discriminate|].
    destruct (_ && _); discriminate.
Qed.

(** ** The string escaper *)

Lemma escape_control (n : nat) :
  (n < 32)%nat -> escape_char (Z.of_nat n) = spec_escape (Z.of_nat n).
Proof.
  intro H.
  do 32 (destruct n as [|n]; [vm_compute; reflexivity|]). lia.
Qed.

Lemma escape_char_spec (c : Z) : 0 <= c -> escape_char c = spec_escape c.
Proof.
  intro Hc.
  destruct (Z_lt_le_dec c 32) as [Hlt|Hge].
  - rewrite <- (Z2Nat.id c Hc). apply escape_control. lia.
  - unfold escape_char, spec_escape.
    replace (c =? 8) with false by (symmetry; apply Z.eqb_neq; lia).
    replace (c =? 12) with false by (symmetry; apply Z.eqb_neq; lia).
    replace (c =? 10) with false by (symmetry; apply Z.eqb_neq; lia).
    replace (c =? 13) with false by (symmetry; apply Z.eqb_neq; lia).
    replace (c =? 9) with false by (symmetry; apply Z.eqb_neq; lia).
    replace (c <? 32) with false by (symmetry; apply Z.ltb_ge; lia).
    replace (c <=? 31) with false by (symmetry; apply Z.leb_gt; lia).
    destruct (c =? 34); [reflexivity|].
    destruct (c =? 92); reflexivity.
Qed.

Lemma escape_char_literal (c : Z) :
  0x20 <= c -> c <> 0x22 -> c <> 0x5C -> escape_char c = [c].
Proof.
  intros H1 H2 H3. unfold escape_char.
  replace (c =? 34) with false by (symmetry; apply Z.eqb_neq; lia).
  replace (c =? 92) with false by (symmetry; apply Z.eqb_neq; lia).
  replace (c =? 8) with false by (symmetry; apply Z.eqb_neq; lia).
  replace (c =? 12) with false by (symmetry; apply Z.eqb_neq; lia).
  replace (c =? 10) with false by (symmetry; apply Z.eqb_neq; lia).
  replace (c =? 13) with false by (symmetry; apply Z.eqb_neq; lia).
  replace (c =? 9) with false by (symmetry; apply Z.eqb_neq; lia).
  replace (c <? 32) with false by (symmetry; apply Z.ltb_ge; lia).
  reflexivity.
Qed.

(** C9: on a normalized string of code points the escaper returns the
    string between double quotes with each character replaced as the table
    of the specification says; a character from U+0020 on, other than the
    double quote and the backslash, is written as itself. *)
Theorem canonicalize_string_escaping (nfc : str -> str) (s : str) :
  nfc s = s -> Forall code_point s ->
  _canonicalize_string nfc s = [0x22] ++ flat_map spec_escape s ++ [0x22]
  /\ (forall c, In c s -> 0x20 <= c -> c <> 0x22 -> c <> 0x5C ->
        escape_char c = [c] /\ spec_escape c = [c]).
Proof.
  intros Hn Hs. split.
  - unfold _canonicalize_string. rewrite Hn. clear Hn.
    assert (E : flat_map escape_char s = flat_map spec_escape s).
    { induction Hs as [|c s Hc Hs IH]; [reflexivity|].
      simpl. rewrite IH. f_equal. apply escape_char_spec. apply Hc. }
    rewrite E. reflexivity.
  - intros c Hin H1 H2 H3.
    rewrite <- escape_char_spec by lia.
    split; apply escape_char_literal; assumption.
Qed.

(** The string [say "hi"\n], a control character, U+00E9 and U+1F600. *)
Lemma canonicalize_string_escaping_witness :
  _canonicalize_string (fun s => s)
    (json_lit "say 'hi'" ++ [10; 1; 0xE9; 0x1F600])
  = [0x22] ++ flat_map spec_escape
                (json_lit "say 'hi'" ++ [10; 1; 0xE9; 0x1F600]) ++ [0x22]
  /\ (forall c, In c (json_lit "say 'hi'" ++ [10; 1; 0xE9; 0x1F600]) ->
        0x20 <= c -> c <> 0x22 -> c <> 0x5C ->
        escape_char c = [c] /\ spec_escape c = [c]).
Proof.
  apply (canonicalize_string_escaping (fun s => s)).
  - reflexivity.
  - repeat constructor; vm_compute; discriminate.
Defined.

Example canonicalize_string_example :
  _canonicalize_string (fun s => s)
    (json_lit "say 'hi'" ++ [10; 1; 0xE9; 0x1F600])
  = json_lit "'say \'hi\'\n\u0001" ++ [0xE9; 0x1F600; 0x22].
Proof. vm_compute. reflexivity. Qed.

(** ** The integrity validator *)

Lemma validate_integrity_true (nfc : str -> str) (raw : bytes) :
  validate_integrity nfc raw = true -> canonicalize_bytes nfc raw = Ok raw.
Proof.
  unfold validate_integrity, bytes_eqb.
  destruct (canonicalize_bytes nfc raw) as [e|canonical]; [discriminate|].
  intro H. apply str_eqb_eq in H. now subst.
Qed.

(** C4: [validate_integrity] returns a boolean on every input; it is [true]
    exactly when [canonicalize_bytes] returns the input itself, and [false]
    when [canonicalize_bytes] raises (whatever the exception) or returns
    other bytes. *)
Theorem validate_integrity_true_iff (nfc : str -> str) (raw : bytes) :
  (validate_integrity nfc raw = true <-> canonicalize_bytes nfc raw = Ok raw)
  /\ (forall e, canonicalize_bytes nfc raw = Raise e ->
        validate_integrity nfc raw = false)
  /\ (forall canonical, canonicalize_bytes nfc raw = Ok canonical ->
        canonical <> raw -> validate_integrity nfc raw = false).
Proof.
  unfold validate_integrity, bytes_eqb.
  destruct (canonicalize_bytes nfc raw) as [e|canonical]; repeat split.
  - discriminate.
  - discriminate.
  - intro H. apply str_eqb_eq in H. subst. reflexivity.
  - intro H. injection H as ->. apply str_eqb_refl.
  - discriminate.
  - intros c H Hne. injection H as <-. apply str_eqb_neq. congruence.
Qed.

(** ** The order of the keys *)

Lemma list_lt_irrefl (a : list Z) : list_lt a a = false.
Proof.
  induction a as [|x a IH]; [reflexivity|].
  simpl. now rewrite Z.eqb_refl.
Qed.

Lemma list_lt_asym (a b : list Z) : list_lt a b = true -> list_lt b a = false.
Proof.
  revert b; induction a as [|x a IH]; intros [|y b]; simpl; try easy.
  rewrite (Z.eqb_sym y x).
  destruct (x =? y) eqn:E.
  - apply IH.
  - intro H. apply Z.ltb_lt in H. apply Z.ltb_ge. lia.
Qed.

Lemma list_lt_trans (a b c : list Z) :
  list_lt a b = true -> list_lt b c = true -> list_lt a c = true.
Proof.
  revert b c; induction a as [|x a IH]; intros [|y b] [|z c]; simpl; try easy.
  destruct (Z.eqb_spec x y) as [Exy|Exy]; destruct (Z.eqb_spec y z) as [Eyz|Eyz];
    subst.
  - rewrite Z.eqb_refl. apply IH.
  - intros _ H. apply Z.eqb_neq in Eyz. now rewrite Eyz.
  - intros H _. apply Z.eqb_neq in Exy. now rewrite Exy.
  - intros H1 H2. apply Z.ltb_lt in H1, H2.
    replace (x =? z) with false by (symmetry; apply Z.eqb_neq; lia).
    apply Z.ltb_lt. lia.
Qed.

Lemma list_lt_total (a b : list Z) :
  a <> b -> list_lt a b = true \/ list_lt b a = true.
Proof.
  revert b; induction a as [|x a IH]; intros [|y b] Hne; simpl; auto.
  rewrite (Z.eqb_sym y x).
  destruct (Z.eqb_spec x y) as [E|E].
  - subst. apply IH. congruence.
  - destruct (Z_lt_le_dec x y); [left|right]; apply Z.ltb_lt; lia.
Qed.

(** [list_lt] is the lexicographic order. *)
Lemma list_lt_lex (a b : list Z) : list_lt a b = true <-> lex_lt a b.
Proof.
  unfold lex_lt. split.
  - revert b; induction a as [|x a IH]; intros [|y b]; simpl; try easy.
    + intros _. left. exists y, b. reflexivity.
    + destruct (x =? y) eqn:E.
      * apply Z.eqb_eq in E. subst y. intro H.
        destruct (IH _ H) as [(c & cs & ->)|(p & u & v & a' & b' & -> & -> & Huv)].
        -- left. exists c, cs. reflexivity.
        -- right. exists (x :: p), u, v, a', b'. auto.
      * intro H. apply Z.ltb_lt in H.
        right. exists [], x, y, a, b. auto.
  - intros [(c & cs & ->)|(p & u & v & a' & b' & -> & -> & Huv)].
    + induction a as [|x a IH]; simpl; [reflexivity|].
      now rewrite Z.eqb_refl.
    + induction p as [|x p IH]; simpl.
      * replace (u =? v) with false by (symmetry; apply Z.eqb_neq; lia).
        apply Z.ltb_lt. assumption.
      * now rewrite Z.eqb_refl.
Qed.

(** The sort key is the concatenation of the code units of the
    characters. *)
Lemma utf16_sort_key_units (s : str) :
  _utf16_sort_key s = flat_map utf16_units s.
Proof.
  induction s as [|c s IH]; [reflexivity|].
  simpl. unfold utf16_units at 1.
  destruct (c <? 65536); simpl; rewrite IH; [reflexivity|].
  rewrite Z.shiftr_div_pow2 by lia.
  change 1023 with (Z.ones 10). rewrite Z.land_ones by lia.
  reflexivity.
Qed.

(** The code units of a scalar value: itself, or a high and a low surrogate
    from which the value is recovered. *)
Lemma utf16_units_cases (v : Z) :
  scalar_value v ->
  (v < 0x10000 /\ utf16_units v = [v])
  \/ (exists hi lo,
        utf16_units v = [hi; lo]
        /\ 0xD800 <= hi <= 0xDBFF /\ 0xDC00 <= lo <= 0xDFFF
        /\ v = 0x10000 + (hi - 0xD800) * 1024 + (lo - 0xDC00)).
Proof.
  unfold scalar_value, utf16_units. intro H.
  destruct (Z.ltb_spec v 65536) as [E|E]; [left; auto|right].
  eexists. eexists. split; [reflexivity|].
  pose proof (Z.div_pos (v - 65536) 1024 ltac:(lia) ltac:(lia)).
  assert ((v - 65536) / 1024 < 1024) by (apply Z.div_lt_upper_bound; lia).
  pose proof (Z.mod_pos_bound (v - 65536) 1024 ltac:(lia)).
  pose proof (Z.div_mod (v - 65536) 1024 ltac:(lia)).
  lia.
Qed.

Lemma utf16_units_inj (c1 c2 : Z) (r1 r2 : list Z) :
  scalar_value c1 -> scalar_value c2 ->
  utf16_units c1 ++ r1 = utf16_units c2 ++ r2 -> c1 = c2 /\ r1 = r2.
Proof.
  intros H1 H2.
  destruct (utf16_units_cases c1 H1) as [[L1 ->]|(h1 & l1 & -> & Hh1 & Hl1 & E1)];
    destruct (utf16_units_cases c2 H2) as [[L2 ->]|(h2 & l2 & -> & Hh2 & Hl2 & E2)];
    cbn [app]; intro H; injection H; intros; subst;
    unfold scalar_value in *; try (split; [lia|congruence]); try (exfalso; lia).
Qed.

Lemma utf16_sort_key_inj (a b : str) :
  Forall scalar_value a -> Forall scalar_value b ->
  _utf16_sort_key a = _utf16_sort_key b -> a = b.
Proof.
  rewrite !utf16_sort_key_units.
  intros Ha. revert b. induction Ha as [|x a Hx Ha IH]; intros b Hb.
  - destruct Hb as [|y b Hy Hb]; [reflexivity|].
    simpl. unfold utf16_units. destruct (y <? 65536); discriminate.
  - destruct Hb as [|y b Hy Hb].
    + simpl. unfold utf16_units. destruct (x <? 65536); discriminate.
    + simpl. intro H.
      destruct (utf16_units_inj _ _ _ _ Hx Hy H) as [-> Hr].
      f_equal. now apply IH.
Qed.

(** The order of the keys is a strict total order on strings of scalar
    values. *)
Lemma utf16_lt_strict_total_order :
  (forall a, ~ utf16_lt a a)
  /\ (forall a b c, utf16_lt a b -> utf16_lt b c -> utf16_lt a c)
  /\ (forall a b, Forall scalar_value a -> Forall scalar_value b ->
        a <> b -> utf16_lt a b \/ utf16_lt b a).
Proof.
  unfold utf16_lt. repeat split.
  - intros a H. rewrite list_lt_irrefl in H. discriminate.
  - intros a b c. apply list_lt_trans.
  - intros a b Ha Hb Hne. apply list_lt_total.
    intro H. apply Hne. now apply utf16_sort_key_inj.
Qed.

(** *** The sort *)

Lemma insert_key_perm (k : str) (l : list str) :
  Permutation (insert_key k l) (k :: l).
Proof.
  induction l as [|y l IH]; simpl; [reflexivity|].
  destruct (list_lt _ _); [|reflexivity].
  rewrite IH. apply perm_swap.
Qed.

Lemma sort_keys_perm (l : list str) : Permutation (sort_keys l) l.
Proof.
  induction l as [|k l IH]; simpl; [reflexivity|].
  rewrite insert_key_perm. now constructor.
Qed.

Lemma utf16_le_trans (a b c : str) :
  utf16_le a b -> utf16_le b c -> utf16_le a c.
Proof.
  unfold utf16_le. intros H1 H2.
  destruct (list_lt (_utf16_sort_key c) (_utf16_sort_key a)) eqn:E;
    [|reflexivity].
  set (ka := _utf16_sort_key a) in *. set (kb := _utf16_sort_key b) in *.
  set (kc := _utf16_sort_key c) in *.
  destruct (list_eq_dec Z.eq_dec ka kb) as [<-|Hab]; [congruence|].
  destruct (list_lt_total _ _ Hab) as [H|H]; [|congruence].
  rewrite (list_lt_trans _ _ _ E H) in H2. discriminate.
Qed.

Lemma insert_key_sorted (k : str) (l : list str) :
  Sorted utf16_le l -> Sorted utf16_le (insert_key k l).
Proof.
  induction 1 as [|y l Hs IH Hhd]; simpl.
  - repeat constructor.
  - destruct (list_lt (_utf16_sort_key y) (_utf16_sort_key k)) eqn:E.
    + constructor; [assumption|].
      destruct l as [|z l]; simpl.
      * constructor. unfold utf16_le. now apply list_lt_asym.
      * destruct (list_lt (_utf16_sort_key z) (_utf16_sort_key k)).
        -- constructor. now inversion Hhd.
        -- constructor. unfold utf16_le. now apply list_lt_asym.
    + constructor; [now constructor|]. constructor. exact E.
Qed.

Lemma sort_keys_sorted (l : list str) : StronglySorted utf16_le (sort_keys l).
Proof.
  apply Sorted_StronglySorted; [exact utf16_le_trans|].
  induction l as [|k l IH]; simpl; [constructor|].
  now apply insert_key_sorted.
Qed.

(** Distinct keys of scalar values come out in strictly increasing order. *)
Lemma strongly_sorted_strict (l : list str) :
  StronglySorted utf16_le l -> Forall (Forall scalar_value) l -> NoDup l ->
  StronglySorted utf16_lt l.
Proof.
  induction 1 as [|a l Hs IH Hall]; intros Hsc Hnd; constructor.
  - apply IH; [now inversion Hsc|now inversion Hnd].
  - inversion Hsc as [|? ? Ha Hl]; subst. inversion Hnd as [|? ? Hni Hnd']; subst.
    rewrite Forall_forall in Hall, Hl |- *. intros b Hb.
    assert (Hne : a <> b) by (intros ->; contradiction).
    destruct (proj2 (proj2 utf16_lt_strict_total_order) a b Ha (Hl b Hb) Hne)
      as [H|H]; [assumption|].
    specialize (Hall b Hb). unfold utf16_le, utf16_lt in *. congruence.
Qed.

(** ** The body of [_canonicalize_object] *)

Lemma dict_get_map {A B : Type} (f : A -> B) (obj : dict A) (k : str) :
  dict_get (map (fun kv => (fst kv, f (snd kv))) obj) k
  = (v <- dict_get obj k ;; Ok (f v)).
Proof.
  induction obj as [|[k' v] obj IH]; simpl; [reflexivity|].
  destruct (str_eqb k' k); [reflexivity|apply IH].
Qed.

Lemma dict_keys_map {A B : Type} (f : A -> B) (obj : dict A) :
  dict_keys (map (fun kv => (fst kv, f (snd kv))) obj) = dict_keys obj.
Proof.
  unfold dict_keys. rewrite map_map. reflexivity.
Qed.

(** The object case of [_canonicalize_value] is the body of
    [_canonicalize_object] with [_canonicalize_value] called on the value
    found under the original key. *)
Lemma _canonicalize_value_dict (nfc : str -> str) (obj : dict value) :
  _canonicalize_value nfc (VDict obj) = _canonicalize_object nfc obj.
Proof.
  unfold _canonicalize_object. cbn [_canonicalize_value].
  unfold canonicalize_object_with.
  rewrite dict_keys_map. f_equal. f_equal.
  apply map_ext. intro key.
  unfold original_key_of. rewrite dict_keys_map.
  rewrite dict_get_map.
  destruct (dict_get obj _); reflexivity.
Qed.

(** The key ordering example of the specification, and a key of the
    supplementary planes: U+1F600 sorts by its high surrogate 0xD83D, before
    U+FF5E. *)
Example key_ordering_example :
  canonicalize_to_string nfc_e_acute
    (VDict [(lit "z_key", VInt 3); (lit "a_key", VInt 1);
            (lit "A_key", VInt 0); (lit "m_key", VInt 2)])
  = Ok (json_lit "{'A_key':0,'a_key':1,'m_key':2,'z_key':3}").
Proof. vm_compute. reflexivity. Qed.

Example supplementary_key_example :
  sort_keys [[0xFF5E]; [0x1F600]; lit "a"; lit "ab"; []]
  = [[]; lit "a"; lit "ab"; [0x1F600]; [0xFF5E]].
Proof. vm_compute. reflexivity. Qed.

(** ** Totality of the recursion of the source *)

(** Induction on values, with the hypothesis on every element of an array
    and on every member's value of an object. *)
Lemma value_induction (P : value -> Prop) :
  P VNone -> (forall b, P (VBool b)) -> (forall n, P (VInt n)) ->
  (forall f, P (VFloat f)) -> (forall s, P (VStr s)) ->
  (forall arr, Forall P arr -> P (VList arr)) ->
  (forall obj, Forall (fun kv => P (snd kv)) obj -> P (VDict obj)) ->
  P VOther ->
  forall v, P v.
Proof.
  intros HN HB HI HF HS HL HD HO.
  fix IH 1. intros [ |b|n|f|s|arr|obj| ].
  - exact HN.
  - apply HB.
  - apply HI.
  - apply HF.
  - apply HS.
  - apply HL. induction arr as [|x arr IHarr]; constructor.
    + apply IH.
    + exact IHarr.
  - apply HD. induction obj as [|kv obj IHobj]; constructor.
    + apply IH.
    + exact IHobj.
  - exact HO.
Qed.

Lemma encodable_list (arr : list value) :
  encodable (VList arr) <-> Forall encodable arr.
Proof.
  induction arr as [|x arr IH]; simpl.
  - split; auto.
  - split.
    + intros [Hx Ha]. constructor; [assumption|]. now apply IH.
    + intro H. inversion H; subst. split; [assumption|]. now apply IH.
Qed.

Lemma encodable_dict (obj : dict value) :
  encodable (VDict obj) <-> Forall (fun kv => encodable (snd kv)) obj.
Proof.
  induction obj as [|x obj IH]; simpl.
  - split; auto.
  - split.
    + intros [Hx Ha]. constructor; [assumption|]. now apply IH.
    + intro H. inversion H; subst. split; [assumption|]. now apply IH.
Qed.

Lemma sequence_ok {A : Type} (l : list (result A)) :
  Forall (fun r => exists x, r = Ok x) l -> exists xs, sequence l = Ok xs.
Proof.
  induction 1 as [|r l [x ->] Hl [xs IH]]; simpl.
  - eexists. reflexivity.
  - rewrite IH. eexists. reflexivity.
Qed.

Lemma sequence_raise {A : Type} (P : exn -> Prop) (l : list (result A)) :
  Forall (fun r => forall e, r = Raise e -> P e) l ->
  forall e, sequence l = Raise e -> P e.
Proof.
  induction 1 as [|r l Hr Hl IH]; simpl; intros e He.
  - discriminate.
  - destruct r as [e'|x]; simpl in He.
    + injection He as <-. now apply Hr.
    + destruct (sequence l) as [e'|xs]; simpl in He; [|discriminate].
      injection He as <-. now apply IH.
Qed.

(** The key found for a normalized key is a key of the object, and has a
    value. *)
Lemma dict_get_in {A : Type} (obj : dict A) (k : str) :
  In k (dict_keys obj) ->
  exists v, dict_get obj k = Ok v /\ In (k, v) obj.
Proof.
  induction obj as [|[k' v'] obj IH]; simpl; [contradiction|].
  intros [->|Hin].
  - rewrite str_eqb_refl. eauto.
  - destruct (str_eqb k' k) eqn:E.
    + apply str_eqb_eq in E. subst. eauto.
    + destruct (IH Hin) as (v & Hv & Hi). eauto.
Qed.

Lemma original_key_found {A : Type} (nfc : str -> str) (obj : dict A) (key : str) :
  In key (map nfc (dict_keys obj)) ->
  In (original_key_of nfc obj key) (dict_keys obj)
  /\ nfc (original_key_of nfc obj key) = key.
Proof.
  unfold original_key_of. intro Hin.
  destruct (find _ _) as [k|] eqn:E.
  - apply find_some in E as [Hk He]. apply str_eqb_eq in He. auto.
  - exfalso. apply in_map_iff in Hin as (k & Hk & Hin).
    apply (find_none _ _ E) in Hin. rewrite Hk, str_eqb_refl in Hin.
    discriminate.
Qed.

Lemma sorted_key_lookup {A : Type} (nfc : str -> str) (obj : dict A) (key : str) :
  In key (sort_keys (map nfc (dict_keys obj))) ->
  exists v, dict_get obj (original_key_of nfc obj key) = Ok v
            /\ In (original_key_of nfc obj key, v) obj.
Proof.
  intro Hin. apply dict_get_in.
  apply original_key_found.
  eapply Permutation_in; [apply sort_keys_perm|exact Hin].
Qed.

(** The recursion of the source returns a string on every encodable
    value. *)
Lemma canonicalize_value_ok (nfc : str -> str) (v : value) :
  encodable v -> exists s, _canonicalize_value nfc v = Ok s.
Proof.
  induction v as [ |b|n|f|s|arr IH|obj IH| ] using value_induction;
    intro He.
  - eexists; reflexivity.
  - eexists; reflexivity.
  - eexists; reflexivity.
  - simpl in He. unfold _canonicalize_value, _canonicalize_number.
    rewrite He.
    destruct (float_is_zero f); [eexists; reflexivity|].
    destruct (_ && _); eexists; reflexivity.
  - eexists; reflexivity.
  - apply encodable_list in He.
    cbn [_canonicalize_value].
    destruct (sequence_ok (map (_canonicalize_value nfc) arr)) as [xs Hxs].
    { apply Forall_map. rewrite Forall_forall in *. auto. }
    rewrite Hxs. eexists. reflexivity.
  - apply encodable_dict in He.
    rewrite _canonicalize_value_dict.
    unfold _canonicalize_object, canonicalize_object_with.
    match goal with |- context [sequence ?l] =>
      destruct (sequence_ok l) as [xs Hxs] end.
    { apply Forall_map. apply Forall_forall. intros key Hkey.
      destruct (sorted_key_lookup nfc obj key Hkey) as (v & Hv & Hin).
      rewrite Hv, bind_Ok.
      rewrite Forall_forall in IH, He.
      destruct (IH _ Hin (He _ Hin)) as [t Ht]. simpl in Ht.
      rewrite Ht. eexists. reflexivity. }
    rewrite Hxs. eexists. reflexivity.
  - contradiction.
Qed.

(** The only exceptions the source raises itself are [ValueError] and
    [TypeError]. *)
Lemma canonicalize_value_raise (nfc : str -> str) (v : value) (e : exn) :
  _canonicalize_value nfc v = Raise e -> e = ValueError \/ e = TypeError.
Proof.
  revert e.
  induction v as [ |b|n|f|s|arr IH|obj IH| ] using value_induction;
    intros e He; try discriminate.
  - left. apply (canonicalize_number_raise (NFloat f)). exact He.
  - cbn [_canonicalize_value] in He.
    destruct (sequence _) as [e'|xs] eqn:E; [|discriminate].
    injection He as <-.
    revert e' E. apply (sequence_raise (fun e => e = ValueError \/ e = TypeError)).
    apply Forall_map. exact IH.
  - rewrite _canonicalize_value_dict in He.
    unfold _canonicalize_object, canonicalize_object_with in He.
    destruct (sequence _) as [e'|xs] eqn:E; [|discriminate].
    injection He as <-.
    revert e' E. apply (sequence_raise (fun e => e = ValueError \/ e = TypeError)).
    apply Forall_map. apply Forall_forall. intros key Hkey e'.
    destruct (sorted_key_lookup nfc obj key Hkey) as (v & Hv & Hin).
    rewrite Hv, bind_Ok.
    rewrite Forall_forall in IH. specialize (IH _ Hin). simpl in IH.
    destruct (_canonicalize_value nfc v) as [e''|t]; [|discriminate].
    intro H. injection H as <-. now apply IH.
  - injection He as <-. now right.
Qed.


(** ** Keys that collide after normalization *)

(** C1 on the code: an object with the two distinct keys U+00E9 and [e]
    U+0301, which have the same normalized form, is encoded with the key
    U+00E9 twice, both times with the value of the first of the two keys.
    The value of the second key is lost, and the output is the JSON text of
    an object with two members of one name. *)
Theorem nfc_collision_repeats_key :
  let obj := [([0xE9], VInt 1); ([0x65; 0x301], VInt 2)] in
  let output := json_lit "{'" ++ [0xE9] ++ json_lit "':1,'" ++ [0xE9]
                  ++ json_lit "':1}" in
  NoDup (dict_keys obj)
  /\ map nfc_e_acute (dict_keys obj) = [[0xE9]; [0xE9]]
  /\ canonicalize_to_string nfc_e_acute (VDict obj) = Ok output
  /\ json_loads_pairs output = Ok (VDict [([0xE9], VInt 1); ([0xE9], VInt 1)]).
Proof.
  intros obj output. split.
  - repeat constructor; simpl; intuition discriminate.
  - vm_compute. auto.
Qed.

(** C6 on the code: for the same object, canonicalizing the canonical bytes
    gives other bytes: the key that was written twice is read back once. *)
Theorem recanonicalization_differs :
  let v := VDict [([0xE9], VInt 1); ([0x65; 0x301], VInt 2)] in
  let first := json_lit "{'" ++ [0xC3; 0xA9] ++ json_lit "':1,'"
                 ++ [0xC3; 0xA9] ++ json_lit "':1}" in
  let second := json_lit "{'" ++ [0xC3; 0xA9] ++ json_lit "':1}" in
  wf_value v
  /\ canonicalize nfc_e_acute v = Ok first
  /\ canonicalize_bytes nfc_e_acute first = Ok second
  /\ first <> second.
Proof.
  intros v first second. split.
  - simpl. split; [|auto]. repeat constructor; simpl; intuition discriminate.
  - vm_compute. repeat split; discriminate.
Qed.

(** The round trip of the test suite. *)
Example recanonicalization_example :
  let v := VDict [(lit "z", VInt 3); (lit "a", VInt 1); (lit "m", VInt 2)] in
  canonicalize nfc_e_acute v = Ok (json_lit "{'a':1,'m':2,'z':3}")
  /\ canonicalize_bytes nfc_e_acute (json_lit "{'a':1,'m':2,'z':3}")
     = Ok (json_lit "{'a':1,'m':2,'z':3}").
Proof. vm_compute. auto. Qed.

(** ** Floats that are not written as integers *)

(** C3 on the code: the floats [1e-05] and [1e16] are written ["1e-05"] and
    ["1e+16"], the layout of [repr], where ECMAScript's [Number::toString]
    writes ["0.00001"] and ["10000000000000000"]. *)
Theorem float_layout_is_not_ecmascript :
  let small := S754_finite false 0x14F8B588E368F1 (-69) in
  let large := S754_finite false 0x11C37937E08000 1 in
  small = float_of_decimal false 1 (-5)
  /\ large = float_of_decimal false 1 16
  /\ _canonicalize_number (NFloat small) = Ok (lit "1e-05")
  /\ ecma_number_to_string small = lit "0.00001"
  /\ _canonicalize_number (NFloat large) = Ok (lit "1e+16")
  /\ ecma_number_to_string large = lit "10000000000000000".
Proof. vm_compute. repeat split; reflexivity. Qed.

(** Where the two layouts agree, the formatter writes the shortest digits:
    the examples of the test suite and the largest and smallest doubles. *)
Example float_layout_examples :
  map (fun dq => _canonicalize_number
                   (NFloat (float_of_decimal false (fst dq) (snd dq))))
      [(314159, -5); (1, -3); (1, -1); (3, -1); (15, -1); (1, 21); (1, 22);
       (17976931348623157, 292); (5, -324)]
  = map (fun t => Ok (lit t))
      ["3.14159"; "0.001"; "0.1"; "0.3"; "1.5"; "1e+21"; "1e+22";
       "1.7976931348623157e+308"; "5e-324"]%string
  /\ map (fun dq => ecma_number_to_string
                      (float_of_decimal false (fst dq) (snd dq)))
       [(314159, -5); (1, -3); (1, -1); (3, -1); (15, -1); (1, 21); (1, 22);
        (17976931348623157, 292); (5, -324)]
     = map lit
       ["3.14159"; "0.001"; "0.1"; "0.3"; "1.5"; "1e+21"; "1e+22";
        "1.7976931348623157e+308"; "5e-324"]%string.
Proof. vm_compute. split; reflexivity. Qed.

(** ** The examples of the integrity validator *)

Example validate_integrity_examples :
  validate_integrity nfc_e_acute (json_lit "{'A':1,'a':2}") = true
  /\ validate_integrity nfc_e_acute (json_lit "{ 'A': 1, 'a': 2 }") = false
  /\ validate_integrity nfc_e_acute (json_lit "{'a':2,'A':1}") = false
  /\ canonicalize_bytes nfc_e_acute (json_lit "{'a':") = Raise JSONDecodeError
  /\ validate_integrity nfc_e_acute (json_lit "{'a':") = false
  /\ canonicalize_bytes nfc_e_acute (json_lit "[NaN]") = Raise ValueError
  /\ validate_integrity nfc_e_acute (json_lit "[NaN]") = false
  /\ canonicalize_bytes nfc_e_acute [0xFF] = Raise UnicodeDecodeError
  /\ validate_integrity nfc_e_acute [0xFF] = false.
Proof. vm_compute. repeat split; reflexivity. Qed.

(** ** [dict(pairs)] *)

Lemma dict_set_present {A : Type} (d : dict A) (k : str) (v : A) :
  In k (dict_keys d) ->
  List.length (dict_set d k v) = List.length d
  /\ dict_keys (dict_set d k v) = dict_keys d.
Proof.
  induction d as [|[k' v'] d IH]; simpl; [contradiction|].
  destruct (str_eqb k' k) eqn:E; simpl.
  - auto.
  - intros [->|Hin]; [rewrite str_eqb_refl in E; discriminate|].
    destruct (IH Hin) as [Hl Hk]. split; congruence.
Qed.

Lemma dict_set_absent {A : Type} (d : dict A) (k : str) (v : A) :
  ~ In k (dict_keys d) -> dict_set d k v = d ++ [(k, v)].
Proof.
  induction d as [|[k' v'] d IH]; simpl; [reflexivity|].
  intro Hni. destruct (str_eqb k' k) eqn:E.
  - apply str_eqb_eq in E. exfalso. auto.
  - rewrite IH; auto.
Qed.

Lemma dict_get_set {A : Type} (d : dict A) (k' : str) (v' : A) (k : str) :
  dict_get (dict_set d k' v') k
  = if str_eqb k' k then Ok v' else dict_get d k.
Proof.
  induction d as [|[k0 v0] d IH]; simpl.
  - destruct (str_eqb k' k); reflexivity.
  - destruct (str_eqb k0 k') eqn:E0; simpl.
    + apply str_eqb_eq in E0. subst k0.
      destruct (str_eqb k' k); reflexivity.
    + destruct (str_eqb k0 k) eqn:E1; [|apply IH].
      apply str_eqb_eq in E1. subst k0.
      apply str_eqb_neq in E0.
      replace (str_eqb k' k) with false; [reflexivity|].
      symmetry. apply str_eqb_neq. congruence.
Qed.

Lemma dict_fold_length {A : Type} (ps : list (str * A)) (d : dict A) :
  (List.length (fold_left dict_step ps d) <= List.length d + List.length ps)%nat.
Proof.
  revert d; induction ps as [|[k v] ps IH]; intro d; simpl; [lia|].
  change (dict_step d (k, v)) with (dict_set d k v).
  specialize (IH (dict_set d k v)).
  destruct (in_dec (list_eq_dec Z.eq_dec) k (dict_keys d)) as [Hin|Hni].
  - destruct (dict_set_present d k v Hin) as [Hl _]. lia.
  - rewrite (dict_set_absent d k v Hni), length_app in IH. simpl in IH.
    rewrite (dict_set_absent d k v Hni). lia.
Qed.

Lemma dict_fold_full {A : Type} (ps : list (str * A)) (d : dict A) :
  List.length (fold_left dict_step ps d) = (List.length d + List.length ps)%nat ->
  NoDup (dict_keys d) -> NoDup (dict_keys d ++ map fst ps).
Proof.
  revert d; induction ps as [|[k v] ps IH]; intros d Hlen Hnd; simpl in *.
  - now rewrite app_nil_r.
  - change (dict_step d (k, v)) with (dict_set d k v) in *.
    destruct (in_dec (list_eq_dec Z.eq_dec) k (dict_keys d)) as [Hin|Hni].
    + exfalso. destruct (dict_set_present d k v Hin) as [Hl _].
      pose proof (dict_fold_length ps (dict_set d k v)). lia.
    + rewrite (dict_set_absent d k v Hni) in Hlen.
      specialize (IH (d ++ [(k, v)])).
      rewrite length_app in IH. simpl in IH.
      unfold dict_keys in *. rewrite map_app, <- app_assoc in IH. simpl in IH.
      apply IH; [lia|].
      apply NoDup_app_remove_r with (l' := []). rewrite app_nil_r.
      apply Permutation_NoDup with (l := k :: map fst d).
      * apply Permutation_cons_append.
      * now constructor.
Qed.

Lemma dict_fold_distinct {A : Type} (ps : list (str * A)) (d : dict A) :
  NoDup (dict_keys d ++ map fst ps) -> fold_left dict_step ps d = d ++ ps.
Proof.
  revert d; induction ps as [|[k v] ps IH]; intros d Hnd; simpl in *.
  - now rewrite app_nil_r.
  - change (dict_step d (k, v)) with (dict_set d k v) in *.
    assert (Hni : ~ In k (dict_keys d)).
    { intro Hin. apply NoDup_remove_2 in Hnd. apply Hnd.
      apply in_or_app. now left. }
    rewrite (dict_set_absent d k v Hni), IH.
    + now rewrite <- app_assoc.
    + unfold dict_keys in *. rewrite map_app, <- app_assoc. exact Hnd.
Qed.

Lemma dict_fold_keys_nodup {A : Type} (ps : list (str * A)) (d : dict A) :
  NoDup (dict_keys d) -> NoDup (dict_keys (fold_left dict_step ps d)).
Proof.
  revert d; induction ps as [|[k v] ps IH]; intros d Hnd; simpl; [assumption|].
  change (dict_step d (k, v)) with (dict_set d k v).
  apply IH.
  destruct (in_dec (list_eq_dec Z.eq_dec) k (dict_keys d)) as [Hin|Hni].
  - destruct (dict_set_present d k v Hin) as [_ Hk]. now rewrite Hk.
  - rewrite (dict_set_absent d k v Hni). unfold dict_keys in *.
    rewrite map_app. simpl.
    apply Permutation_NoDup with (l := k :: map fst d).
    + apply Permutation_cons_append.
    + now constructor.
Qed.

Lemma dict_of_pairs_length {A : Type} (ps : list (str * A)) :
  (List.length (dict_of_pairs ps) <= List.length ps)%nat.
Proof. apply (dict_fold_length ps []). Qed.

Lemma dict_of_pairs_full {A : Type} (ps : list (str * A)) :
  List.length (dict_of_pairs ps) = List.length ps -> NoDup (map fst ps).
Proof.
  intro H. apply (dict_fold_full ps []); [exact H|constructor].
Qed.

Lemma dict_of_pairs_distinct {A : Type} (ps : list (str * A)) :
  NoDup (map fst ps) -> dict_of_pairs ps = ps.
Proof. intro H. apply (dict_fold_distinct ps []). exact H. Qed.

Lemma dict_of_pairs_keys_nodup {A : Type} (ps : list (str * A)) :
  NoDup (dict_keys (dict_of_pairs ps)).
Proof. apply (dict_fold_keys_nodup ps []). constructor. Qed.

Lemma dict_get_raise {A : Type} (d : dict A) (k : str) (e : exn) :
  dict_get d k = Raise e -> e = KeyError.
Proof.
  induction d as [|[k' v'] d IH]; simpl.
  - intro H. now injection H.
  - destruct (str_eqb k' k); [discriminate|exact IH].
Qed.

Lemma dict_get_app {A : Type} (d1 d2 : dict A) (k : str) :
  dict_get (d1 ++ d2) k
  = match dict_get d1 k with inr v => Ok v | inl _ => dict_get d2 k end.
Proof.
  induction d1 as [|[k' v'] d1 IH]; simpl; [reflexivity|].
  destruct (str_eqb k' k); [reflexivity|apply IH].
Qed.

(** [dict(pairs)[k]] is the value of the last pair of key [k]. *)
Lemma dict_of_pairs_last {A : Type} (ps : list (str * A)) (k : str) :
  dict_get (dict_of_pairs ps) k = last_member ps k.
Proof.
  unfold dict_of_pairs, last_member.
  assert (G : forall d : dict A,
             dict_get (fold_left dict_step ps d) k
             = match dict_get (rev ps) k with
               | inr v => Ok v
               | inl _ => dict_get d k
               end).
  { induction ps as [|[k' v'] ps IH]; intro d; simpl; [reflexivity|].
    change (dict_step d (k', v')) with (dict_set d k' v').
    rewrite IH, dict_get_app, dict_get_set. simpl.
    destruct (dict_get (rev ps) k); [|reflexivity].
    destruct (str_eqb k' k); reflexivity. }
  rewrite G. destruct (dict_get (rev ps) k) as [e|v] eqn:E; [|reflexivity].
  simpl. apply dict_get_raise in E. now subst.
Qed.

(** ** The decoder and its [object_pairs_hook] *)

Lemma scan_once_unfold (hook : list (str * value) -> value) (fuel : nat) (s : str) :
  scan_once hook (S fuel) s
  = match s with
    | [] => Raise JSONDecodeError
    | nextchar :: tl =>
        if nextchar =? 34 then
          r <- scanstring tl ;; Ok (VStr (fst r), snd r)
        else if nextchar =? 123 then
          match skip_ws tl with
          | c :: tl' =>
              if c =? 125 then Ok (hook [], tl')
              else if c =? 34 then
                r <- object_members (scan_once hook fuel) fuel tl' ;;
                Ok (hook (fst r), snd r)
              else Raise JSONDecodeError
          | [] => Raise JSONDecodeError
          end
        else if nextchar =? 91 then
          match skip_ws tl with
          | c :: tl' =>
              if c =? 93 then Ok (VList [], tl')
              else r <- array_elements (scan_once hook fuel) fuel (c :: tl') ;;
                   Ok (VList (fst r), snd r)
          | [] => Raise JSONDecodeError
          end
        else scan_scalar s
    end.
Proof. reflexivity. Qed.

Lemma array_elements_unfold (scan : str -> result (value * str)) (fuel : nat) (s : str) :
  array_elements scan (S fuel) s
  = (r <- scan s ;;
     match skip_ws (snd r) with
     | c :: tl =>
         if c =? 93 then Ok ([fst r], tl)
         else if c =? 44 then
           r' <- array_elements scan fuel (skip_ws tl) ;;
           Ok (fst r :: fst r', snd r')
         else Raise JSONDecodeError
     | [] => Raise JSONDecodeError
     end).
Proof. reflexivity. Qed.

Lemma object_members_unfold (scan : str -> result (value * str)) (fuel : nat) (s : str) :
  object_members scan (S fuel) s
  = (k <- scanstring s ;;
     match skip_ws (snd k) with
     | c :: tl =>
         if c =? 58 then
           r <- scan (skip_ws tl) ;;
           match skip_ws (snd r) with
           | c' :: tl' =>
               if c' =? 125 then Ok ([(fst k, fst r)], tl')
               else if c' =? 44 then
                 match skip_ws tl' with
                 | q :: tl'' =>
                     if q =? 34 then
                       r' <- object_members scan fuel tl'' ;;
                       Ok ((fst k, fst r) :: fst r', snd r')
                     else Raise JSONDecodeError
                 | [] => Raise JSONDecodeError
                 end
               else Raise JSONDecodeError
           | [] => Raise JSONDecodeError
           end
         else Raise JSONDecodeError
     | [] => Raise JSONDecodeError
     end).
Proof. reflexivity. Qed.


Lemma array_elements_map (f : value -> value)
    (scan scan' : str -> result (value * str)) :
  (forall s, scan' s = (r <- scan s ;; Ok (f (fst r), snd r))) ->
  forall fuel s,
    array_elements scan' fuel s
    = (r <- array_elements scan fuel s ;; Ok (map f (fst r), snd r)).
Proof.
  intros Hs fuel. induction fuel as [|fuel IH]; intro s; [reflexivity|].
  rewrite !array_elements_unfold, Hs.
  destruct (scan s) as [e|[v rest]]; [reflexivity|].
  rewrite !bind_Ok. cbn [fst snd].
  destruct (skip_ws rest) as [|c tl]; [reflexivity|].
  destruct (c =? 93); [reflexivity|].
  destruct (c =? 44); [|reflexivity].
  rewrite IH.
  destruct (array_elements scan fuel (skip_ws tl)) as [e|[vs rest']];
    reflexivity.
Qed.

Lemma object_members_map (f : value -> value)
    (scan scan' : str -> result (value * str)) :
  (forall s, scan' s = (r <- scan s ;; Ok (f (fst r), snd r))) ->
  forall fuel s,
    object_members scan' fuel s
    = (r <- object_members scan fuel s ;;
       Ok (map (fun kv => (fst kv, f (snd kv))) (fst r), snd r)).
Proof.
  intros Hs fuel. induction fuel as [|fuel IH]; intro s; [reflexivity|].
  rewrite !object_members_unfold.
  destruct (scanstring s) as [e|[k rest]]; [reflexivity|].
  rewrite !bind_Ok. cbn [fst snd].
  destruct (skip_ws rest) as [|c tl]; [reflexivity|].
  destruct (c =? 58); [|reflexivity].
  rewrite Hs.
  destruct (scan (skip_ws tl)) as [e|[v rest1]]; [reflexivity|].
  rewrite !bind_Ok. cbn [fst snd].
  destruct (skip_ws rest1) as [|c' tl']; [reflexivity|].
  destruct (c' =? 125); [reflexivity|].
  destruct (c' =? 44); [|reflexivity].
  destruct (skip_ws tl') as [|q tl'']; [reflexivity|].
  destruct (q =? 34); [|reflexivity].
  rewrite IH.
  destruct (object_members scan fuel tl'') as [e|[ms rest']]; reflexivity.
Qed.


Lemma number_of_match_scalar (m : number_match) : is_scalar (number_of_match m).
Proof.
  unfold number_of_match.
  destruct (nm_frac m), (nm_exp m); exact I.
Qed.

Lemma scan_scalar_scalar (s : str) (v : value) (rest : str) :
  scan_scalar s = Ok (v, rest) -> is_scalar v.
Proof.
  unfold scan_scalar, Ok, Raise.
  repeat break_match; intro H; try discriminate;
    injection H as <- _; try exact I.
  apply number_of_match_scalar.
Qed.

Lemma as_dicts_scalar (v : value) : is_scalar v -> as_dicts v = v.
Proof. destruct v; simpl; intro H; try reflexivity; contradiction. Qed.

(** [json.loads] reads what the decoder with [object_pairs_hook] reads, and
    turns the members of every object into a [dict]. *)
Lemma scan_once_as_dicts (fuel : nat) :
  forall s,
    scan_once (fun pairs => VDict (dict_of_pairs pairs)) fuel s
    = (r <- scan_once VDict fuel s ;; Ok (as_dicts (fst r), snd r)).
Proof.
  induction fuel as [|fuel IH]; intro s; [reflexivity|].
  rewrite !scan_once_unfold.
  destruct s as [|nextchar tl]; [reflexivity|].
  destruct (nextchar =? 34).
  { destruct (scanstring tl) as [e|[x rest]]; reflexivity. }
  destruct (nextchar =? 123).
  { destruct (skip_ws tl) as [|c tl']; [reflexivity|].
    destruct (c =? 125); [reflexivity|].
    destruct (c =? 34); [|reflexivity].
    rewrite (object_members_map as_dicts _ _ IH).
    destruct (object_members _ fuel tl') as [e|[ms rest]]; reflexivity. }
  destruct (nextchar =? 91).
  { destruct (skip_ws tl) as [|c tl']; [reflexivity|].
    destruct (c =? 93); [reflexivity|].
    rewrite (array_elements_map as_dicts _ _ IH).
    destruct (array_elements _ fuel (c :: tl')) as [e|[vs rest]]; reflexivity. }
  destruct (scan_scalar (nextchar :: tl)) as [e|[v rest]] eqn:E; [reflexivity|].
  rewrite bind_Ok. cbn [fst snd].
  rewrite (as_dicts_scalar v); [reflexivity|].
  eapply scan_scalar_scalar. exact E.
Qed.

(** The check of the byte order mark apart, [decode] is one call of
    [scan_once]; and a text that starts with the mark is refused by
    [scan_once] as well. *)
Lemma decode_unfold (hook : list (str * value) -> value) (s : str) :
  decode hook s
  = (r <- scan_once hook (S (List.length s)) (skip_ws s) ;;
     match skip_ws (snd r) with
     | [] => Ok (fst r)
     | _ :: _ => Raise JSONDecodeError
     end).
Proof.
  unfold decode.
  destruct s as [|c s]; [reflexivity|].
  destruct c as [|p|p]; try reflexivity.
  repeat (destruct p as [p|p|]; try reflexivity).
Qed.

Lemma json_loads_as_dicts (s : str) :
  json_loads s = (tree <- json_loads_pairs s ;; Ok (as_dicts tree)).
Proof.
  unfold json_loads, json_loads_pairs.
  rewrite !decode_unfold, scan_once_as_dicts.
  destruct (scan_once VDict _ _) as [e|[v rest]]; [reflexivity|].
  rewrite !bind_Ok. cbn [fst snd].
  destruct (skip_ws rest); reflexivity.
Qed.

(** ** More fuel does not change what the decoder reads *)

Lemma array_elements_mono (scan scan' : str -> result (value * str)) :
  (forall s r, scan s = Ok r -> scan' s = Ok r) ->
  forall fuel fuel' s r,
    (fuel <= fuel')%nat ->
    array_elements scan fuel s = Ok r -> array_elements scan' fuel' s = Ok r.
Proof.
  intros Hs fuel. induction fuel as [|fuel IH]; intros fuel' s r Hle H;
    [discriminate|].
  destruct fuel' as [|fuel']; [lia|].
  rewrite array_elements_unfold in *.
  destruct (scan s) as [e|[v rest]] eqn:E; [discriminate|].
  rewrite (Hs _ _ E). rewrite bind_Ok in *. cbn [fst snd] in *.
  destruct (skip_ws rest) as [|c tl]; [discriminate|].
  destruct (c =? 93); [assumption|].
  destruct (c =? 44); [|discriminate].
  destruct (array_elements scan fuel (skip_ws tl)) as [e|r'] eqn:E';
    [discriminate|].
  rewrite (IH fuel' _ _ ltac:(lia) E'). exact H.
Qed.

Lemma object_members_mono (scan scan' : str -> result (value * str)) :
  (forall s r, scan s = Ok r -> scan' s = Ok r) ->
  forall fuel fuel' s r,
    (fuel <= fuel')%nat ->
    object_members scan fuel s = Ok r -> object_members scan' fuel' s = Ok r.
Proof.
  intros Hs fuel. induction fuel as [|fuel IH]; intros fuel' s r Hle H;
    [discriminate|].
  destruct fuel' as [|fuel']; [lia|].
  rewrite object_members_unfold in *.
  destruct (scanstring s) as [e|[k rest]]; [discriminate|].
  rewrite bind_Ok in *. cbn [fst snd] in *.
  destruct (skip_ws rest) as [|c tl]; [discriminate|].
  destruct (c =? 58); [|discriminate].
  destruct (scan (skip_ws tl)) as [e|[v rest1]] eqn:E; [discriminate|].
  rewrite (Hs _ _ E). rewrite bind_Ok in *. cbn [fst snd] in *.
  destruct (skip_ws rest1) as [|c' tl']; [discriminate|].
  destruct (c' =? 125); [assumption|].
  destruct (c' =? 44); [|discriminate].
  destruct (skip_ws tl') as [|q tl'']; [discriminate|].
  destruct (q =? 34); [|discriminate].
  destruct (object_members scan fuel tl'') as [e|r'] eqn:E'; [discriminate|].
  rewrite (IH fuel' _ _ ltac:(lia) E'). exact H.
Qed.

Lemma scan_once_mono (hook : list (str * value) -> value) (fuel : nat) :
  forall fuel' s r,
    (fuel <= fuel')%nat ->
    scan_once hook fuel s = Ok r -> scan_once hook fuel' s = Ok r.
Proof.
  induction fuel as [|fuel IH]; intros fuel' s r Hle H; [discriminate|].
  destruct fuel' as [|fuel']; [lia|].
  rewrite scan_once_unfold in *.
  destruct s as [|nextchar tl]; [discriminate|].
  destruct (nextchar =? 34); [assumption|].
  assert (Hscan : forall s r, scan_once hook fuel s = Ok r ->
                              scan_once hook fuel' s = Ok r).
  { intros s' r'. apply IH. lia. }
  destruct (nextchar =? 123).
  { destruct (skip_ws tl) as [|c tl']; [discriminate|].
    destruct (c =? 125); [assumption|].
    destruct (c =? 34); [|discriminate].
    destruct (object_members _ fuel tl') as [e|r'] eqn:E; [discriminate|].
    rewrite (object_members_mono _ _ Hscan fuel fuel' _ _ ltac:(lia) E).
    exact H. }
  destruct (nextchar =? 91).
  { destruct (skip_ws tl) as [|c tl']; [discriminate|].
    destruct (c =? 93); [assumption|].
    destruct (array_elements _ fuel (c :: tl')) as [e|r'] eqn:E; [discriminate|].
    rewrite (array_elements_mono _ _ Hscan fuel fuel' _ _ ltac:(lia) E).
    exact H. }
  exact H.
Qed.

(** ** Reading back the text of a string *)

Lemma scanstring_cons (c : Z) (tl : str) :
  c <> 34 -> c <> 92 -> 32 <= c ->
  scanstring (c :: tl) = (r <- scanstring tl ;; Ok (c :: fst r, snd r)).
Proof.
  intros H1 H2 H3. cbn [scanstring].
  replace (c =? 34) with false by (symmetry; apply Z.eqb_neq; lia).
  replace (c =? 92) with false by (symmetry; apply Z.eqb_neq; lia).
  replace (c <? 32) with false by (symmetry; apply Z.ltb_ge; lia).
  reflexivity.
Qed.

Lemma scanstring_control (n : nat) (tail : str) :
  (n < 32)%nat ->
  scanstring (escape_char (Z.of_nat n) ++ tail)
  = (r <- scanstring tail ;; Ok (Z.of_nat n :: fst r, snd r)).
Proof.
  intro H.
  do 32 (destruct n as [|n]; [reflexivity|]). lia.
Qed.

Lemma scanstring_negative (p : positive) (tail : str) :
  scanstring (escape_char (Zneg p) ++ tail)
  = (r <- scanstring tail ;; Ok (Zneg p mod 16 :: fst r, snd r)).
Proof.
  assert (E : escape_char (Zneg p)
              = [92; 117; 48; 48; 48; digit_char (Zneg p mod 16)]).
  { unfold escape_char, format_04x, to_base. cbn [Z.log2 Z.to_nat to_base_aux].
    destruct (Zneg p / 16 =? 0); reflexivity. }
  rewrite E.
  pose proof (Z.mod_pos_bound (Zneg p) 16 ltac:(lia)) as Hd.
  remember (Zneg p mod 16) as d eqn:Ed. clear Ed E.
  assert (Hn : d = Z.of_nat (Z.to_nat d)) by lia.
  assert (Hlt : (Z.to_nat d < 16)%nat) by lia.
  rewrite Hn. revert Hlt. generalize (Z.to_nat d). intros n Hlt.
  do 16 (destruct n as [|n]; [reflexivity|]). lia.
Qed.

(** The escape of one character is read back as one character. *)
Lemma scanstring_escape_char (c : Z) :
  exists u, forall tail,
    scanstring (escape_char c ++ tail)
    = (r <- scanstring tail ;; Ok (u :: fst r, snd r)).
Proof.
  destruct (Z_lt_le_dec c 0) as [Hneg|Hpos].
  - destruct c as [|p|p]; try lia.
    eexists. intro tail. apply scanstring_negative.
  - destruct (Z_lt_le_dec c 32) as [Hlt|Hge].
    + exists c. intro tail.
      rewrite <- (Z2Nat.id c Hpos). apply scanstring_control. lia.
    + destruct (Z.eq_dec c 34) as [->|H34].
      { exists 34. intro tail. reflexivity. }
      destruct (Z.eq_dec c 92) as [->|H92].
      { exists 92. intro tail. reflexivity. }
      exists c. intro tail.
      rewrite escape_char_literal by assumption.
      now apply scanstring_cons.
Qed.

Lemma scanstring_escaped (x : str) :
  exists y, forall rest,
    scanstring (flat_map escape_char x ++ 34 :: rest) = Ok (y, rest).
Proof.
  induction x as [|c x [y IH]].
  - exists []. intro rest. reflexivity.
  - destruct (scanstring_escape_char c) as [u Hu].
    exists (u :: y). intro rest.
    cbn [flat_map]. rewrite <- app_assoc, Hu, IH. reflexivity.
Qed.

Lemma scanstring_canonical (nfc : str -> str) (s rest : str) :
  scanstring (flat_map escape_char (nfc s) ++ 34 :: rest)
  = Ok (reread_string nfc s, rest).
Proof.
  destruct (scanstring_escaped (nfc s)) as [y Hy].
  unfold reread_string. rewrite (Hy []). cbn [fst]. apply Hy.
Qed.

(** ** Reading back the text of a number *)


Lemma span_digits_app (ds tail : str) :
  Forall (fun c => is_digit c = true) ds -> not_digit_start tail ->
  span_digits (ds ++ tail) = (ds, tail).
Proof.
  intros Hds Ht. induction Hds as [|d ds Hd Hds IH]; cbn [span_digits app].
  - destruct tail as [|c tail]; [reflexivity|].
    cbn [span_digits]. unfold not_digit_start in Ht. now rewrite Ht.
  - now rewrite Hd, IH.
Qed.

Lemma number_follow_not_digit (rest : str) :
  number_follow rest -> not_digit_start rest.
Proof. destruct rest; simpl; intuition. Qed.

Lemma match_exp_text (exp : option (bool * str)) (rest : str) :
  match exp with Some (_, es) => digits1 es | None => True end ->
  number_follow rest ->
  match_exp (exp_text exp ++ rest) = (exp, rest).
Proof.
  intros He Hr. destruct exp as [[eneg es]|]; simpl exp_text.
  - destruct He as [Hne Hes].
    unfold match_exp. cbn [app orb Z.eqb Pos.eqb].
    assert (E : (let '(eneg0, tl') :=
                   match (if eneg then 45 else 43) :: es ++ rest with
                   | [] => (false, (if eneg then 45 else 43) :: es ++ rest)
                   | sg :: tl'' =>
                       if sg =? 45 then (true, tl'')
                       else if sg =? 43 then (false, tl'')
                       else (false, (if eneg then 45 else 43) :: es ++ rest)
                   end in
                 match span_digits tl' with
                 | ([], _) => (None, 101 :: (if eneg then 45 else 43) :: es ++ rest)
                 | (d :: ds, rest0) => (Some (eneg0, d :: ds), rest0)
                 end) = (Some (eneg, es), rest)).
    { destruct eneg; cbn [Z.eqb Pos.eqb];
        rewrite (span_digits_app es rest Hes (number_follow_not_digit _ Hr));
        destruct es; [contradiction|reflexivity|contradiction|reflexivity]. }
    exact E.
  - simpl. unfold match_exp. destruct rest as [|c rest]; [reflexivity|].
    simpl in Hr. destruct Hr as (_ & _ & H1 & H2).
    replace (c =? 101) with false by (symmetry; apply Z.eqb_neq; lia).
    replace (c =? 69) with false by (symmetry; apply Z.eqb_neq; lia).
    reflexivity.
Qed.

Lemma exp_text_not_digit (exp : option (bool * str)) (rest : str) :
  number_follow rest -> not_digit_start (exp_text exp ++ rest).
Proof.
  intro Hr. destruct exp as [[eneg es]|]; simpl.
  - reflexivity.
  - now apply number_follow_not_digit.
Qed.

Lemma match_frac_text (frac : option str) (tail : str) :
  match frac with Some fs => digits1 fs | None => True end ->
  not_digit_start tail ->
  match tail with [] => True | c :: _ => c <> 46 end ->
  match_frac (frac_text frac ++ tail) = (frac, tail).
Proof.
  intros Hf Ht Hdot. destruct frac as [fs|]; simpl frac_text.
  - destruct Hf as [Hne Hfs].
    unfold match_frac. cbn [app Z.eqb Pos.eqb].
    rewrite (span_digits_app fs tail Hfs Ht).
    destruct fs; [contradiction|reflexivity].
  - simpl. unfold match_frac. destruct tail as [|c tail]; [reflexivity|].
    replace (c =? 46) with false by (symmetry; apply Z.eqb_neq; lia).
    reflexivity.
Qed.

Lemma exp_text_not_dot (exp : option (bool * str)) (rest : str) :
  number_follow rest ->
  match exp_text exp ++ rest with [] => True | c :: _ => c <> 46 end.
Proof.
  intro Hr. destruct exp as [[eneg es]|]; simpl.
  - discriminate.
  - destruct rest; [exact I|]. simpl in Hr. tauto.
Qed.

Lemma match_integer_text (ds tail : str) :
  integer_part ds -> not_digit_start tail ->
  match_integer (ds ++ tail) = Some (ds, tail).
Proof.
  intros [->|(d & ds' & -> & Hd & Hnz & Hds)] Ht.
  - reflexivity.
  - unfold match_integer. cbn [app].
    replace (d =? 48) with false by (symmetry; apply Z.eqb_neq; lia).
    rewrite Hd, (span_digits_app ds' tail Hds Ht). reflexivity.
Qed.

Lemma integer_part_start (ds : str) :
  integer_part ds -> exists d ds', ds = d :: ds' /\ is_digit d = true.
Proof.
  intros [->|(d & ds' & -> & Hd & _)]; eauto.
Qed.

Lemma frac_exp_not_digit (frac : option str) (exp : option (bool * str)) (rest : str) :
  number_follow rest ->
  not_digit_start (frac_text frac ++ exp_text exp ++ rest).
Proof.
  intro Hr. destruct frac as [fs|]; simpl.
  - reflexivity.
  - now apply exp_text_not_digit.
Qed.

(** The text of a number, followed by a text that does not continue it, is
    matched whole, with its groups. *)
Lemma match_number_text (m : number_match) (text rest : str) :
  number_text m text -> number_follow rest ->
  match_number (text ++ rest) = Some (m, rest).
Proof.
  intros (-> & Hint & Hfrac & Hexp) Hr.
  destruct m as [neg int frac exp]. cbn [nm_neg nm_int nm_frac nm_exp] in *.
  unfold match_number.
  assert (Hs : match_sign (((if neg then [45] else []) ++ int
                              ++ frac_text frac ++ exp_text exp) ++ rest)
               = (neg, int ++ frac_text frac ++ exp_text exp ++ rest)).
  { destruct neg; cbn [app].
    - rewrite <- !app_assoc. reflexivity.
    - destruct (integer_part_start int Hint) as (d & ds' & -> & Hd).
      rewrite <- !app_assoc. cbn [app]. unfold match_sign.
      destruct (Z.eqb_spec d 45) as [->|Hne]; [discriminate|reflexivity]. }
  rewrite Hs.
  rewrite (match_integer_text int _ Hint (frac_exp_not_digit frac exp rest Hr)).
  rewrite (match_frac_text frac _ Hfrac (exp_text_not_digit exp rest Hr)
             (exp_text_not_dot exp rest Hr)).
  rewrite (match_exp_text exp rest Hexp Hr).
  reflexivity.
Qed.

Lemma number_text_start (m : number_match) (text : str) :
  number_text m text ->
  exists c tl, text = c :: tl /\ (c = 45 \/ is_digit c = true).
Proof.
  intros (-> & Hint & _).
  destruct (integer_part_start _ Hint) as (d & ds' & E & Hd). rewrite E.
  destruct (nm_neg m); cbn [app]; eauto.
Qed.

(** [str(n)] is the text of a JSON number. *)
Lemma str_int_number_text (n : Z) :
  number_text {| nm_neg := n <? 0; nm_int := to_base 10 (Z.abs n);
                 nm_frac := None; nm_exp := None |} (str_int n).
Proof.
  unfold number_text. cbn [nm_neg nm_int nm_frac nm_exp frac_text exp_text].
  rewrite !app_nil_r. repeat split; auto.
  - unfold str_int. destruct (Z.ltb_spec n 0).
    + now rewrite Z.abs_neq by lia.
    + now rewrite Z.abs_eq by lia.
  - destruct (Z.eq_dec n 0) as [->|Hnz]; [now left|].
    destruct (to_base_decimal (Z.abs n) (Z.abs_nonneg n))
      as (ds & E & Hne & Hall & Hval & Hhd).
    rewrite E. right. destruct ds as [|d ds']; [contradiction|].
    inversion Hall; subst. exists d, ds'. repeat split; auto.
    apply Hhd. lia.
Qed.

(** ** The text of a float *)


Lemma significant_digits (ds : str) :
  significant ds -> Forall (fun c => is_digit c = true) ds.
Proof. intros (d & ds' & -> & Hd & _ & Hds). now constructor. Qed.

Lemma to_base_significant (d : Z) : 0 < d -> significant (to_base 10 d).
Proof.
  intro Hd.
  destruct (to_base_decimal d ltac:(lia)) as (ds & E & Hne & Hall & _ & Hhd).
  rewrite E. destruct ds as [|c ds']; [contradiction|].
  inversion Hall; subst. exists c, ds'. repeat split; auto.
  apply Hhd. lia.
Qed.

Lemma strip_zeros_rev_suffix (l : str) :
  exists pre, l = pre ++ strip_zeros_rev l /\ (l <> [] -> strip_zeros_rev l <> []).
Proof.
  induction l as [|d l IH].
  - exists []. split; [reflexivity|auto].
  - destruct l as [|d' l'].
    + exists []. split; [reflexivity|discriminate].
    + cbn [strip_zeros_rev]. destruct (d =? 48).
      * destruct IH as (pre & E & Hne). exists (d :: pre). split.
        -- cbn [app]. f_equal. exact E.
        -- intros _. apply Hne. discriminate.
      * exists []. split; [reflexivity|discriminate].
Qed.

Lemma strip_trailing_zeros_significant (ds : str) :
  significant ds -> significant (strip_trailing_zeros ds).
Proof.
  intros (d & ds' & -> & Hd & Hnz & Hds).
  unfold strip_trailing_zeros.
  destruct (strip_zeros_rev_suffix (rev (d :: ds'))) as (pre & E & Hne).
  apply (f_equal (@rev Z)) in E. rewrite rev_involutive, rev_app_distr in E.
  remember (rev (strip_zeros_rev (rev (d :: ds')))) as kept eqn:Ek.
  destruct kept as [|c kept'].
  - exfalso. apply Hne.
    + simpl. destruct (rev ds'); discriminate.
    + apply (f_equal (@rev Z)) in Ek. rewrite rev_involutive in Ek.
      symmetry. exact Ek.
  - simpl in E. injection E as <- E'.
    exists d, kept'. repeat split; auto.
    rewrite E' in Hds. apply Forall_app in Hds. tauto.
Qed.

Lemma found_decimal_positive (m : positive) (e q d : Z) :
  SFeqb (float_of_decimal false d q) (S754_finite false m e) = true -> 0 < d.
Proof.
  destruct d as [|p|p]; [discriminate|lia|discriminate].
Qed.

Lemma shortest_from_positive (fuel : nat) (m : positive) (e n : Z) :
  forall k, 0 < fst (shortest_from fuel m e n k).
Proof.
  induction fuel as [|fuel IH]; intro k; cbn [shortest_from];
    destruct (find _ _) as [d|] eqn:E.
  - apply find_some in E as [_ E]. simpl.
    eapply found_decimal_positive. exact E.
  - unfold exact_decimal. destruct (0 <=? e) eqn:He; cbn [fst].
    + apply Z.leb_le in He.
      pose proof (Z.pow_pos_nonneg 2 e ltac:(lia) He). lia.
    + apply Z.leb_gt in He.
      pose proof (Z.pow_pos_nonneg 5 (- e) ltac:(lia) ltac:(lia)). lia.
  - apply find_some in E as [_ E]. simpl.
    eapply found_decimal_positive. exact E.
  - apply IH.
Qed.

Lemma repeat_zero_digits (k : nat) :
  Forall (fun c => is_digit c = true) (repeat 48 k).
Proof. induction k; simpl; constructor; auto. Qed.

Lemma format_exponent_text (x : Z) :
  exists es, format_exponent x = (if x <? 0 then 45 else 43) :: es
             /\ digits1 es.
Proof.
  unfold format_exponent.
  destruct (to_base_decimal (Z.abs x) (Z.abs_nonneg x))
    as (ds & E & Hne & Hall & _).
  rewrite E. eexists. split; [reflexivity|]. split.
  - destruct ds; [contradiction|]. destruct (repeat _ _); discriminate.
  - apply Forall_app. split; [apply repeat_zero_digits|assumption].
Qed.

Lemma Forall_firstn_skipn {A : Type} (P : A -> Prop) (n : nat) (l : list A) :
  Forall P l -> Forall P (firstn n l) /\ Forall P (skipn n l).
Proof.
  intro H. rewrite <- (firstn_skipn n l) in H. now apply Forall_app in H.
Qed.

(** The layout of [repr] is the text of a JSON number. *)
Lemma repr_layout_number_text (digits : str) (decpt : Z) :
  significant digits ->
  exists m, number_text m (repr_layout digits decpt) /\ nm_neg m = false.
Proof.
  intros Hsig. pose proof Hsig as (d & ds' & E & Hd & Hnz & Hds).
  unfold repr_layout.
  destruct ((decpt <=? -4) || (16 <? decpt)).
  - destruct (format_exponent_text (decpt - 1)) as (es & Ees & Hes1 & Hes2).
    rewrite Ees. subst digits. cbn [firstn skipn List.length].
    destruct (1 <? Z.of_nat (S (List.length ds'))) eqn:Hlen.
    + exists {| nm_neg := false; nm_int := [d]; nm_frac := Some ds';
                nm_exp := Some (decpt - 1 <? 0, es) |}.
      split; [|reflexivity]. repeat split; auto.
      * right. exists d, []. repeat split; auto.
      * destruct ds'; [|discriminate]. simpl in Hlen. discriminate.
    + exists {| nm_neg := false; nm_int := [d]; nm_frac := None;
                nm_exp := Some (decpt - 1 <? 0, es) |}.
      split; [|reflexivity]. repeat split; auto.
      right. exists d, []. repeat split; auto.
  - destruct (Z.leb_spec decpt 0) as [Hle|Hgt].
    + exists {| nm_neg := false; nm_int := [48];
                nm_frac := Some (repeat 48 (Z.to_nat (- decpt)) ++ digits);
                nm_exp := None |}.
      split; [|reflexivity]. repeat split.
      * cbn [nm_neg nm_int nm_frac nm_exp frac_text exp_text app].
        now rewrite app_nil_r.
      * now left.
      * subst digits. destruct (repeat _ _); discriminate.
      * apply Forall_app. split; [apply repeat_zero_digits|].
        now apply significant_digits.
    + destruct (Z.ltb_spec decpt (Z.of_nat (List.length digits))) as [Hlt|Hge].
      * exists {| nm_neg := false; nm_int := firstn (Z.to_nat decpt) digits;
                  nm_frac := Some (skipn (Z.to_nat decpt) digits);
                  nm_exp := None |}.
        split; [|reflexivity]. repeat split.
        -- cbn [nm_neg nm_int nm_frac nm_exp frac_text exp_text app].
           now rewrite app_nil_r.
        -- right. subst digits.
           destruct (Z.to_nat decpt) as [|p] eqn:Hp; [lia|].
           cbn [firstn]. exists d, (firstn p ds'). repeat split; auto.
           apply Forall_firstn_skipn. exact Hds.
        -- intro Hnil. apply (f_equal (@List.length Z)) in Hnil.
           rewrite length_skipn in Hnil. simpl in Hnil. lia.
        -- apply Forall_firstn_skipn. now apply significant_digits.
      * exists {| nm_neg := false;
                  nm_int := digits ++ repeat 48 (Z.to_nat (decpt - Z.of_nat (List.length digits)));
                  nm_frac := Some [48];
                  nm_exp := None |}.
        split; [|reflexivity]. repeat split.
        -- cbn [nm_neg nm_int nm_frac nm_exp frac_text exp_text app].
           now rewrite <- app_assoc.
        -- right. subst digits. cbn [app]. exists d, (ds' ++ repeat 48 (Z.to_nat (decpt - Z.of_nat (List.length (d :: ds'))))).
           repeat split; auto.
           apply Forall_app. split; [assumption|apply repeat_zero_digits].
        -- discriminate.
        -- repeat constructor.
Qed.

Lemma endswith_app (s suffix : str) :
  endswith s suffix = true ->
  s = firstn (List.length s - List.length suffix) s ++ suffix.
Proof.
  unfold endswith. intro H. apply andb_true_iff in H as [_ H].
  apply str_eqb_eq in H.
  pose proof (firstn_skipn (List.length s - List.length suffix) s) as E.
  rewrite H in E. symmetry. exact E.
Qed.

Lemma last_digit (ds ds' : str) (y : Z) :
  Forall (fun c => is_digit c = true) ds -> ds = ds' ++ [y] ->
  is_digit y = true /\ Forall (fun c => is_digit c = true) ds'.
Proof.
  intros H ->. apply Forall_app in H as [H1 H2]. inversion H2; auto.
Qed.

Lemma integer_part_digits (ds : str) :
  integer_part ds -> ds <> [] /\ Forall (fun c => is_digit c = true) ds.
Proof.
  intros [->|(d & ds' & -> & Hd & _ & Hds)].
  - split; [discriminate|repeat constructor].
  - split; [discriminate|now constructor].
Qed.

(** Removing a final [.0] from the text of a number leaves the text of a
    number. *)
Lemma number_text_strip_point_zero (m : number_match) (a : str) :
  number_text m (a ++ [46; 48]) ->
  number_text {| nm_neg := nm_neg m; nm_int := nm_int m;
                 nm_frac := None; nm_exp := None |} a.
Proof.
  destruct m as [neg int frac exp].
  intros (E & Hint & Hfrac & Hexp).
  cbn [nm_neg nm_int nm_frac nm_exp] in *.
  change (a ++ [46; 48]) with (a ++ [46] ++ [48]) in E.
  rewrite app_assoc in E.
  unfold number_text. cbn [nm_neg nm_int nm_frac nm_exp frac_text exp_text].
  rewrite !app_nil_r.
  destruct exp as [[eneg es]|].
  { exfalso. destruct Hexp as [Hne Hes].
    destruct (exists_last Hne) as (es' & x & ->).
    cbn [exp_text] in E.
    replace ((if neg then [45] else []) ++ int ++ frac_text frac
             ++ 101 :: (if eneg then 45 else 43) :: es' ++ [x])
      with (((if neg then [45] else []) ++ int ++ frac_text frac
             ++ 101 :: (if eneg then 45 else 43) :: es') ++ [x]) in E
      by (rewrite <- !app_assoc; reflexivity).
    apply app_inj_tail in E as [E _].
    destruct (last_digit _ _ _ Hes eq_refl) as [_ Hes'].
    destruct es' as [|e0 es0].
    - replace ((if neg then [45] else []) ++ int ++ frac_text frac
               ++ [101; if eneg then 45 else 43])
        with (((if neg then [45] else []) ++ int ++ frac_text frac ++ [101])
              ++ [if eneg then 45 else 43]) in E
        by (rewrite <- !app_assoc; reflexivity).
      apply app_inj_tail in E as [_ E]. destruct eneg; discriminate.
    - assert (Hne' : e0 :: es0 <> []) by discriminate.
      destruct (exists_last Hne') as (es'' & y & Ey). rewrite Ey in E, Hes'.
      replace ((if neg then [45] else []) ++ int ++ frac_text frac
               ++ 101 :: (if eneg then 45 else 43) :: es'' ++ [y])
        with (((if neg then [45] else []) ++ int ++ frac_text frac
               ++ 101 :: (if eneg then 45 else 43) :: es'') ++ [y]) in E
        by (rewrite <- !app_assoc; reflexivity).
      apply app_inj_tail in E as [_ E]. subst y.
      destruct (last_digit _ _ _ Hes' eq_refl) as [Hy _]. discriminate. }
  cbn [exp_text] in E. rewrite app_nil_r in E.
  destruct frac as [fs|].
  - destruct Hfrac as [Hne Hfs].
    destruct (exists_last Hne) as (fs' & x & ->).
    cbn [frac_text] in E.
    replace ((if neg then [45] else []) ++ int ++ 46 :: fs' ++ [x])
      with (((if neg then [45] else []) ++ int ++ 46 :: fs') ++ [x]) in E
      by (rewrite <- !app_assoc; reflexivity).
    apply app_inj_tail in E as [E _].
    destruct (last_digit _ _ _ Hfs eq_refl) as [_ Hfs'].
    destruct fs' as [|f0 fs0].
    + replace ((if neg then [45] else []) ++ int ++ [46])
        with (((if neg then [45] else []) ++ int) ++ [46]) in E
        by (rewrite <- !app_assoc; reflexivity).
      apply app_inj_tail in E as [E _]. repeat split; auto.
    + exfalso.
      assert (Hne' : f0 :: fs0 <> []) by discriminate.
      destruct (exists_last Hne') as (fs'' & y & Ey). rewrite Ey in E, Hfs'.
      replace ((if neg then [45] else []) ++ int ++ 46 :: fs'' ++ [y])
        with (((if neg then [45] else []) ++ int ++ 46 :: fs'') ++ [y]) in E
        by (rewrite <- !app_assoc; reflexivity).
      apply app_inj_tail in E as [_ E]. subst y.
      destruct (last_digit _ _ _ Hfs' eq_refl) as [Hy _]. discriminate.
  - exfalso. cbn [frac_text] in E. rewrite app_nil_r in E.
    destruct (integer_part_digits _ Hint) as [Hne Hds].
    destruct (exists_last Hne) as (int' & x & Ex). rewrite Ex in E, Hds.
    rewrite app_assoc in E.
    apply app_inj_tail in E as [E _].
    destruct (last_digit _ _ _ Hds eq_refl) as [_ Hds'].
    destruct int' as [|i0 is0].
    + rewrite app_nil_r in E. destruct neg.
      * change [45] with ([] ++ [45]) in E.
        apply app_inj_tail in E as [_ E]. discriminate.
      * destruct a; discriminate.
    + assert (Hne' : i0 :: is0 <> []) by discriminate.
      destruct (exists_last Hne') as (int'' & y & Ey). rewrite Ey in E, Hds'.
      rewrite app_assoc in E.
      apply app_inj_tail in E as [_ E]. subst y.
      destruct (last_digit _ _ _ Hds' eq_refl) as [Hy _]. discriminate.
Qed.

Lemma number_text_negative (m : number_match) (text : str) :
  number_text m text -> nm_neg m = false ->
  number_text {| nm_neg := true; nm_int := nm_int m; nm_frac := nm_frac m;
                 nm_exp := nm_exp m |} (45 :: text).
Proof.
  destruct m as [neg int frac exp].
  intros (E & Hint & Hfrac & Hexp) Hn.
  cbn [nm_neg nm_int nm_frac nm_exp] in *. subst neg.
  repeat split; auto. cbn [nm_neg nm_int nm_frac nm_exp app]. now rewrite E.
Qed.

(** [repr] of a finite float other than zero is the text of a JSON
    number. *)
Lemma repr_float_number_text (s : bool) (m : positive) (e : Z) :
  exists nm, number_text nm (repr_float (S754_finite s m e)).
Proof.
  unfold repr_float.
  pose proof (shortest_from_positive 16 m e (decimal_exponent m e) 1) as Hd.
  fold (shortest_decimal m e) in Hd.
  destruct (shortest_decimal m e) as [d q]. cbn [fst] in Hd.
  pose proof (strip_trailing_zeros_significant _ (to_base_significant d Hd))
    as Hsig.
  destruct (repr_layout_number_text _
              (Z.of_nat (List.length (to_base 10 d)) + q) Hsig)
    as (nm & Hnm & Hneg).
  destruct s; cbn [app].
  - eexists. apply number_text_negative; eassumption.
  - exists nm. exact Hnm.
Qed.

(** Whatever [_canonicalize_number] writes is the text of a JSON number. *)
Lemma canonicalize_number_text (num : number) (text : str) :
  _canonicalize_number num = Ok text -> exists nm, number_text nm text.
Proof.
  destruct num as [n|f].
  - intro H. injection H as <-. eexists. apply str_int_number_text.
  - destruct f as [s|s| |s m e]; try discriminate.
    + intro H. injection H as <-.
      exists {| nm_neg := false; nm_int := [48]; nm_frac := None; nm_exp := None |}.
      repeat split; auto. now left.
    + unfold _canonicalize_number.
      destruct (repr_float_number_text s m e) as (nm & Hnm).
      remember (repr_float (S754_finite s m e)) as t eqn:Et. clear Et.
      cbn [isnan isinf float_is_zero orb].
      destruct (_ && _).
      * intro H. injection H as <-. eexists. apply str_int_number_text.
      * intro H. injection H as <-.
        destruct (endswith t (lit ".0")) eqn:Hend; [|eauto].
        apply endswith_app in Hend.
        change (List.length (lit ".0")) with 2%nat in Hend.
        change (lit ".0") with [46; 48] in Hend.
        rewrite Hend in Hnm.
        eexists. apply number_text_strip_point_zero. exact Hnm.
Qed.

(** ** Reading back the text of a value *)

Lemma sequence_inv {A : Type} (l : list (result A)) (xs : list A) :
  sequence l = Ok xs -> Forall2 (fun r x => r = Ok x) l xs.
Proof.
  revert xs; induction l as [|r l IH]; intros xs H; simpl in H.
  - injection H as <-. constructor.
  - destruct r as [e|x]; [discriminate|]. rewrite bind_Ok in H.
    destruct (sequence l) as [e|xs']; [discriminate|].
    injection H as <-. constructor; auto.
Qed.

Lemma bind_inv {A B : Type} (r : result A) (k : A -> result B) (b : B) :
  bind r k = Ok b -> exists a, r = Ok a /\ k a = Ok b.
Proof. destruct r as [e|a]; [discriminate|]. eauto. Qed.

Lemma value_start_facts (c : Z) :
  value_start c ->
  is_ws c = false /\ c <> 93 /\ c <> 125 /\ c <> 44 /\ c <> 58.
Proof.
  unfold value_start, is_ws, is_digit.
  intros [->|[->|[->|[->|[->|[->|[->|H]]]]]]];
    try (repeat split; try reflexivity; discriminate).
  apply andb_true_iff in H as [H1 H2].
  apply Z.leb_le in H1, H2.
  repeat split; lia.
Qed.

Lemma skip_ws_start (c : Z) (s : str) :
  value_start c -> skip_ws (c :: s) = c :: s.
Proof.
  intro H. apply value_start_facts in H as [H _].
  cbn [skip_ws]. now rewrite H.
Qed.

Lemma value_follow_facts (rest : str) :
  value_follow rest -> number_follow rest /\ skip_ws rest = rest.
Proof.
  destruct rest as [|c rest]; [split; [exact I|reflexivity]|].
  intros [-> | [-> | ->]]; split; try reflexivity;
    repeat split; discriminate.
Qed.

(** A number is read by the scalar branch of [scan_once]. *)
Lemma scan_scalar_number (m : number_match) (text rest : str) :
  number_text m text -> number_follow rest ->
  scan_scalar (text ++ rest) = Ok (number_of_match m, rest).
Proof.
  intros Ht Hr.
  unfold scan_scalar. rewrite (match_number_text m text rest Ht Hr).
  destruct (number_text_start m text Ht) as (c & tl & -> & Hc).
  assert (Hn : c <> 110 /\ c <> 116 /\ c <> 102).
  { destruct Hc as [->|Hc]; [repeat split; discriminate|].
    unfold is_digit in Hc. apply andb_true_iff in Hc as [H1 H2].
    apply Z.leb_le in H1, H2. lia. }
  destruct Hn as (H1 & H2 & H3).
  cbn [app lit list_ascii_of_string map strip_prefix].
  change (Z.of_nat (nat_of_ascii "n")) with 110.
  change (Z.of_nat (nat_of_ascii "t")) with 116.
  change (Z.of_nat (nat_of_ascii "f")) with 102.
  replace (110 =? c) with false by (symmetry; apply Z.eqb_neq; lia).
  replace (116 =? c) with false by (symmetry; apply Z.eqb_neq; lia).
  replace (102 =? c) with false by (symmetry; apply Z.eqb_neq; lia).
  reflexivity.
Qed.

Lemma scan_once_number (hook : list (str * value) -> value) (fuel : nat)
    (m : number_match) (text rest : str) :
  number_text m text -> number_follow rest ->
  scan_once hook (S fuel) (text ++ rest) = Ok (number_of_match m, rest).
Proof.
  intros Ht Hr. rewrite scan_once_unfold.
  destruct (number_text_start m text Ht) as (c & tl & E & Hc).
  rewrite <- (scan_scalar_number m text rest Ht Hr).
  rewrite E. cbn [app].
  assert (Hn : c <> 34 /\ c <> 123 /\ c <> 91).
  { destruct Hc as [->|Hc]; [repeat split; discriminate|].
    unfold is_digit in Hc. apply andb_true_iff in Hc as [H1 H2].
    apply Z.leb_le in H1, H2. lia. }
  destruct Hn as (H1 & H2 & H3).
  replace (c =? 34) with false by (symmetry; apply Z.eqb_neq; lia).
  replace (c =? 123) with false by (symmetry; apply Z.eqb_neq; lia).
  replace (c =? 91) with false by (symmetry; apply Z.eqb_neq; lia).
  reflexivity.
Qed.

Lemma reread_number_text (num : number) (m : number_match) (text : str) :
  _canonicalize_number num = Ok text -> number_text m text ->
  reread_number num = number_of_match m.
Proof.
  intros H Ht. unfold reread_number. rewrite H. unfold Ok.
  pose proof (match_number_text m text [] Ht I) as E.
  rewrite app_nil_r in E. now rewrite E.
Qed.

Lemma scan_once_canonical_number (hook : list (str * value) -> value)
    (fuel : nat) (num : number) (text rest : str) :
  _canonicalize_number num = Ok text -> value_follow rest ->
  scan_once hook (S fuel) (text ++ rest) = Ok (reread_number num, rest).
Proof.
  intros H Hr.
  destruct (canonicalize_number_text num text H) as (m & Hm).
  rewrite (reread_number_text num m text H Hm).
  apply scan_once_number; [assumption|].
  now apply value_follow_facts.
Qed.

(** The first character of the text of a value. *)
Lemma canonical_text_start (nfc : str -> str) (v : value) (s : str) :
  _canonicalize_value nfc v = Ok s ->
  exists c s', s = c :: s' /\ value_start c.
Proof.
  unfold value_start.
  destruct v as [ |b|n|f|s0|arr|obj| ]; intro H.
  - injection H as <-. exists 110, (lit "ull"). split; [reflexivity|tauto].
  - injection H as <-. destruct b.
    + exists 116, (lit "rue"). split; [reflexivity|tauto].
    + exists 102, (lit "alse"). split; [reflexivity|tauto].
  - cbn [_canonicalize_value] in H.
    destruct (canonicalize_number_text _ _ H) as (m & Hm).
    destruct (number_text_start m s Hm) as (c & tl & -> & Hc).
    exists c, tl. split; [reflexivity|tauto].
  - cbn [_canonicalize_value] in H.
    destruct (canonicalize_number_text _ _ H) as (m & Hm).
    destruct (number_text_start m s Hm) as (c & tl & -> & Hc).
    exists c, tl. split; [reflexivity|tauto].
  - injection H as <-. eexists. eexists. split; [reflexivity|tauto].
  - cbn [_canonicalize_value] in H.
    apply bind_inv in H as (elements & _ & H). injection H as <-.
    eexists. eexists. split; [reflexivity|tauto].
  - rewrite _canonicalize_value_dict in H.
    unfold _canonicalize_object, canonicalize_object_with in H.
    apply bind_inv in H as (pairs & _ & H). injection H as <-.
    eexists. eexists. split; [reflexivity|tauto].
  - discriminate.
Qed.

(** The loop of [JSONArray] on the texts of the elements of an array. *)
Lemma array_elements_canonical (scan : str -> result (value * str))
    (canon : value -> result str) (image : value -> value) (rest : str) :
  forall (arr : list value) (elements : list str) (fuel : nat),
    Forall2 (fun v t =>
               canon v = Ok t
               /\ (exists c t', t = c :: t' /\ value_start c)
               /\ (forall rest', value_follow rest' ->
                     scan (t ++ rest') = Ok (image v, rest')))
            arr elements ->
    arr <> [] -> (List.length arr <= fuel)%nat ->
    array_elements scan fuel (join [44] elements ++ 93 :: rest)
    = Ok (map image arr, rest).
Proof.
  intros arr elements fuel H.
  revert fuel. induction H as [|v t arr elements (Hv & Hstart & Hscan) Hrest IH];
    intros fuel Hne Hlen; [contradiction|].
  destruct fuel as [|fuel]; [simpl in Hlen; lia|].
  rewrite array_elements_unfold.
  destruct Hrest as [|v2 t2 arr' elements' Hv2 Hrest'].
  - cbn [join]. rewrite Hscan by (simpl; tauto).
    rewrite bind_Ok. cbn [fst snd skip_ws is_ws Z.eqb Pos.eqb orb].
    reflexivity.
  - assert (Hskip : skip_ws (join [44] (t2 :: elements') ++ 93 :: rest)
                    = join [44] (t2 :: elements') ++ 93 :: rest).
    { destruct Hv2 as (_ & (c & t' & -> & Hc) & _).
      destruct elements'; cbn [join app]; now apply skip_ws_start. }
    specialize (IH fuel ltac:(discriminate) ltac:(simpl in *; lia)).
    change (join [44] (t :: t2 :: elements'))
      with (t ++ [44] ++ join [44] (t2 :: elements')).
    remember (join [44] (t2 :: elements')) as J eqn:EJ. clear EJ.
    rewrite <- !app_assoc. cbn [app].
    rewrite Hscan by (simpl; tauto).
    rewrite bind_Ok. cbn [fst snd skip_ws is_ws Z.eqb Pos.eqb orb].
    rewrite Hskip, IH. reflexivity.
Qed.

(** The loop of [JSONObject] on the texts of the members of an object. *)
Lemma object_members_canonical (nfc : str -> str)
    (scan : str -> result (value * str))
    (tree_of : str -> value) (rest : str) :
  forall (keys : list str) (pairs : list str) (fuel : nat) (text : str),
    Forall2 (fun key pair =>
               exists t,
                 pair = _canonicalize_string nfc key ++ [58] ++ t
                 /\ (exists c t', t = c :: t' /\ value_start c)
                 /\ (forall rest', value_follow rest' ->
                       scan (t ++ rest') = Ok (tree_of key, rest')))
            keys pairs ->
    keys <> [] -> (List.length keys <= fuel)%nat ->
    join [44] pairs ++ 125 :: rest = 34 :: text ->
    object_members scan fuel text
    = Ok (map (fun key => (reread_string nfc key, tree_of key)) keys, rest).
Proof.
  intros keys pairs fuel text H.
  revert fuel text.
  induction H as [|key pair keys pairs (t & -> & Hstart & Hscan) Hrest IH];
    intros fuel text Hne Hlen Htext; [contradiction|].
  destruct fuel as [|fuel]; [simpl in Hlen; lia|].
  rewrite object_members_unfold.
  destruct Hstart as (c & t' & Et & Hc).
  assert (Hskip : forall tail, skip_ws (t ++ tail) = t ++ tail).
  { intro tail. rewrite Et. cbn [app]. now apply skip_ws_start. }
  destruct Hrest as [|key2 pair2 keys' pairs' Hk2 Hrest'].
  - cbn [join] in Htext. unfold _canonicalize_string in Htext.
    rewrite <- !app_assoc in Htext. cbn [app] in Htext.
    injection Htext as <-.
    rewrite scanstring_canonical, bind_Ok.
    cbn [fst snd skip_ws is_ws Z.eqb Pos.eqb orb].
    rewrite Hskip, Hscan by (simpl; tauto).
    rewrite bind_Ok. cbn [fst snd skip_ws is_ws Z.eqb Pos.eqb orb].
    reflexivity.
  - assert (Hnext : exists text2,
               join [44] (pair2 :: pairs') ++ 125 :: rest = 34 :: text2).
    { destruct Hk2 as (t2 & -> & _).
      unfold _canonicalize_string.
      destruct pairs'; cbn [join app]; eexists; reflexivity. }
    destruct Hnext as (text2 & Hnext).
    specialize (IH fuel text2 ltac:(discriminate) ltac:(simpl in *; lia) Hnext).
    change (join [44] ((_canonicalize_string nfc key ++ [58] ++ t)
                         :: pair2 :: pairs'))
      with ((_canonicalize_string nfc key ++ [58] ++ t) ++ [44]
            ++ join [44] (pair2 :: pairs')) in Htext.
    remember (join [44] (pair2 :: pairs')) as J eqn:EJ. clear EJ.
    unfold _canonicalize_string in Htext.
    rewrite <- !app_assoc in Htext. cbn [app] in Htext.
    injection Htext as <-.
    rewrite scanstring_canonical, bind_Ok.
    cbn [fst snd skip_ws is_ws Z.eqb Pos.eqb orb].
    rewrite Hskip, Hscan by (simpl; tauto).
    rewrite bind_Ok. cbn [fst snd skip_ws is_ws Z.eqb Pos.eqb orb].
    rewrite Hnext. cbn [skip_ws is_ws Z.eqb Pos.eqb orb].
    rewrite IH. reflexivity.
Qed.

Lemma Forall2_map_left {A B C : Type} (R : B -> C -> Prop) (f : A -> B)
    (l : list A) (l' : list C) :
  Forall2 R (map f l) l' -> Forall2 (fun x y => R (f x) y) l l'.
Proof.
  revert l'; induction l as [|x l IH]; intros l' H; inversion H; subst;
    constructor; auto.
Qed.

Lemma Forall2_strengthen {A B : Type} (R R' : A -> B -> Prop) (l : list A)
    (l' : list B) :
  Forall2 R l l' -> (forall x y, In x l -> R x y -> R' x y) ->
  Forall2 R' l l'.
Proof.
  induction 1 as [|x y l l' Hxy H IH]; intro Himp; constructor.
  - apply Himp; [now left|assumption].
  - apply IH. intros x' y' Hin. apply Himp. now right.
Qed.

Lemma Forall2_length_eq {A B : Type} (R : A -> B -> Prop) (l : list A)
    (l' : list B) :
  Forall2 R l l' -> List.length l = List.length l'.
Proof. induction 1; simpl; congruence. Qed.

Lemma cost_element (arr : list value) (v : value) :
  In v arr -> (cost v <= fold_right (fun x m => Nat.max (cost x) m) O arr)%nat.
Proof.
  induction arr as [|x arr IH]; simpl; [contradiction|].
  intros [->|Hin]; [lia|]. specialize (IH Hin). lia.
Qed.

Lemma cost_member (obj : dict value) (k : str) (v : value) :
  In (k, v) obj ->
  (cost v <= fold_right (fun kv m => Nat.max (cost (snd kv)) m) O obj)%nat.
Proof.
  induction obj as [|x obj IH]; simpl; [contradiction|].
  intros [->|Hin]; [simpl; lia|]. specialize (IH Hin). lia.
Qed.

Lemma original_key_of_map {A B : Type} (nfc : str -> str) (f : A -> B)
    (obj : dict A) (key : str) :
  original_key_of nfc (map (fun kv => (fst kv, f (snd kv))) obj) key
  = original_key_of nfc obj key.
Proof. unfold original_key_of. now rewrite dict_keys_map. Qed.

(** The decoder that keeps the members of objects reads, from the text of a
    value followed by the end of the text, a comma or a closing bracket or
    brace, the image [reread] of the value and stops after the text. *)
Theorem scan_once_canonical (nfc : str -> str) (v : value) :
  forall s, _canonicalize_value nfc v = Ok s ->
  forall rest fuel, value_follow rest -> (cost v <= fuel)%nat ->
  scan_once VDict fuel (s ++ rest) = Ok (reread nfc v, rest).
Proof.
  induction v as [ |b|n|f|s0|arr IH|obj IH| ] using value_induction;
    intros s H rest fuel Hrest Hfuel;
    (destruct fuel as [|fuel]; [simpl in Hfuel; lia|]).
  - injection H as <-. reflexivity.
  - injection H as <-. destruct b; reflexivity.
  - cbn [_canonicalize_value] in H. cbn [reread].
    now apply scan_once_canonical_number.
  - cbn [_canonicalize_value] in H. cbn [reread].
    now apply scan_once_canonical_number.
  - injection H as <-. cbn [reread].
    rewrite scan_once_unfold. unfold _canonicalize_string.
    rewrite <- !app_assoc. cbn [app Z.eqb Pos.eqb].
    rewrite scanstring_canonical. reflexivity.
  - cbn [_canonicalize_value] in H.
    apply bind_inv in H as (elements & Hseq & H). injection H as <-.
    apply sequence_inv, Forall2_map_left in Hseq.
    cbn [reread]. rewrite scan_once_unfold.
    cbn [app]. rewrite <- !app_assoc. cbn [app Z.eqb Pos.eqb].
    destruct arr as [|v arr'].
    + inversion Hseq; subst. reflexivity.
    + cbn [cost] in Hfuel.
      assert (Hloop : array_elements (scan_once VDict fuel) fuel
                        (join [44] elements ++ 93 :: rest)
                      = Ok (map (reread nfc) (v :: arr'), rest)).
      { apply (array_elements_canonical _ (_canonicalize_value nfc)).
        - eapply Forall2_strengthen; [exact Hseq|].
          intros x t Hin Hx. split; [exact Hx|]. split.
          + eapply canonical_text_start. exact Hx.
          + intros rest' Hr'. rewrite Forall_forall in IH.
            apply (IH x Hin t Hx rest' fuel Hr').
            pose proof (cost_element _ _ Hin). lia.
        - discriminate.
        - lia. }
      inversion Hseq as [|? t ? ts Hv Hts]; subst.
      destruct (canonical_text_start nfc v t Hv) as (c & t' & -> & Hc).
      match goal with |- context [skip_ws ?x] =>
        assert (Hhead : exists tl, x = c :: tl)
      end.
      { destruct ts; cbn [join app]; eexists; reflexivity. }
      destruct Hhead as (tl & Hhead). rewrite Hhead in Hloop |- *.
      rewrite (skip_ws_start c tl Hc).
      destruct (value_start_facts c Hc) as (_ & H93 & _).
      replace (c =? 93) with false by (symmetry; apply Z.eqb_neq; lia).
      rewrite Hloop. reflexivity.
  - rewrite _canonicalize_value_dict in H.
    unfold _canonicalize_object, canonicalize_object_with in H.
    apply bind_inv in H as (pairs & Hseq & H). injection H as <-.
    apply sequence_inv, Forall2_map_left in Hseq.
    cbn [reread]. unfold reread_members.
    rewrite dict_keys_map.
    rewrite scan_once_unfold.
    cbn [app]. rewrite <- !app_assoc. cbn [app Z.eqb Pos.eqb].
    set (keys := sort_keys (map nfc (dict_keys obj))) in *.
    set (tree_of := fun key =>
           match dict_get (map (fun kv => (fst kv, reread nfc (snd kv))) obj)
                   (original_key_of nfc
                      (map (fun kv => (fst kv, reread nfc (snd kv))) obj) key)
           with
           | inr tree => tree
           | inl _ => VNone
           end).
    destruct keys as [|key keys'] eqn:Ekeys.
    + inversion Hseq; subst. reflexivity.
    + cbn [cost] in Hfuel.
      assert (Hlen : List.length (key :: keys') = List.length obj).
      { rewrite <- Ekeys. unfold keys.
        rewrite (Permutation_length (sort_keys_perm _)).
        unfold dict_keys. now rewrite !length_map. }
      assert (Hall : Forall2
                (fun key pair =>
                   exists t,
                     pair = _canonicalize_string nfc key ++ [58] ++ t
                     /\ (exists c t', t = c :: t' /\ value_start c)
                     /\ (forall rest', value_follow rest' ->
                           scan_once VDict fuel (t ++ rest')
                           = Ok (tree_of key, rest')))
                (key :: keys') pairs).
      { eapply Forall2_strengthen; [exact Hseq|].
        intros k pair Hin Hk. cbv beta in Hk.
        assert (Hin' : In k (sort_keys (map nfc (dict_keys obj)))).
        { fold keys. rewrite Ekeys. exact Hin. }
        destruct (sorted_key_lookup nfc obj k Hin') as (val & Hval & Hmem).
        rewrite Hval, bind_Ok in Hk.
        apply bind_inv in Hk as (t & Ht & Hk). injection Hk as <-.
        exists t. split; [reflexivity|]. split.
        - eapply canonical_text_start. exact Ht.
        - intros rest' Hr'.
          assert (Etree : tree_of k = reread nfc val).
          { unfold tree_of. rewrite original_key_of_map, dict_get_map, Hval.
            reflexivity. }
          rewrite Etree. rewrite Forall_forall in IH.
          apply (IH _ Hmem t Ht rest' fuel Hr').
          pose proof (cost_member _ _ _ Hmem). simpl. lia. }
      inversion Hall as [|? pair ? pairs' (t & Epair & _) Hps]; subst.
      match goal with |- context [skip_ws ?x] =>
        assert (Hhead : exists text, x = 34 :: text)
      end.
      { unfold _canonicalize_string.
        destruct pairs'; cbn [join app]; eexists; reflexivity. }
      destruct Hhead as (text & Hhead).
      pose proof (object_members_canonical nfc (scan_once VDict fuel) tree_of
                    rest _ _ fuel text Hall ltac:(discriminate) ltac:(lia)
                    Hhead) as Hloop.
      rewrite Hhead.
      cbn [skip_ws is_ws Z.eqb Pos.eqb orb].
      rewrite Hloop. reflexivity.
  - discriminate.
Qed.

(** ** UTF-8 *)


Lemma Ok_inj {A : Type} (a b : A) : Ok a = Ok b -> a = b.
Proof. intro H. now injection H. Qed.

(** The octets of one character are decoded to that character, or
    refused. *)
Lemma utf8_decode_encode_char (c : Z) (b rest : bytes) :
  utf8_encode_char c = Ok b ->
  utf8_decode (b ++ rest) = (s <- utf8_decode rest ;; Ok (c :: s))
  \/ utf8_decode (b ++ rest) = Raise UnicodeDecodeError.
Proof.
  unfold utf8_encode_char.
  pose proof (Z.div_mod c 64 ltac:(lia)) as E0.
  pose proof (Z.mod_pos_bound c 64 ltac:(lia)) as B0.
  pose proof (Z.div_mod (c / 64) 64 ltac:(lia)) as E1.
  pose proof (Z.mod_pos_bound (c / 64) 64 ltac:(lia)) as B1.
  pose proof (Z.div_mod (c / 64 / 64) 64 ltac:(lia)) as E2.
  pose proof (Z.mod_pos_bound (c / 64 / 64) 64 ltac:(lia)) as B2.
  replace (c / 4096) with (c / 64 / 64)
    by (rewrite Z.div_div by lia; reflexivity).
  replace (c / 262144) with (c / 64 / 64 / 64)
    by (rewrite !Z.div_div by lia; reflexivity).
  remember (c mod 64) as r0 eqn:Er0.
  remember (c / 64) as q0 eqn:Eq0.
  remember (q0 mod 64) as r1 eqn:Er1.
  remember (q0 / 64) as q1 eqn:Eq1.
  remember (q1 mod 64) as r2 eqn:Er2.
  remember (q1 / 64) as q2 eqn:Eq2.
  clear Er0 Eq0 Er1 Eq1 Er2 Eq2.
  destruct (Z.ltb_spec c 128) as [H1|H1].
  { intro H. apply Ok_inj in H. subst b. cbn [app utf8_decode].
    destruct (Z.leb_spec 0 c) as [H0|H0].
    - left. decide_conditions. reflexivity.
    - right. decide_conditions.
      destruct rest as [|b1 [|b2 [|b3 r3]]]; try reflexivity.
      unfold is_cont. decide_conditions. reflexivity. }
  destruct (Z.ltb_spec c 2048) as [H2|H2].
  { intro H. apply Ok_inj in H. subst b. left. cbn [app utf8_decode]. unfold is_cont.
    decide_conditions.
    replace ((192 + q0 - 192) * 64 + (128 + r0 - 128)) with c by lia.
    reflexivity. }
  destruct ((55296 <=? c) && (c <? 57344)) eqn:Hs; [discriminate|].
  destruct (Z.ltb_spec c 65536) as [H3|H3].
  { intro H. apply Ok_inj in H. subst b. left. cbn [app utf8_decode]. unfold is_cont.
    replace ((224 + q1 - 224) * 4096 + (128 + r1 - 128) * 64 + (128 + r0 - 128))
      with c by lia.
    rewrite Hs.
    decide_conditions. reflexivity. }
  intro H. apply Ok_inj in H. subst b. cbn [app utf8_decode]. unfold is_cont.
  replace ((240 + q2 - 240) * 262144 + (128 + r2 - 128) * 4096
           + (128 + r1 - 128) * 64 + (128 + r0 - 128)) with c by lia.
  destruct (Z.ltb_spec c 1114112) as [H4|H4].
  - left. decide_conditions. reflexivity.
  - right. decide_conditions. reflexivity.
Qed.

(** A text that is decoded from the encoding of a string is that string. *)
Lemma utf8_decode_encode (s : str) :
  forall raw text,
    utf8_encode s = Ok raw -> utf8_decode raw = Ok text -> text = s.
Proof.
  induction s as [|c s IH]; intros raw text He Hd.
  - injection He as <-. injection Hd as <-. reflexivity.
  - cbn [utf8_encode] in He.
    apply bind_inv in He as (b & Hb & He).
    apply bind_inv in He as (bs & Hbs & He). injection He as <-.
    destruct (utf8_decode_encode_char c b bs Hb) as [E|E];
      rewrite E in Hd; [|discriminate].
    apply bind_inv in Hd as (text' & Ht & Hd). injection Hd as <-.
    f_equal. eapply IH; eassumption.
Qed.

(** ** Counting the members of objects *)

Lemma list_sum_le {A : Type} (f g : A -> nat) (l : list A) :
  Forall (fun x => (f x <= g x)%nat) l ->
  (list_sum (map f l) <= list_sum (map g l))%nat.
Proof. induction 1; simpl; lia. Qed.

Lemma list_sum_eq {A : Type} (f g : A -> nat) (l : list A) :
  Forall (fun x => (f x <= g x)%nat) l ->
  list_sum (map f l) = list_sum (map g l) ->
  Forall (fun x => f x = g x) l.
Proof.
  induction 1 as [|x l Hx Hl IH]; simpl; intro E; constructor.
  - pose proof (list_sum_le f g l Hl). lia.
  - apply IH. pose proof (list_sum_le f g l Hl). lia.
Qed.

Lemma list_sum_ext {A : Type} (f g : A -> nat) (l : list A) :
  Forall (fun x => f x = g x) l -> list_sum (map f l) = list_sum (map g l).
Proof. induction 1; simpl; lia. Qed.

Lemma list_sum_perm (l l' : list nat) :
  Permutation l l' -> list_sum l = list_sum l'.
Proof. induction 1; simpl; lia. Qed.

Lemma distinct_upto_zero (v : value) : distinct_upto 0 v.
Proof. destruct v; exact I. Qed.

Lemma members_at_scalar (d : nat) (v : value) :
  is_scalar v -> members_at d v = O.
Proof. destruct d, v; simpl; intro H; try reflexivity; contradiction. Qed.

Lemma as_dicts_distinct (members : list (str * value)) :
  NoDup (map fst members) ->
  as_dicts (VDict members)
  = VDict (map (fun kv => (fst kv, as_dicts (snd kv))) members).
Proof.
  intro H. cbn [as_dicts]. rewrite dict_of_pairs_distinct; [reflexivity|].
  rewrite map_map. exact H.
Qed.

(** Turning the members into [dict]s does not add members at the first
    depth where a name is repeated, and removes some unless no name is
    repeated there. *)
Lemma members_at_as_dicts (d : nat) :
  forall tree,
    distinct_upto d tree ->
    (members_at d (as_dicts tree) <= members_at d tree)%nat
    /\ (members_at d (as_dicts tree) = members_at d tree ->
        distinct_upto (S d) tree).
Proof.
  induction d as [|d IH]; intros tree Hd.
  - destruct tree as [ |b|n|f|s|arr|members| ];
      try (split; [reflexivity|intros _; exact I]).
    + split; [reflexivity|]. intros _. cbn [distinct_upto].
      apply Forall_forall. intros x _. exact I.
    + cbn [as_dicts members_at].
      pose proof (dict_of_pairs_length
                    (map (fun kv => (fst kv, as_dicts (snd kv))) members)) as Hl.
      rewrite length_map in Hl. split; [exact Hl|].
      intro E. cbn [distinct_upto]. split.
      * assert (E' : List.length
                       (dict_of_pairs
                          (map (fun kv => (fst kv, as_dicts (snd kv))) members))
                     = List.length
                         (map (fun kv => (fst kv, as_dicts (snd kv))) members))
          by (rewrite length_map; exact E).
        apply dict_of_pairs_full in E'. rewrite map_map in E'. exact E'.
      * apply Forall_forall. intros x _. exact I.
  - destruct tree as [ |b|n|f|s|arr|members| ];
      try (split; [reflexivity|intros _; exact I]).
    + cbn [distinct_upto] in Hd. cbn [as_dicts members_at].
      rewrite map_map.
      assert (Hle : Forall (fun x => (members_at d (as_dicts x)
                                      <= members_at d x)%nat) arr).
      { rewrite Forall_forall in *. intros x Hx. now apply IH, Hd. }
      split; [now apply list_sum_le|].
      intro E. apply list_sum_eq in E; [|exact Hle].
      cbn [distinct_upto].
      rewrite Forall_forall in *. intros x Hx.
      apply (IH x (Hd x Hx)). now apply E.
    + cbn [distinct_upto] in Hd. destruct Hd as [Hnd Hd].
      rewrite (as_dicts_distinct members Hnd). cbn [members_at].
      rewrite map_map. cbn [snd].
      assert (Hle : Forall (fun kv => (members_at d (as_dicts (snd kv))
                                       <= members_at d (snd kv))%nat) members).
      { rewrite Forall_forall in *. intros x Hx. now apply IH, Hd. }
      split; [now apply (list_sum_le _ _ members)|].
      intro E. apply list_sum_eq in E; [|exact Hle].
      cbn [distinct_upto]. split; [exact Hnd|].
      rewrite Forall_forall in *. intros x Hx.
      apply (IH (snd x) (Hd x Hx)). now apply E.
Qed.

Lemma wf_value_list (arr : list value) :
  wf_value (VList arr) <-> Forall wf_value arr.
Proof.
  induction arr as [|x arr IH]; simpl.
  - split; auto.
  - split.
    + intros [Hx Ha]. constructor; [assumption|]. now apply IH.
    + intro H. inversion H; subst. split; [assumption|]. now apply IH.
Qed.

Lemma wf_value_dict (obj : dict value) :
  wf_value (VDict obj)
  <-> NoDup (map fst obj) /\ Forall (fun kv => wf_value (snd kv)) obj.
Proof.
  assert (E : forall l : list (str * value),
             (fix all (l : list (str * value)) : Prop :=
                match l with
                | [] => True
                | kv :: tl => wf_value (snd kv) /\ all tl
                end) l <-> Forall (fun kv => wf_value (snd kv)) l).
  { induction l as [|x l IH].
    - split; auto.
    - split.
      + intros [Hx Ha]. constructor; [assumption|]. now apply IH.
      + intro H. inversion H; subst. split; [assumption|]. now apply IH. }
  cbn [wf_value]. rewrite E. reflexivity.
Qed.

Lemma reread_number_scalar (num : number) :
  is_scalar (reread_number num).
Proof.
  unfold reread_number.
  destruct (_canonicalize_number num) as [e|text]; [exact I|].
  destruct (match_number text) as [[m rest]|]; [|exact I].
  apply number_of_match_scalar.
Qed.

Lemma NoDup_map_injective {A B : Type} (f : A -> B) (l : list A) (x y : A) :
  NoDup (map f l) -> In x l -> In y l -> f x = f y -> x = y.
Proof.
  induction l as [|a l IH]; simpl; [contradiction|].
  intros Hnd Hx Hy E. inversion Hnd as [|? ? Hni Hnd']; subst.
  destruct Hx as [->|Hx]; destruct Hy as [->|Hy]; auto.
  - exfalso. apply Hni. rewrite E. now apply in_map.
  - exfalso. apply Hni. rewrite <- E. now apply in_map.
Qed.

Lemma dict_get_distinct {A : Type} (obj : dict A) (k : str) (v : A) :
  NoDup (dict_keys obj) -> In (k, v) obj -> dict_get obj k = Ok v.
Proof.
  induction obj as [|[k' v'] obj IH]; simpl; [contradiction|].
  intros Hnd [H|Hin].
  - injection H as -> ->. now rewrite str_eqb_refl.
  - inversion Hnd as [|? ? Hni Hnd']; subst.
    destruct (str_eqb k' k) eqn:E; [|now apply IH].
    apply str_eqb_eq in E. subst k'. exfalso. apply Hni.
    unfold dict_keys. change k with (fst (k, v)). now apply in_map.
Qed.

(** Without two keys of one normal form, the key found for the normal form
    of a key is that key. *)
Lemma original_key_of_own (nfc : str -> str) {A : Type} (obj : dict A) (k : str) :
  NoDup (map nfc (dict_keys obj)) -> In k (dict_keys obj) ->
  original_key_of nfc obj (nfc k) = k.
Proof.
  intros Hnd Hin.
  destruct (original_key_found nfc obj (nfc k) (in_map nfc _ _ Hin))
    as [Hin' E].
  eapply NoDup_map_injective; eassumption.
Qed.


Lemma written_values_sum (nfc : str -> str) (obj : dict value)
    (h : value -> nat) :
  NoDup (dict_keys obj) -> NoDup (map nfc (dict_keys obj)) ->
  list_sum (map (fun key => h (written_value nfc obj key))
                (sort_keys (map nfc (dict_keys obj))))
  = list_sum (map (fun kv => h (snd kv)) obj).
Proof.
  intros Hnd Hnfc.
  rewrite (list_sum_perm _ _
             (Permutation_map _ (sort_keys_perm (map nfc (dict_keys obj))))).
  unfold dict_keys at 1. rewrite !map_map.
  apply list_sum_ext. apply Forall_forall. intros [k v] Hin.
  cbn [fst snd]. unfold written_value.
  assert (Hk : In k (dict_keys obj)).
  { unfold dict_keys. change k with (fst (k, v)). now apply in_map. }
  rewrite (original_key_of_own nfc obj k Hnfc Hk).
  now rewrite (dict_get_distinct obj k v Hnd Hin).
Qed.

Lemma reread_dict (nfc : str -> str) (obj : dict value) :
  reread nfc (VDict obj)
  = VDict (map (fun key => (reread_string nfc key,
                            match dict_get obj (original_key_of nfc obj key) with
                            | inr v => reread nfc v
                            | inl _ => VNone
                            end))
               (sort_keys (map nfc (dict_keys obj)))).
Proof.
  cbn [reread]. unfold reread_members. rewrite dict_keys_map.
  f_equal. apply map_ext. intro key.
  rewrite original_key_of_map, dict_get_map.
  destruct (dict_get obj _); reflexivity.
Qed.

(** When the image of a value has no repeated name above a depth, it has as
    many members at that depth as the value. *)
Lemma members_at_reread (nfc : str -> str) (d : nat) :
  forall v,
    wf_value v -> distinct_upto d (reread nfc v) ->
    members_at d (reread nfc v) = members_at d v.
Proof.
  induction d as [|d IH]; intros v Hwf Hd.
  - destruct v as [ |b|n|f|s|arr|obj| ]; try reflexivity.
    + apply members_at_scalar, reread_number_scalar.
    + apply members_at_scalar, reread_number_scalar.
    + rewrite reread_dict. cbn [members_at].
      rewrite length_map, (Permutation_length (sort_keys_perm _)).
      unfold dict_keys. now rewrite !length_map.
  - destruct v as [ |b|n|f|s|arr|obj| ]; try reflexivity.
    + apply members_at_scalar, reread_number_scalar.
    + apply members_at_scalar, reread_number_scalar.
    + apply wf_value_list in Hwf.
      cbn [reread distinct_upto] in Hd. cbn [reread members_at].
      rewrite map_map. apply list_sum_ext.
      rewrite Forall_forall in *. intros x Hx. apply IH; [now apply Hwf|].
      apply Hd. now apply in_map.
    + apply wf_value_dict in Hwf as [Hnd Hwf].
      rewrite reread_dict in *. cbn [distinct_upto] in Hd.
      destruct Hd as [Hnames Hd]. cbn [members_at].
      rewrite map_map in Hnames. cbn [fst] in Hnames.
      apply NoDup_map_inv in Hnames.
      assert (Hnfc : NoDup (map nfc (dict_keys obj))).
      { eapply Permutation_NoDup; [apply sort_keys_perm|exact Hnames]. }
      rewrite map_map. cbn [snd].
      rewrite <- (written_values_sum nfc obj (members_at d) Hnd Hnfc).
      apply list_sum_ext. apply Forall_forall. intros key Hkey.
      unfold written_value.
      destruct (sorted_key_lookup nfc obj key Hkey) as (v & Hv & Hin).
      rewrite Hv. apply IH.
      * rewrite Forall_forall in Hwf. apply (Hwf _ Hin).
      * rewrite Forall_forall in Hd.
        specialize (Hd _ (in_map _ _ _ Hkey)). cbn [snd] in Hd.
        rewrite Hv in Hd. exact Hd.
Qed.

(** ** [json.loads] returns well-formed values *)

Lemma dict_set_in {A : Type} (d : dict A) (k : str) (v : A) (kv : str * A) :
  In kv (dict_set d k v) -> In kv d \/ snd kv = v.
Proof.
  induction d as [|[k' v'] d IH]; simpl.
  - intros [<-|[]]. now right.
  - destruct (str_eqb k' k); simpl.
    + intros [<-|H]; [now right|left; now right].
    + intros [<-|H]; [left; now left|].
      destruct (IH H); [left; now right|now right].
Qed.

Lemma dict_of_pairs_values {A : Type} (P : A -> Prop) (ps : list (str * A)) :
  Forall (fun kv => P (snd kv)) ps ->
  Forall (fun kv => P (snd kv)) (dict_of_pairs ps).
Proof.
  unfold dict_of_pairs.
  assert (G : forall d : dict A,
             Forall (fun kv => P (snd kv)) ps ->
             Forall (fun kv => P (snd kv)) d ->
             Forall (fun kv => P (snd kv)) (fold_left dict_step ps d)).
  { induction ps as [|[k v] ps IH]; intros d Hps Hd; simpl; [assumption|].
    inversion Hps; subst. apply IH; [assumption|].
    change (dict_step d (k, v)) with (dict_set d k v).
    apply Forall_forall. intros kv Hin.
    destruct (dict_set_in _ _ _ _ Hin) as [H|H].
    - rewrite Forall_forall in Hd. now apply Hd.
    - rewrite H. assumption. }
  intro H. apply G; [assumption|constructor].
Qed.

Lemma as_dicts_wf (tree : value) : wf_value (as_dicts tree).
Proof.
  induction tree as [ |b|n|f|s|arr IH|members IH| ] using value_induction;
    try exact I.
  - cbn [as_dicts]. apply wf_value_list. now apply Forall_map.
  - cbn [as_dicts]. apply wf_value_dict. split.
    + apply dict_of_pairs_keys_nodup.
    + apply dict_of_pairs_values. apply Forall_map. exact IH.
Qed.

Lemma distinct_at_every_depth (v : value) :
  (forall d, distinct_upto d v) -> wf_value v.
Proof.
  induction v as [ |b|n|f|s|arr IH|obj IH| ] using value_induction;
    intro H; try exact I.
  - apply wf_value_list. rewrite Forall_forall in *. intros x Hx.
    apply IH; [assumption|]. intro d. specialize (H (S d)).
    cbn [distinct_upto] in H. rewrite Forall_forall in H. now apply H.
  - apply wf_value_dict. split.
    + specialize (H 1%nat). cbn [distinct_upto] in H. tauto.
    + rewrite Forall_forall in *. intros x Hx.
      apply IH; [assumption|]. intro d. specialize (H (S d)).
      cbn [distinct_upto] in H. destruct H as [_ H].
      rewrite Forall_forall in H. now apply H.
Qed.

(** A text of members that is the canonical text of its own [dict]s has no
    object with two members of one name. *)
Lemma fixed_by_reread_wf (nfc : str -> str) (tree : value) :
  reread nfc (as_dicts tree) = tree -> wf_value tree.
Proof.
  intro E. apply distinct_at_every_depth.
  induction d as [|d IH]; [apply distinct_upto_zero|].
  apply (members_at_as_dicts d tree IH).
  rewrite <- E at 2.
  symmetry. apply members_at_reread; [apply as_dicts_wf|].
  rewrite E. exact IH.
Qed.

(** ** The fuel of the decoder is never exhausted *)

Lemma skip_ws_length (s : str) : (List.length (skip_ws s) <= List.length s)%nat.
Proof.
  induction s as [|c s IH]; simpl; [lia|].
  destruct (is_ws c); simpl; lia.
Qed.

Lemma decode_uXXXX_raise (h1 h2 h3 h4 : Z) (e : exn) :
  decode_uXXXX h1 h2 h3 h4 = Raise e -> e = JSONDecodeError.
Proof.
  unfold decode_uXXXX.
  destruct (hex_value h1), (hex_value h2), (hex_value h3), (hex_value h4);
    intro H; try discriminate; now injection H.
Qed.

(** [scanstring] consumes at least the closing quote, and raises nothing but
    [JSONDecodeError]. *)
Lemma scanstring_progress (n : nat) :
  forall s, (List.length s <= n)%nat ->
  match scanstring s with
  | inr r => (List.length (snd r) < List.length s)%nat
  | inl e => e = JSONDecodeError
  end.
Proof.
  induction n as [|n IH]; intros s Hn.
  - destruct s; [reflexivity|simpl in Hn; lia].
  - assert (Hrec : forall (tl : str) (f : str * str -> str * str),
              (List.length tl < List.length s)%nat ->
              (forall r, snd (f r) = snd r) ->
              match (r <- scanstring tl ;; Ok (f r)) with
              | inr r => (List.length (snd r) < List.length s)%nat
              | inl e => e = JSONDecodeError
              end).
    { intros tl f Hlt Hf. specialize (IH tl ltac:(lia)).
      destruct (scanstring tl) as [e|r]; [exact IH|].
      rewrite bind_Ok. cbn [Ok]. rewrite Hf. lia. }
    destruct s as [|c tl]; [reflexivity|].
    cbn [scanstring].
    destruct (c =? 34); [simpl; lia|].
    destruct (c =? 92).
    + destruct tl as [|esc tl1]; [reflexivity|].
      destruct (esc =? 117).
      * destruct tl1 as [|h1 [|h2 [|h3 [|h4 tl5]]]]; try reflexivity.
        destruct (decode_uXXXX h1 h2 h3 h4) as [e|uni] eqn:Eu.
        { rewrite bind_Raise. eapply decode_uXXXX_raise. exact Eu. }
        rewrite bind_Ok.
        assert (Hsingle :
                  match (r <- scanstring tl5 ;; Ok (uni :: fst r, snd r)) with
                  | inr r => (List.length (snd r)
                              < List.length (c :: esc :: h1 :: h2 :: h3 :: h4 :: tl5))%nat
                  | inl e => e = JSONDecodeError
                  end).
        { apply (Hrec tl5 (fun r => (uni :: fst r, snd r)));
            [simpl; lia|reflexivity]. }
        destruct ((55296 <=? uni) && (uni <=? 56319)); [|exact Hsingle].
        destruct tl5 as [|b [|u tl7]]; try exact Hsingle.
        destruct ((b =? 92) && (u =? 117)); [|exact Hsingle].
        destruct tl7 as [|g1 [|g2 [|g3 [|g4 tl11]]]]; try reflexivity.
        destruct (decode_uXXXX g1 g2 g3 g4) as [e|uni2] eqn:Eu2.
        { rewrite bind_Raise. eapply decode_uXXXX_raise. exact Eu2. }
        rewrite bind_Ok.
        destruct ((56320 <=? uni2) && (uni2 <=? 57343)); [|exact Hsingle].
        apply (Hrec tl11 (fun r => (_ :: fst r, snd r)));
          [simpl; lia|reflexivity].
      * destruct (backslash esc) as [char|]; [|reflexivity].
        apply (Hrec tl1 (fun r => (char :: fst r, snd r)));
          [simpl; lia|reflexivity].
    + destruct (c <? 32); [reflexivity|].
      apply (Hrec tl (fun r => (c :: fst r, snd r))); [simpl; lia|reflexivity].
Qed.

Lemma strip_prefix_length (p s rest : str) :
  strip_prefix p s = Some rest ->
  (List.length rest + List.length p = List.length s)%nat.
Proof.
  revert s; induction p as [|a p IH]; intros s H.
  - injection H as <-. simpl. lia.
  - destruct s as [|c s]; [discriminate|]. simpl in H.
    destruct (a =? c); [|discriminate].
    specialize (IH _ H). simpl. lia.
Qed.

Lemma span_digits_length (s : str) :
  (List.length (snd (span_digits s)) <= List.length s)%nat.
Proof.
  induction s as [|c s IH]; simpl; [lia|].
  destruct (is_digit c); [|simpl; lia].
  destruct (span_digits s) as [ds rest]. simpl in *. lia.
Qed.

Lemma match_frac_length (s : str) :
  (List.length (snd (match_frac s)) <= List.length s)%nat.
Proof.
  unfold match_frac. destruct s as [|c tl]; [simpl; lia|].
  destruct (c =? 46); [|simpl; lia].
  pose proof (span_digits_length tl) as H.
  destruct (span_digits tl) as [[|d ds] rest]; simpl in *; lia.
Qed.

Lemma match_exp_length (s : str) :
  (List.length (snd (match_exp s)) <= List.length s)%nat.
Proof.
  unfold match_exp. destruct s as [|c tl]; [simpl; lia|].
  destruct ((c =? 101) || (c =? 69)); [|simpl; lia].
  destruct tl as [|sg tl''].
  - simpl. lia.
  - destruct (sg =? 45); [|destruct (sg =? 43)].
    + pose proof (span_digits_length tl'') as H.
      destruct (span_digits tl'') as [[|d ds] rest]; simpl in *; lia.
    + pose proof (span_digits_length tl'') as H.
      destruct (span_digits tl'') as [[|d ds] rest]; simpl in *; lia.
    + pose proof (span_digits_length (sg :: tl'')) as H.
      destruct (span_digits (sg :: tl'')) as [[|d ds] rest]; simpl in *; lia.
Qed.

Lemma match_number_length (s : str) (m : number_match) (rest : str) :
  match_number s = Some (m, rest) ->
  (List.length rest < List.length s)%nat.
Proof.
  unfold match_number.
  assert (Hs : (List.length (snd (match_sign s)) <= List.length s)%nat).
  { unfold match_sign. destruct s as [|c tl]; [simpl; lia|].
    destruct (c =? 45); simpl; lia. }
  destruct (match_sign s) as [neg s1]. cbn [snd] in Hs.
  assert (Hi : forall ds s2, match_integer s1 = Some (ds, s2) ->
                             (List.length s2 < List.length s1)%nat).
  { unfold match_integer. destruct s1 as [|c tl]; [discriminate|].
    intros ds s2. destruct (c =? 48).
    - intro H. injection H as _ <-. simpl. lia.
    - destruct (is_digit c); [|discriminate].
      pose proof (span_digits_length tl) as Hl.
      destruct (span_digits tl) as [ds' rest']. intro H.
      injection H as _ <-. simpl in *. lia. }
  destruct (match_integer s1) as [[ds s2]|]; [|discriminate].
  specialize (Hi ds s2 eq_refl).
  pose proof (match_frac_length s2) as Hf.
  destruct (match_frac s2) as [frac s3]. cbn [snd] in Hf.
  pose proof (match_exp_length s3) as He.
  destruct (match_exp s3) as [exp s4]. cbn [snd] in He.
  intro H. injection H as _ <-. lia.
Qed.

Lemma scan_scalar_progress (s : str) :
  match scan_scalar s with
  | inr r => (List.length (snd r) < List.length s)%nat
  | inl e => e = JSONDecodeError
  end.
Proof.
  unfold scan_scalar.
  destruct (strip_prefix (lit "null") s) eqn:E1;
    [apply strip_prefix_length in E1; simpl in *; lia|].
  destruct (strip_prefix (lit "true") s) eqn:E2;
    [apply strip_prefix_length in E2; simpl in *; lia|].
  destruct (strip_prefix (lit "false") s) eqn:E3;
    [apply strip_prefix_length in E3; simpl in *; lia|].
  destruct (match_number s) as [[m rest]|] eqn:Em.
  { apply match_number_length in Em. exact Em. }
  destruct (strip_prefix (lit "NaN") s) eqn:E4;
    [apply strip_prefix_length in E4; simpl in *; lia|].
  destruct (strip_prefix (lit "Infinity") s) eqn:E5;
    [apply strip_prefix_length in E5; simpl in *; lia|].
  destruct (strip_prefix (lit "-Infinity") s) eqn:E6;
    [apply strip_prefix_length in E6; simpl in *; lia|].
  reflexivity.
Qed.


Lemma array_elements_progress (scan : str -> result (value * str)) (n : nat) :
  scanner_progress scan n ->
  forall fuel s, (List.length s <= n)%nat -> (List.length s < fuel)%nat ->
  match array_elements scan fuel s with
  | inr r => (List.length (snd r) < List.length s)%nat
  | inl e => e = JSONDecodeError
  end.
Proof.
  intros Hscan fuel. induction fuel as [|fuel IH]; intros s Hn Hf; [lia|].
  rewrite array_elements_unfold.
  specialize (Hscan s Hn).
  destruct (scan s) as [e|[v rest]]; [exact Hscan|].
  rewrite bind_Ok. cbn [fst snd] in *.
  pose proof (skip_ws_length rest) as Hws.
  destruct (skip_ws rest) as [|c tl]; [reflexivity|].
  destruct (c =? 93); [simpl in *; lia|].
  destruct (c =? 44); [|reflexivity].
  pose proof (skip_ws_length tl) as Hws'.
  specialize (IH (skip_ws tl) ltac:(simpl in *; lia) ltac:(simpl in *; lia)).
  destruct (array_elements scan fuel (skip_ws tl)) as [e|[vs rest']];
    [exact IH|].
  rewrite bind_Ok. simpl in *. lia.
Qed.

Lemma object_members_progress (scan : str -> result (value * str)) (n : nat) :
  scanner_progress scan n ->
  forall fuel s, (List.length s <= n)%nat -> (List.length s < fuel)%nat ->
  match object_members scan fuel s with
  | inr r => (List.length (snd r) < List.length s)%nat
  | inl e => e = JSONDecodeError
  end.
Proof.
  intros Hscan fuel. induction fuel as [|fuel IH]; intros s Hn Hf; [lia|].
  rewrite object_members_unfold.
  pose proof (scanstring_progress _ s (le_n _)) as Hk.
  destruct (scanstring s) as [e|[k rest]]; [exact Hk|].
  rewrite bind_Ok. cbn [fst snd] in *.
  pose proof (skip_ws_length rest) as Hws.
  destruct (skip_ws rest) as [|c tl]; [reflexivity|].
  destruct (c =? 58); [|reflexivity].
  pose proof (skip_ws_length tl) as Hws1.
  specialize (Hscan (skip_ws tl) ltac:(simpl in *; lia)).
  destruct (scan (skip_ws tl)) as [e|[v rest1]]; [exact Hscan|].
  rewrite bind_Ok. cbn [fst snd] in *.
  pose proof (skip_ws_length rest1) as Hws2.
  destruct (skip_ws rest1) as [|c' tl']; [reflexivity|].
  destruct (c' =? 125); [simpl in *; lia|].
  destruct (c' =? 44); [|reflexivity].
  pose proof (skip_ws_length tl') as Hws3.
  destruct (skip_ws tl') as [|q tl'']; [reflexivity|].
  destruct (q =? 34); [|reflexivity].
  specialize (IH tl'' ltac:(simpl in *; lia) ltac:(simpl in *; lia)).
  destruct (object_members scan fuel tl'') as [e|[ms rest']]; [exact IH|].
  rewrite bind_Ok. simpl in *. lia.
Qed.

Lemma scan_once_progress (hook : list (str * value) -> value) (fuel : nat) :
  forall s, (List.length s < fuel)%nat ->
  match scan_once hook fuel s with
  | inr r => (List.length (snd r) < List.length s)%nat
  | inl e => e = JSONDecodeError
  end.
Proof.
  induction fuel as [|fuel IH]; intros s Hf; [lia|].
  rewrite scan_once_unfold.
  destruct s as [|nextchar tl]; [reflexivity|].
  assert (Hscan : scanner_progress (scan_once hook fuel) (List.length tl)).
  { intros s' Hs'. apply IH. simpl in Hf. lia. }
  destruct (nextchar =? 34).
  { pose proof (scanstring_progress _ tl (le_n _)) as Hk.
    destruct (scanstring tl) as [e|r]; [exact Hk|].
    rewrite bind_Ok. simpl in *. lia. }
  destruct (nextchar =? 123).
  { pose proof (skip_ws_length tl) as Hws.
    destruct (skip_ws tl) as [|c tl']; [reflexivity|].
    destruct (c =? 125); [simpl in *; lia|].
    destruct (c =? 34); [|reflexivity].
    pose proof (object_members_progress _ _ Hscan fuel tl'
                  ltac:(simpl in *; lia) ltac:(simpl in *; lia)) as Hm.
    destruct (object_members _ fuel tl') as [e|r]; [exact Hm|].
    rewrite bind_Ok. simpl in *. lia. }
  destruct (nextchar =? 91).
  { pose proof (skip_ws_length tl) as Hws.
    destruct (skip_ws tl) as [|c tl']; [reflexivity|].
    destruct (c =? 93); [simpl in *; lia|].
    pose proof (array_elements_progress _ _ Hscan fuel (c :: tl')
                  ltac:(simpl in *; lia) ltac:(simpl in *; lia)) as Hm.
    destruct (array_elements _ fuel (c :: tl')) as [e|r]; [exact Hm|].
    rewrite bind_Ok. simpl in *. lia. }
  apply scan_scalar_progress.
Qed.

(** [json.loads] raises nothing but [JSONDecodeError]: the fuel given to
    [scan_once], one more than the length of the text, is never
    exhausted. *)
Lemma decode_raise (hook : list (str * value) -> value) (s : str) (e : exn) :
  decode hook s = Raise e -> e = JSONDecodeError.
Proof.
  rewrite decode_unfold.
  pose proof (scan_once_progress hook (S (List.length s)) (skip_ws s)) as H.
  pose proof (skip_ws_length s) as Hws.
  specialize (H ltac:(lia)).
  destruct (scan_once hook _ _) as [e'|r].
  - intro E. injection E as <-. exact H.
  - rewrite bind_Ok. destruct (skip_ws (snd r)); [discriminate|].
    intro E. now injection E.
Qed.

Lemma utf8_decode_raise (b : bytes) (e : exn) :
  utf8_decode b = Raise e -> e = UnicodeDecodeError.
Proof.
  assert (G : forall n b, (List.length b <= n)%nat ->
                          utf8_decode b = Raise e -> e = UnicodeDecodeError).
  { clear b. induction n as [|n IH]; intros b Hn.
    - destruct b; [discriminate|simpl in Hn; lia].
    - assert (Hrec : forall (r : bytes) (c : Z),
                (List.length r <= n)%nat ->
                (s <- utf8_decode r ;; Ok (c :: s)) = Raise e ->
                e = UnicodeDecodeError).
      { intros r c Hr. specialize (IH r Hr).
        destruct (utf8_decode r); [exact IH|discriminate]. }
      destruct b as [|b0 r0]; [discriminate|]. cbn [utf8_decode].
      destruct ((0 <=? b0) && (b0 <? 128));
        [apply Hrec; simpl in Hn; lia|].
      destruct r0 as [|b1 r1]; [intro H; now injection H|].
      destruct ((192 <=? b0) && (b0 <? 224)).
      { destruct (is_cont b1 && _); [apply Hrec; simpl in Hn; lia|].
        intro H; now injection H. }
      destruct r1 as [|b2 r2]; [intro H; now injection H|].
      destruct ((224 <=? b0) && (b0 <? 240)).
      { destruct (is_cont b1 && _ && _ && _); [apply Hrec; simpl in Hn; lia|].
        intro H; now injection H. }
      destruct r2 as [|b3 r3]; [intro H; now injection H|].
      destruct (_ && _); [apply Hrec; simpl in Hn; lia|].
      intro H; now injection H. }
  apply (G (List.length b) b). lia.
Qed.

Lemma utf8_encode_raise (s : str) (e : exn) :
  utf8_encode s = Raise e -> e = UnicodeEncodeError.
Proof.
  induction s as [|c s IH]; [discriminate|].
  cbn [utf8_encode].
  destruct (utf8_encode_char c) as [e'|b] eqn:E.
  - intro H. injection H as <-. revert E. unfold utf8_encode_char.
    repeat break_match; intro E; try discriminate. now injection E.
  - rewrite bind_Ok. destruct (utf8_encode s) as [e'|bs]; [|discriminate].
    intro H. injection H as <-. now apply IH.
Qed.

(** The exceptions of [canonicalize]. *)
Lemma canonicalize_raise (nfc : str -> str) (v : value) (e : exn) :
  canonicalize nfc v = Raise e ->
  e = ValueError \/ e = TypeError \/ e = UnicodeEncodeError.
Proof.
  unfold canonicalize, canonicalize_to_string.
  destruct (_canonicalize_value nfc v) as [e'|s] eqn:E.
  - intro H. injection H as <-.
    destruct (canonicalize_value_raise nfc v e' E); auto.
  - rewrite bind_Ok. intro H. apply utf8_encode_raise in H. auto.
Qed.

(** The exceptions of [canonicalize_bytes]: each comes from one step, and
    none from the fuel of the decoder. *)
Lemma canonicalize_bytes_raise (nfc : str -> str) (raw : bytes) (e : exn) :
  canonicalize_bytes nfc raw = Raise e ->
  e = UnicodeDecodeError \/ e = JSONDecodeError \/ e = ValueError
  \/ e = TypeError \/ e = UnicodeEncodeError.
Proof.
  unfold canonicalize_bytes.
  destruct (utf8_decode raw) as [e'|text] eqn:Ed.
  - intro H. injection H as <-. left. eapply utf8_decode_raise. exact Ed.
  - rewrite bind_Ok. destruct (json_loads text) as [e'|v] eqn:El.
    + intro H. injection H as <-. right. left.
      eapply decode_raise. exact El.
    + rewrite bind_Ok. intro H.
      destruct (canonicalize_raise _ _ _ H) as [E|[E|E]]; auto.
Qed.

(** ** Texts with a repeated name *)


(** The canonical text of a value is read back as the image of the
    value. *)
Lemma json_loads_pairs_canonical (nfc : str -> str) (v : value) (s : str)
    (tree : value) :
  _canonicalize_value nfc v = Ok s -> json_loads_pairs s = Ok tree ->
  tree = reread nfc v.
Proof.
  intros Hs Hl.
  destruct (canonical_text_start nfc v s Hs) as (c & s' & Es & Hc).
  unfold json_loads_pairs in Hl. rewrite decode_unfold in Hl.
  apply bind_inv in Hl as ([t rest] & Hscan & Hl). cbn [fst snd] in Hl.
  destruct (skip_ws rest); [|discriminate]. injection Hl as <-.
  rewrite Es, (skip_ws_start c s' Hc), <- Es in Hscan.
  pose proof (scan_once_canonical nfc v s Hs [] (cost v) I (le_n _)) as Hc'.
  rewrite app_nil_r in Hc'.
  apply (scan_once_mono VDict _ (Nat.max (cost v) (S (List.length s))))
    in Hc'; [|lia].
  apply (scan_once_mono VDict _ (Nat.max (cost v) (S (List.length s))))
    in Hscan; [|lia].
  rewrite Hscan in Hc'. now injection Hc'.
Qed.

(** C10, as the code has it: a text that the decoder reads, with a name
    repeated in some object ([tree] is what the decoder reads when it keeps
    the members as they stand in the text, so names that are identical in the
    text are identical in [tree]), is read by [json.loads] without a
    [JSONDecodeError]: every object becomes a [dict] in which a name has the
    value of its last member, and [canonicalize_bytes] encodes that value.
    [validate_integrity] is false on every such text. *)
Theorem repeated_names_last_wins_never_canonical (nfc : str -> str)
    (raw : bytes) (text : str) (tree : value) :
  utf8_decode raw = Ok text ->
  json_loads_pairs text = Ok tree ->
  ~ wf_value tree ->
  json_loads text = Ok (as_dicts tree)
  /\ canonicalize_bytes nfc raw = canonicalize nfc (as_dicts tree)
  /\ canonicalize_bytes nfc raw <> Raise JSONDecodeError
  /\ (forall (members : list (str * value)) (k : str),
        dict_get (dict_of_pairs members) k = last_member members k)
  /\ validate_integrity nfc raw = false.
Proof.
  intros Hraw Htree Hdup.
  assert (Hloads : json_loads text = Ok (as_dicts tree)).
  { rewrite json_loads_as_dicts, Htree. reflexivity. }
  assert (Hbytes : canonicalize_bytes nfc raw
                   = canonicalize nfc (as_dicts tree)).
  { unfold canonicalize_bytes. rewrite Hraw, bind_Ok, Hloads. reflexivity. }
  split; [exact Hloads|]. split; [exact Hbytes|]. split.
  { rewrite Hbytes. intro H.
    destruct (canonicalize_raise _ _ _ H) as [E|[E|E]]; discriminate. }
  split; [intros members k; apply dict_of_pairs_last|].
  destruct (validate_integrity nfc raw) eqn:Hvalid; [|reflexivity].
  exfalso. apply Hdup.
  apply validate_integrity_true in Hvalid.
  rewrite Hbytes in Hvalid.
  unfold canonicalize, canonicalize_to_string in Hvalid.
  apply bind_inv in Hvalid as (s & Hs & Henc).
  assert (text = s) by (eapply utf8_decode_encode; eassumption). subst text.
  apply (fixed_by_reread_wf nfc). symmetry.
  eapply json_loads_pairs_canonical; eassumption.
Qed.

Lemma repeated_names_last_wins_never_canonical_witness :
  let raw := json_lit "{'a':1,'a':2}" in
  let tree := VDict [(lit "a", VInt 1); (lit "a", VInt 2)] in
  json_loads raw = Ok (as_dicts tree)
  /\ canonicalize_bytes nfc_e_acute raw
     = canonicalize nfc_e_acute (as_dicts tree)
  /\ canonicalize_bytes nfc_e_acute raw <> Raise JSONDecodeError
  /\ (forall (members : list (str * value)) (k : str),
        dict_get (dict_of_pairs members) k = last_member members k)
  /\ validate_integrity nfc_e_acute raw = false.
Proof.
  intros raw tree.
  apply (repeated_names_last_wins_never_canonical nfc_e_acute raw raw tree).
  - reflexivity.
  - reflexivity.
  - simpl. intros [H _]. inversion H as [|? ? Hni _]; subst.
    apply Hni. now left.
Defined.

(** C10, as the specification states it, fails: on texts with a repeated
    name, even with the same value twice, the validator returns false; the
    canonical bytes have the name once. *)
Lemma repeated_names_are_not_canonical :
  json_loads_pairs (json_lit "{'a':1,'a':1}")
  = Ok (VDict [(lit "a", VInt 1); (lit "a", VInt 1)])
  /\ canonicalize_bytes nfc_e_acute (json_lit "{'a':1,'a':1}")
     = Ok (json_lit "{'a':1}")
  /\ validate_integrity nfc_e_acute (json_lit "{'a':1,'a':1}") = false
  /\ canonicalize_bytes nfc_e_acute (json_lit "{'a':1,'a':2}")
     = Ok (json_lit "{'a':2}")
  /\ validate_integrity nfc_e_acute (json_lit "{'a':1,'a':2}") = false
  /\ canonicalize_bytes nfc_e_acute (json_lit "[{'b':{},'a':[1],'b':null}]")
     = Ok (json_lit "[{'a':[1],'b':null}]")
  /\ validate_integrity nfc_e_acute (json_lit "[{'b':{},'a':[1],'b':null}]")
     = false.
Proof. vm_compute. repeat split; reflexivity. Qed.

(** * Further properties of the codec *)

(** ** Values and the values nested in them *)

Lemma all_values_head (P : value -> Prop) (v : value) :
  all_values P v -> P v.
Proof. destruct v; cbn [all_values]; tauto. Qed.

Lemma all_values_list (P : value -> Prop) (arr : list value) :
  all_values P (VList arr)
  <-> P (VList arr) /\ Forall (all_values P) arr.
Proof.
  cbn [all_values].
  assert (E : forall l,
             (fix all (l : list value) : Prop :=
                match l with
                | [] => True
                | x :: tl => all_values P x /\ all tl
                end) l <-> Forall (all_values P) l).
  { induction l as [|x l IH]; split; intro H.
    - constructor.
    - exact I.
    - destruct H as [Hx Hl]. constructor; [exact Hx|now apply IH].
    - inversion H; subst. split; [assumption|now apply IH]. }
  rewrite E. tauto.
Qed.

Lemma all_values_dict (P : value -> Prop) (obj : dict value) :
  all_values P (VDict obj)
  <-> P (VDict obj) /\ Forall (fun kv => all_values P (snd kv)) obj.
Proof.
  cbn [all_values].
  assert (E : forall l,
             (fix all (l : list (str * value)) : Prop :=
                match l with
                | [] => True
                | kv :: tl => all_values P (snd kv) /\ all tl
                end) l <-> Forall (fun kv => all_values P (snd kv)) l).
  { induction l as [|x l IH]; split; intro H.
    - constructor.
    - exact I.
    - destruct H as [Hx Hl]. constructor; [exact Hx|now apply IH].
    - inversion H; subst. split; [assumption|now apply IH]. }
  rewrite E. tauto.
Qed.

(** ** Reading back a string and a number *)

Lemma scanstring_code_point (c : Z) (tail : str) :
  0 <= c ->
  scanstring (escape_char c ++ tail)
  = (r <- scanstring tail ;; Ok (c :: fst r, snd r)).
Proof.
  intro Hpos.
  destruct (Z_lt_le_dec c 32) as [Hlt|Hge].
  - rewrite <- (Z2Nat.id c Hpos). apply scanstring_control. lia.
  - destruct (Z.eq_dec c 34) as [->|H34]; [reflexivity|].
    destruct (Z.eq_dec c 92) as [->|H92]; [reflexivity|].
    rewrite escape_char_literal by assumption.
    now apply scanstring_cons.
Qed.

Lemma scanstring_code_points (x rest : str) :
  Forall (fun c => 0 <= c) x ->
  scanstring (flat_map escape_char x ++ 34 :: rest) = Ok (x, rest).
Proof.
  induction 1 as [|c x Hc _ IH].
  - reflexivity.
  - cbn [flat_map]. rewrite <- app_assoc, scanstring_code_point, IH by exact Hc.
    reflexivity.
Qed.

Lemma code_points_nonneg (s : str) :
  Forall code_point s -> Forall (fun c => 0 <= c) s.
Proof. apply Forall_impl. unfold code_point. intros c H. lia. Qed.

Lemma reread_string_code_points (nfc : str -> str) (s : str) :
  Forall code_point (nfc s) -> reread_string nfc s = nfc s.
Proof.
  intro H. unfold reread_string.
  rewrite scanstring_code_points by now apply code_points_nonneg.
  reflexivity.
Qed.

Lemma number_of_match_int (n : Z) :
  number_of_match {| nm_neg := n <? 0; nm_int := to_base 10 (Z.abs n);
                     nm_frac := None; nm_exp := None |} = VInt n.
Proof.
  unfold number_of_match. cbn [nm_frac nm_exp nm_neg nm_int].
  destruct (to_base_decimal (Z.abs n) (Z.abs_nonneg n)) as (ds & E & _ & _ & Hv & _).
  rewrite E, Hv. f_equal.
  destruct (Z.ltb_spec n 0); cbn [cond_Zopp]; lia.
Qed.

Lemma reread_number_int (num : number) (n : Z) :
  _canonicalize_number num = Ok (str_int n) -> reread_number num = VInt n.
Proof.
  intro H.
  rewrite (reread_number_text num _ _ H (str_int_number_text n)).
  apply number_of_match_int.
Qed.

Lemma canonicalize_number_written_as_int (f : float) :
  written_as_int f = true ->
  _canonicalize_number (NFloat f) = Ok (str_int (int_of_float f)).
Proof.
  unfold written_as_int, _canonicalize_number. intro H.
  apply andb_true_iff in H as [Hfin H].
  apply negb_true_iff in Hfin. rewrite Hfin.
  destruct (float_is_zero f) eqn:Hz.
  - destruct f; try discriminate. reflexivity.
  - cbn [orb] in H. rewrite H. reflexivity.
Qed.

(** The text of a number is read by [json.loads]. *)
Lemma json_loads_number (m : number_match) (text : str) :
  number_text m text -> json_loads text = Ok (number_of_match m).
Proof.
  intro Ht. unfold json_loads. rewrite decode_unfold.
  destruct (number_text_start m text Ht) as (c & tl & E & Hc).
  assert (Hs : skip_ws text = text).
  { rewrite E. apply skip_ws_start.
    unfold value_start. destruct Hc as [->|Hc]; tauto. }
  rewrite Hs.
  pose proof (scan_once_number (fun pairs => VDict (dict_of_pairs pairs))
                (List.length text) m text [] Ht I) as Hscan.
  rewrite app_nil_r in Hscan. rewrite Hscan. reflexivity.
Qed.

(** ** The decoder's answer does not depend on the fuel *)

(** More fuel changes nothing once the decoder has answered, with a value or
    with a [JSONDecodeError]. *)
Lemma array_elements_stable (scan scan' : str -> result (value * str)) :
  (forall s, scan s <> Raise RecursionError -> scan' s = scan s) ->
  forall fuel fuel' s,
    (fuel <= fuel')%nat ->
    array_elements scan fuel s <> Raise RecursionError ->
    array_elements scan' fuel' s = array_elements scan fuel s.
Proof.
  intros Hs fuel. induction fuel as [|fuel IH]; intros fuel' s Hle H.
  - now contradiction H.
  - destruct fuel' as [|fuel']; [lia|].
    rewrite !array_elements_unfold in *.
    destruct (scan s) as [e|[v rest]] eqn:E.
    + assert (Hne : e <> RecursionError) by (intros ->; now apply H).
      rewrite (Hs s), E by (rewrite E; intro X; now injection X).
      reflexivity.
    + rewrite (Hs s), E by (rewrite E; discriminate).
      rewrite !bind_Ok in *. cbn [fst snd] in *.
      destruct (skip_ws rest) as [|c tl]; [reflexivity|].
      destruct (c =? 93); [reflexivity|].
      destruct (c =? 44); [|reflexivity].
      rewrite (IH fuel' (skip_ws tl)); [reflexivity|lia|].
      intro E'. rewrite E' in H. now apply H.
Qed.

Lemma object_members_stable (scan scan' : str -> result (value * str)) :
  (forall s, scan s <> Raise RecursionError -> scan' s = scan s) ->
  forall fuel fuel' s,
    (fuel <= fuel')%nat ->
    object_members scan fuel s <> Raise RecursionError ->
    object_members scan' fuel' s = object_members scan fuel s.
Proof.
  intros Hs fuel. induction fuel as [|fuel IH]; intros fuel' s Hle H.
  - now contradiction H.
  - destruct fuel' as [|fuel']; [lia|].
    rewrite !object_members_unfold in *.
    destruct (scanstring s) as [e|[k rest]]; [reflexivity|].
    rewrite !bind_Ok in *. cbn [fst snd] in *.
    destruct (skip_ws rest) as [|c tl]; [reflexivity|].
    destruct (c =? 58); [|reflexivity].
    destruct (scan (skip_ws tl)) as [e|[v rest1]] eqn:E.
    + assert (Hne : e <> RecursionError) by (intros ->; now apply H).
      rewrite (Hs (skip_ws tl)), E by (rewrite E; intro X; now injection X).
      reflexivity.
    + rewrite (Hs (skip_ws tl)), E by (rewrite E; discriminate).
      rewrite !bind_Ok in *. cbn [fst snd] in *.
      destruct (skip_ws rest1) as [|c' tl']; [reflexivity|].
      destruct (c' =? 125); [reflexivity|].
      destruct (c' =? 44); [|reflexivity].
      destruct (skip_ws tl') as [|q tl'']; [reflexivity|].
      destruct (q =? 34); [|reflexivity].
      rewrite (IH fuel' tl''); [reflexivity|lia|].
      intro E'. rewrite E' in H. now apply H.
Qed.

Lemma scan_once_stable (hook : list (str * value) -> value) (fuel : nat) :
  forall fuel' s,
    (fuel <= fuel')%nat ->
    scan_once hook fuel s <> Raise RecursionError ->
    scan_once hook fuel' s = scan_once hook fuel s.
Proof.
  induction fuel as [|fuel IH]; intros fuel' s Hle H.
  - now contradiction H.
  - destruct fuel' as [|fuel']; [lia|].
    rewrite !scan_once_unfold in *.
    destruct s as [|nextchar tl]; [reflexivity|].
    destruct (nextchar =? 34); [reflexivity|].
    assert (Hscan : forall s, scan_once hook fuel s <> Raise RecursionError ->
                              scan_once hook fuel' s = scan_once hook fuel s).
    { intros s'. apply IH. lia. }
    destruct (nextchar =? 123).
    { destruct (skip_ws tl) as [|c tl']; [reflexivity|].
      destruct (c =? 125); [reflexivity|].
      destruct (c =? 34); [|reflexivity].
      rewrite (object_members_stable _ _ Hscan fuel fuel' tl');
        [reflexivity|lia|].
      intro E'. rewrite E' in H. now apply H. }
    destruct (nextchar =? 91).
    { destruct (skip_ws tl) as [|c tl']; [reflexivity|].
      destruct (c =? 93); [reflexivity|].
      rewrite (array_elements_stable _ _ Hscan fuel fuel' (c :: tl'));
        [reflexivity|lia|].
      intro E'. rewrite E' in H. now apply H. }
    reflexivity.
Qed.

(** The fuel [decode] gives [scan_once] is enough for every text. *)
Lemma scan_once_enough (hook : list (str * value) -> value) (s : str)
    (fuel : nat) :
  (List.length s < fuel)%nat ->
  forall fuel', (fuel <= fuel')%nat ->
  scan_once hook fuel' s = scan_once hook fuel s.
Proof.
  intros Hlen fuel' Hle. apply scan_once_stable; [exact Hle|].
  pose proof (scan_once_progress hook fuel s Hlen) as H.
  destruct (scan_once hook fuel s) as [e|r]; [|discriminate].
  subst e. discriminate.
Qed.

(** [json.loads] reads the canonical text of a value, whatever the
    value. *)
Lemma json_loads_pairs_read (nfc : str -> str) (v : value) (s : str) :
  _canonicalize_value nfc v = Ok s -> json_loads_pairs s = Ok (reread nfc v).
Proof.
  intro Hs.
  destruct (canonical_text_start nfc v s Hs) as (c & s' & Es & Hc).
  unfold json_loads_pairs. rewrite decode_unfold.
  rewrite Es, (skip_ws_start c s' Hc), <- Es.
  pose proof (scan_once_canonical nfc v s Hs []
                (Nat.max (cost v) (S (List.length s))) I ltac:(lia)) as Hc'.
  rewrite app_nil_r in Hc'.
  rewrite <- (scan_once_enough VDict s (S (List.length s)) ltac:(lia)
                (Nat.max (cost v) (S (List.length s))) ltac:(lia)).
  rewrite Hc'. reflexivity.
Qed.

Lemma json_loads_read (nfc : str -> str) (v : value) (s : str) :
  _canonicalize_value nfc v = Ok s ->
  json_loads s = Ok (as_dicts (reread nfc v)).
Proof.
  intro Hs. rewrite json_loads_as_dicts, (json_loads_pairs_read nfc v s Hs).
  reflexivity.
Qed.

(** ** Values that are read back as they are *)

Lemma sort_keys_sorted_id (l : list str) :
  StronglySorted utf16_le l -> sort_keys l = l.
Proof.
  induction 1 as [|k tl Hs IH Hk].
  - reflexivity.
  - change (sort_keys (k :: tl)) with (insert_key k (sort_keys tl)).
    rewrite IH. destruct tl as [|y tl]; [reflexivity|].
    cbn [insert_key]. inversion Hk as [|? ? Hy _]; subst.
    unfold utf16_le in Hy. now rewrite Hy.
Qed.

Lemma map_fixed {A : Type} (f : A -> A) (l : list A) :
  Forall (fun x => f x = x) l -> map f l = l.
Proof.
  induction 1 as [|x l Hx _ IH]; [reflexivity|].
  cbn [map]. now rewrite Hx, IH.
Qed.

Lemma map_on_keys {A : Type} (g : str -> str * A) (obj : dict A) :
  Forall (fun kv => g (fst kv) = kv) obj -> map g (dict_keys obj) = obj.
Proof.
  induction 1 as [|kv obj Hkv _ IH]; [reflexivity|].
  cbn [dict_keys map]. rewrite Hkv. f_equal. exact IH.
Qed.

Lemma original_key_of_fixed (nfc : str -> str) {A : Type} (obj : dict A)
    (k : str) :
  NoDup (dict_keys obj) -> Forall (fun k => nfc k = k) (dict_keys obj) ->
  In k (dict_keys obj) -> original_key_of nfc obj k = k.
Proof.
  intros Hnd Hfix Hin.
  pose proof (map_fixed nfc _ Hfix) as Em.
  rewrite Forall_forall in Hfix.
  rewrite <- (Hfix k Hin) at 1.
  apply original_key_of_own; [now rewrite Em|exact Hin].
Qed.

Lemma normal_dict_keys (nfc : str -> str) (obj : dict value) :
  normal_node nfc (VDict obj) ->
  NoDup (dict_keys obj)
  /\ Forall (fun k => nfc k = k) (dict_keys obj)
  /\ Forall (fun k => Forall code_point k) (dict_keys obj)
  /\ sort_keys (map nfc (dict_keys obj)) = dict_keys obj.
Proof.
  intros (Hs & Hnd & Hk).
  assert (Hfix : Forall (fun k => nfc k = k) (dict_keys obj)).
  { revert Hk. apply Forall_impl. tauto. }
  repeat split; try assumption.
  - revert Hk. apply Forall_impl. tauto.
  - rewrite (map_fixed nfc _ Hfix). now apply sort_keys_sorted_id.
Qed.

Lemma normal_reread (nfc : str -> str) (v : value) :
  normal nfc v -> reread nfc v = v.
Proof.
  induction v as [| | | | |arr IH|obj IH|] using value_induction;
    intro H; try reflexivity.
  - cbn [reread]. apply reread_number_int. reflexivity.
  - apply all_values_head in H. contradiction.
  - apply all_values_head in H. destruct H as [Hc Hf].
    cbn [reread]. rewrite reread_string_code_points, Hf by now rewrite Hf.
    reflexivity.
  - apply all_values_list in H as [_ H]. cbn [reread]. f_equal.
    rewrite <- (map_id arr) at 2. apply map_ext_in. intros x Hx.
    rewrite Forall_forall in IH, H. now apply IH; [|apply H].
  - apply all_values_dict in H as [Hn H]. rewrite reread_dict.
    destruct (normal_dict_keys nfc obj Hn) as (Hnd & Hfix & Hcp & Hsort).
    rewrite Hsort. f_equal. apply map_on_keys.
    rewrite Forall_forall in *. intros [k x] Hin. cbn [fst].
    assert (Hk : In k (dict_keys obj)).
    { apply in_map_iff. now exists (k, x). }
    rewrite reread_string_code_points, (Hfix k Hk)
      by (rewrite (Hfix k Hk); now apply Hcp).
    rewrite (original_key_of_fixed nfc obj k) by (try rewrite Forall_forall; assumption).
    rewrite (dict_get_distinct obj k x Hnd Hin). unfold Ok.
    f_equal. apply (IH (k, x) Hin). apply (H (k, x) Hin).
Qed.

Lemma normal_as_dicts (nfc : str -> str) (v : value) :
  normal nfc v -> as_dicts v = v.
Proof.
  induction v as [| | | | |arr IH|obj IH|] using value_induction;
    intro H; try reflexivity.
  - apply all_values_list in H as [_ H]. cbn [as_dicts]. f_equal.
    rewrite <- (map_id arr) at 2. apply map_ext_in. intros x Hx.
    rewrite Forall_forall in IH, H. now apply IH; [|apply H].
  - apply all_values_dict in H as [Hn H]. cbn [as_dicts].
    destruct (normal_dict_keys nfc obj Hn) as (Hnd & _).
    assert (E : map (fun kv => (fst kv, as_dicts (snd kv))) obj = obj).
    { rewrite <- (map_id obj) at 2. apply map_ext_in. intros [k x] Hin.
      cbn [fst snd]. f_equal.
      rewrite Forall_forall in IH, H.
      apply (IH (k, x) Hin). apply (H (k, x) Hin). }
    rewrite E. f_equal. now apply dict_of_pairs_distinct.
Qed.

Lemma normal_encodable (nfc : str -> str) (v : value) :
  normal nfc v -> encodable v.
Proof.
  induction v as [| | | | |arr IH|obj IH|] using value_induction;
    intro H; try exact I.
  - apply all_values_head in H. contradiction.
  - apply all_values_list in H as [_ H]. apply encodable_list.
    rewrite Forall_forall in *. intros x Hx. now apply IH; [|apply H].
  - apply all_values_dict in H as [_ H]. apply encodable_dict.
    rewrite Forall_forall in *. intros x Hx. now apply IH; [|apply H].
  - apply all_values_head in H. contradiction.
Qed.

(** ** The octets of a text are decoded to the text *)

Lemma utf8_decode_encode_code_point (c : Z) (b rest : bytes) :
  code_point c -> utf8_encode_char c = Ok b ->
  utf8_decode (b ++ rest) = (s <- utf8_decode rest ;; Ok (c :: s)).
Proof.
  intros [Hlo Hhi].
  unfold utf8_encode_char.
  pose proof (Z.div_mod c 64 ltac:(lia)) as E0.
  pose proof (Z.mod_pos_bound c 64 ltac:(lia)) as B0.
  pose proof (Z.div_mod (c / 64) 64 ltac:(lia)) as E1.
  pose proof (Z.mod_pos_bound (c / 64) 64 ltac:(lia)) as B1.
  pose proof (Z.div_mod (c / 64 / 64) 64 ltac:(lia)) as E2.
  pose proof (Z.mod_pos_bound (c / 64 / 64) 64 ltac:(lia)) as B2.
  replace (c / 4096) with (c / 64 / 64)
    by (rewrite Z.div_div by lia; reflexivity).
  replace (c / 262144) with (c / 64 / 64 / 64)
    by (rewrite !Z.div_div by lia; reflexivity).
  remember (c mod 64) as r0 eqn:Er0.
  remember (c / 64) as q0 eqn:Eq0.
  remember (q0 mod 64) as r1 eqn:Er1.
  remember (q0 / 64) as q1 eqn:Eq1.
  remember (q1 mod 64) as r2 eqn:Er2.
  remember (q1 / 64) as q2 eqn:Eq2.
  clear Er0 Eq0 Er1 Eq1 Er2 Eq2.
  destruct (Z.ltb_spec c 128) as [H1|H1].
  { intro H. apply Ok_inj in H. subst b. cbn [app utf8_decode].
    decide_conditions. reflexivity. }
  destruct (Z.ltb_spec c 2048) as [H2|H2].
  { intro H. apply Ok_inj in H. subst b. cbn [app utf8_decode]. unfold is_cont.
    decide_conditions.
    replace ((192 + q0 - 192) * 64 + (128 + r0 - 128)) with c by lia.
    reflexivity. }
  destruct ((55296 <=? c) && (c <? 57344)) eqn:Hs; [discriminate|].
  destruct (Z.ltb_spec c 65536) as [H3|H3].
  { intro H. apply Ok_inj in H. subst b. cbn [app utf8_decode]. unfold is_cont.
    replace ((224 + q1 - 224) * 4096 + (128 + r1 - 128) * 64 + (128 + r0 - 128))
      with c by lia.
    rewrite Hs.
    decide_conditions. reflexivity. }
  intro H. apply Ok_inj in H. subst b. cbn [app utf8_decode]. unfold is_cont.
  replace ((240 + q2 - 240) * 262144 + (128 + r2 - 128) * 4096
           + (128 + r1 - 128) * 64 + (128 + r0 - 128)) with c by lia.
  decide_conditions. reflexivity.
Qed.

Lemma utf8_decode_encode_code_points (s : str) :
  Forall code_point s ->
  forall raw, utf8_encode s = Ok raw -> utf8_decode raw = Ok s.
Proof.
  induction 1 as [|c s Hc _ IH]; intros raw He.
  - injection He as <-. reflexivity.
  - cbn [utf8_encode] in He.
    apply bind_inv in He as (b & Hb & He).
    apply bind_inv in He as (bs & Hbs & He). injection He as <-.
    rewrite (utf8_decode_encode_code_point c b bs Hc Hb), (IH bs Hbs).
    reflexivity.
Qed.

(** ** The members of the text of an object *)

Lemma Forall2_right {A B : Type} (R : A -> B -> Prop) (P : B -> Prop)
    (l : list A) (l' : list B) :
  Forall2 R l l' -> (forall x y, In x l -> R x y -> P y) -> Forall P l'.
Proof.
  induction 1 as [|x y l l' Hxy _ IH]; intro H; constructor.
  - apply (H x y); [now left|exact Hxy].
  - apply IH. intros x' y' Hin. apply H. now right.
Qed.

(** The text of an object: one member for every sorted key, made of the
    literal of the key and the text of a value of the object. *)
Lemma canonicalize_object_members (nfc : str -> str) (obj : dict value)
    (text : str) :
  _canonicalize_value nfc (VDict obj) = Ok text ->
  exists pairs,
    text = [123] ++ join [44] pairs ++ [125]
    /\ Forall2 (fun key p =>
                  exists v t,
                    dict_get obj (original_key_of nfc obj key) = Ok v
                    /\ In (original_key_of nfc obj key, v) obj
                    /\ _canonicalize_value nfc v = Ok t
                    /\ p = _canonicalize_string nfc key ++ [58] ++ t)
               (sort_keys (map nfc (dict_keys obj))) pairs.
Proof.
  rewrite _canonicalize_value_dict.
  unfold _canonicalize_object, canonicalize_object_with. intro H.
  apply bind_inv in H as (pairs & Hseq & H). apply Ok_inj in H.
  exists pairs. split; [now symmetry|]. clear H.
  apply sequence_inv, Forall2_map_left in Hseq.
  assert (Hin : Forall (fun key => In key (sort_keys (map nfc (dict_keys obj))))
                       (sort_keys (map nfc (dict_keys obj)))).
  { apply Forall_forall. trivial. }
  revert Hseq Hin. generalize (sort_keys (map nfc (dict_keys obj))) at 1 3 4.
  intros keys Hseq. induction Hseq as [|key p keys pairs Hp _ IH]; intro Hin.
  - constructor.
  - inversion Hin as [|? ? Hkey Hrest]; subst. constructor; [|now apply IH].
    destruct (sorted_key_lookup nfc obj key Hkey) as (v & Hget & Hv).
    rewrite Hget, bind_Ok in Hp.
    apply bind_inv in Hp as (t & Ht & Hp). apply Ok_inj in Hp.
    exists v, t. split; [exact Hget|]. split; [exact Hv|].
    split; [exact Ht|]. now symmetry.
Qed.

(** The text of an array. *)
Lemma canonicalize_array_elements (nfc : str -> str) (arr : list value)
    (text : str) :
  _canonicalize_value nfc (VList arr) = Ok text ->
  exists elements,
    text = [91] ++ join [44] elements ++ [93]
    /\ Forall2 (fun x t => _canonicalize_value nfc x = Ok t) arr elements.
Proof.
  cbn [_canonicalize_value]. intro H.
  apply bind_inv in H as (elements & Hseq & H). apply Ok_inj in H.
  exists elements. split; [now symmetry|].
  now apply sequence_inv, Forall2_map_left in Hseq.
Qed.

(** ** The characters of a canonical text *)

Section TextChars.

Variable nfc : str -> str.
Variable Q : Z -> Prop.
Hypothesis Q_ascii : forall c, 32 <= c < 127 -> Q c.

Lemma join_chars (sep : str) (parts : list str) :
  Forall Q sep -> Forall (Forall Q) parts -> Forall Q (join sep parts).
Proof.
  intros Hsep. induction 1 as [|p tl Hp Htl IH]; [constructor|].
  destruct tl as [|p' tl]; [exact Hp|].
  change (join sep (p :: p' :: tl)) with (p ++ sep ++ join sep (p' :: tl)).
  rewrite !Forall_app. auto.
Qed.

Lemma digit_chars (ds : str) :
  Forall (fun c => is_digit c = true) ds -> Forall Q ds.
Proof.
  apply Forall_impl. intros c H. apply Q_ascii.
  unfold is_digit in H. lia.
Qed.

Lemma to_base_aux_chars (fuel : nat) (n : Z) (acc : str) :
  Forall Q acc -> Forall Q (to_base_aux fuel 16 n acc).
Proof.
  revert n acc. induction fuel as [|fuel IH]; intros n acc Hacc; [exact Hacc|].
  cbn [to_base_aux].
  assert (Hd : Forall Q (digit_char (n mod 16) :: acc)).
  { constructor; [|exact Hacc]. apply Q_ascii.
    pose proof (Z.mod_pos_bound n 16 ltac:(lia)) as B.
    unfold digit_char. destruct (Z.ltb_spec (n mod 16) 10); lia. }
  destruct (n / 16 =? 0); [exact Hd|]. now apply IH.
Qed.

Lemma escape_char_chars (c : Z) :
  (32 <= c -> Q c) -> Forall Q (escape_char c).
Proof.
  intro Hc. unfold escape_char.
  repeat match goal with
         | |- context [?a =? ?b] => destruct (Z.eqb_spec a b)
         end;
    try (repeat constructor; apply Q_ascii; lia).
  destruct (Z.ltb_spec c 32).
  - constructor; [apply Q_ascii; lia|]. constructor; [apply Q_ascii; lia|].
    unfold format_04x. apply Forall_app. split.
    + apply Forall_forall. intros x Hx. apply repeat_spec in Hx. subst x.
      apply Q_ascii. lia.
    + apply to_base_aux_chars. constructor.
  - constructor; [now apply Hc|constructor].
Qed.

Lemma string_chars (x : str) :
  Forall (fun c => 32 <= c -> Q c) x ->
  Forall Q ([34] ++ flat_map escape_char x ++ [34]).
Proof.
  intro H. rewrite !Forall_app. repeat split.
  - repeat constructor. apply Q_ascii. lia.
  - induction H as [|c x Hc _ IH]; [constructor|].
    cbn [flat_map]. apply Forall_app. split; [now apply escape_char_chars|exact IH].
  - repeat constructor. apply Q_ascii. lia.
Qed.

Lemma number_chars (num : number) (text : str) :
  _canonicalize_number num = Ok text -> Forall Q text.
Proof.
  intro H. destruct (canonicalize_number_text num text H) as (m & E & Hi & Hf & He).
  subst text. rewrite !Forall_app. repeat split.
  - destruct (nm_neg m); repeat constructor. apply Q_ascii. lia.
  - apply digit_chars.
    destruct Hi as [->|(d & ds' & -> & Hd & _ & Hds)].
    + repeat constructor.
    + now constructor.
  - destruct (nm_frac m) as [fs|]; [|constructor].
    cbn [frac_text]. constructor; [apply Q_ascii; lia|].
    apply digit_chars. apply Hf.
  - destruct (nm_exp m) as [[eneg es]|]; [|constructor].
    cbn [exp_text]. constructor; [apply Q_ascii; lia|].
    constructor; [destruct eneg; apply Q_ascii; lia|].
    apply digit_chars. apply He.
Qed.

Lemma canonical_text_chars (v : value) :
  forall text,
    all_values (written_chars nfc (fun c => 32 <= c -> Q c)) v ->
    _canonicalize_value nfc v = Ok text -> Forall Q text.
Proof.
  induction v as [|b|n|f|s|arr IH|obj IH|] using value_induction;
    intros text Hv H.
  - apply Ok_inj in H. subst text. repeat constructor; apply Q_ascii; vm_compute; split; congruence.
  - apply Ok_inj in H. subst text.
    destruct b; repeat constructor; apply Q_ascii; vm_compute; split; congruence.
  - now apply (number_chars (NInt n)).
  - now apply (number_chars (NFloat f)).
  - apply Ok_inj in H. subst text. apply string_chars.
    now apply all_values_head in Hv.
  - apply all_values_list in Hv as [_ Hv].
    apply canonicalize_array_elements in H as (elements & -> & H).
    rewrite !Forall_app. repeat split;
      try (repeat constructor; apply Q_ascii; lia).
    apply join_chars; [repeat constructor; apply Q_ascii; lia|].
    apply (Forall2_right _ _ _ _ H). intros x t Hx Ht.
    rewrite Forall_forall in IH, Hv. now apply (IH x Hx); [apply Hv|].
  - apply all_values_dict in Hv as [Hk Hv].
    apply canonicalize_object_members in H as (pairs & -> & H).
    rewrite !Forall_app. repeat split;
      try (repeat constructor; apply Q_ascii; lia).
    apply join_chars; [repeat constructor; apply Q_ascii; lia|].
    apply (Forall2_right _ _ _ _ H).
    intros key p Hkey (x & t & _ & Hx & Ht & ->).
    rewrite !Forall_app. repeat split.
    + apply string_chars.
      apply (Permutation_in _ (sort_keys_perm _)) in Hkey.
      apply in_map_iff in Hkey as (k & <- & Hin).
      cbn [written_chars] in Hk. rewrite Forall_forall in Hk. now apply Hk.
    + repeat constructor; apply Q_ascii; lia.
    + rewrite Forall_forall in IH, Hv.
      apply (IH _ Hx); [|exact Ht]. apply (Hv _ Hx).
  - discriminate.
Qed.

End TextChars.

Lemma all_values_always (P : value -> Prop) (v : value) :
  (forall x, P x) -> all_values P v.
Proof.
  intro H.
  induction v as [| | | | |arr IH|obj IH|] using value_induction;
    try (split; [apply H|exact I]).
  - apply all_values_list. split; [apply H|exact IH].
  - apply all_values_dict. split; [apply H|exact IH].
Qed.

Lemma all_values_impl (P P' : value -> Prop) (v : value) :
  (forall x, P x -> P' x) -> all_values P v -> all_values P' v.
Proof.
  intro H.
  induction v as [| | | | |arr IH|obj IH|] using value_induction;
    try (intros [Hv _]; split; [now apply H|exact I]).
  - rewrite !all_values_list. intros [Hv Ha]. split; [now apply H|].
    rewrite Forall_forall in *. intros x Hx. now apply IH; [|apply Ha].
  - rewrite !all_values_dict. intros [Hv Ha]. split; [now apply H|].
    rewrite Forall_forall in *. intros x Hx. now apply IH; [|apply Ha].
Qed.

(** ** Canonicalizing the canonical bytes *)






(** ** Round trips through [json.loads] *)

(** X1: [json.loads] reads the literal [_canonicalize_string] writes for a
    string as the normalized string: the escaping loses nothing and changes
    nothing.  Hence two strings with the same literal have the same
    normalized form. *)
Theorem canonical_string_is_read_back (nfc : str -> str) (s : str) :
  Forall code_point (nfc s) ->
  json_loads (_canonicalize_string nfc s) = Ok (VStr (nfc s))
  /\ (forall s', Forall code_point (nfc s') ->
        _canonicalize_string nfc s' = _canonicalize_string nfc s ->
        nfc s' = nfc s).
Proof.
  intro Hc.
  assert (Hread : forall x, Forall code_point (nfc x) ->
            json_loads (_canonicalize_string nfc x) = Ok (VStr (nfc x))).
  { intros x Hx.
    rewrite (json_loads_read nfc (VStr x) _ eq_refl).
    cbn [reread as_dicts]. now rewrite reread_string_code_points. }
  split; [now apply Hread|].
  intros s' Hc' E.
  pose proof (Hread s' Hc') as H'. rewrite E, (Hread s Hc) in H'.
  apply Ok_inj in H'. now injection H'.
Qed.

Lemma canonical_string_is_read_back_witness :
  json_loads (_canonicalize_string nfc_e_acute [0x65; 0x301; 10; 34; 0x1F600])
  = Ok (VStr (nfc_e_acute [0x65; 0x301; 10; 34; 0x1F600]))
  /\ (forall s', Forall code_point (nfc_e_acute s') ->
        _canonicalize_string nfc_e_acute s'
        = _canonicalize_string nfc_e_acute [0x65; 0x301; 10; 34; 0x1F600] ->
        nfc_e_acute s' = nfc_e_acute [0x65; 0x301; 10; 34; 0x1F600]).
Proof.
  apply (canonical_string_is_read_back nfc_e_acute [0x65; 0x301; 10; 34; 0x1F600]).
  repeat constructor; vm_compute; congruence.
Defined.

(** X3: a float that is zero, or integral with a magnitude of at most
    [2^53], is written as an integer, so [json.loads] reads its text as an
    [int], not as a float. *)
Theorem integral_float_is_read_back_as_int (f : float) :
  written_as_int f = true ->
  exists text,
    _canonicalize_number (NFloat f) = Ok text
    /\ json_loads text = Ok (VInt (int_of_float f)).
Proof.
  intro H. exists (str_int (int_of_float f)).
  split; [now apply canonicalize_number_written_as_int|].
  rewrite (json_loads_number _ _ (str_int_number_text _)).
  now rewrite number_of_match_int.
Qed.

Lemma integral_float_is_read_back_as_int_witness :
  exists text,
    _canonicalize_number (NFloat (S754_finite true 5 1)) = Ok text
    /\ json_loads text = Ok (VInt (int_of_float (S754_finite true 5 1))).
Proof.
  apply (integral_float_is_read_back_as_int (S754_finite true 5 1)).
  reflexivity.
Defined.

(** X4: whatever the value, a text the encoder returns is a text
    [json.loads] accepts; and it reads a value whose objects have pairwise
    distinct keys. *)
Theorem canonical_text_is_accepted (nfc : str -> str) (v : value) (text : str) :
  canonicalize_to_string nfc v = Ok text ->
  exists tree, json_loads text = Ok tree /\ wf_value tree.
Proof.
  intro H. exists (as_dicts (reread nfc v)).
  split; [now apply json_loads_read|apply as_dicts_wf].
Qed.

Lemma canonical_text_is_accepted_witness :
  exists tree,
    json_loads (json_lit "{'a':[1e-05,'x'],'b':null}") = Ok tree
    /\ wf_value tree.
Proof.
  apply (canonical_text_is_accepted nfc_e_acute
           (VDict [(lit "b", VNone);
                   (lit "a", VList [VFloat (S754_finite false 0x14F8B588E368F1 (-69));
                                    VStr (lit "x")])])).
  vm_compute. reflexivity.
Defined.


(** ** Canonical bytes are canonical *)



(** ** What a canonical text is made of *)

Lemma escape_literal_chars (s : str) :
  Forall (fun c => 32 <= c /\ c <> 34 /\ c <> 92) s ->
  flat_map escape_char s = s.
Proof.
  induction 1 as [|c s (H1 & H2 & H3) _ IH]; [reflexivity|].
  cbn [flat_map]. rewrite IH, escape_char_literal by assumption. reflexivity.
Qed.

(** X7: whatever the value, every character of a text the encoder returns
    is U+0020 or above: no character from U+0000 to U+001F is written as
    itself.  The other control characters are not escaped: in a normalized
    string, every character from U+0020 on other than the quotation mark and
    the backslash is written as itself, U+007F to U+009F, U+2028 and U+2029
    among them. *)
Theorem canonical_text_has_no_c0_control_character (nfc : str -> str)
    (v : value) (text : str) :
  canonicalize_to_string nfc v = Ok text ->
  Forall (fun c => 32 <= c) text
  /\ (forall s, nfc s = s ->
        Forall (fun c => 32 <= c /\ c <> 34 /\ c <> 92) s ->
        canonicalize_to_string nfc (VStr s) = Ok ([34] ++ s ++ [34])).
Proof.
  intro H. split.
  - revert H. apply (canonical_text_chars nfc (fun c => 32 <= c)).
    + intros c Hc. lia.
    + apply all_values_always. intros [| | | |s| |obj|]; try exact I.
      * apply Forall_forall. auto.
      * apply Forall_forall. intros k _. apply Forall_forall. auto.
  - intros s Hs Hc. unfold canonicalize_to_string.
    cbn [_canonicalize_value]. unfold _canonicalize_string.
    now rewrite Hs, (escape_literal_chars s Hc).
Qed.

Lemma canonical_text_has_no_c0_control_character_witness :
  Forall (fun c => 32 <= c)
    (json_lit "['a\nb\u001f" ++ [0x7F; 0x85; 0x2028] ++ json_lit "',{'"
     ++ [0xE9] ++ json_lit "':-1.5}]")
  /\ (forall s, nfc_e_acute s = s ->
        Forall (fun c => 32 <= c /\ c <> 34 /\ c <> 92) s ->
        canonicalize_to_string nfc_e_acute (VStr s) = Ok ([34] ++ s ++ [34])).
Proof.
  apply (canonical_text_has_no_c0_control_character nfc_e_acute
           (VList [VStr [97; 10; 98; 31; 0x7F; 0x85; 0x2028];
                   VDict [([0x65; 0x301],
                           VFloat (S754_finite true 3 (-1)))]])).
  vm_compute. reflexivity.
Defined.


(** ** The exceptions of [canonicalize_bytes] *)

Lemma scan_scalar_typed (s : str) (v : value) (rest : str) :
  scan_scalar s = Ok (v, rest) -> v <> VOther.
Proof.
  unfold scan_scalar, Ok, Raise.
  repeat break_match; intro H; try discriminate;
    injection H as <- _; try discriminate.
  unfold number_of_match. destruct (nm_frac _), (nm_exp _); discriminate.
Qed.

Lemma array_elements_all (P : value -> Prop)
    (scan : str -> result (value * str)) :
  (forall s r, scan s = Ok r -> P (fst r)) ->
  forall fuel s r, array_elements scan fuel s = Ok r -> Forall P (fst r).
Proof.
  intros Hs fuel. induction fuel as [|fuel IH]; intros s r H; [discriminate|].
  rewrite array_elements_unfold in H.
  apply bind_inv in H as ([v rest] & Hv & H). cbn [fst snd] in H.
  apply Hs in Hv. cbn [fst] in Hv.
  destruct (skip_ws rest) as [|c tl]; [discriminate|].
  destruct (c =? 93).
  { apply Ok_inj in H. subst r. now repeat constructor. }
  destruct (c =? 44); [|discriminate].
  apply bind_inv in H as (r' & Hr' & H). apply Ok_inj in H. subst r.
  cbn [fst]. constructor; [exact Hv|]. now apply (IH _ _ Hr').
Qed.

Lemma object_members_all (P : value -> Prop)
    (scan : str -> result (value * str)) :
  (forall s r, scan s = Ok r -> P (fst r)) ->
  forall fuel s r,
    object_members scan fuel s = Ok r ->
    Forall (fun kv => P (snd kv)) (fst r).
Proof.
  intros Hs fuel. induction fuel as [|fuel IH]; intros s r H; [discriminate|].
  rewrite object_members_unfold in H.
  apply bind_inv in H as ([k rest] & _ & H). cbn [fst snd] in H.
  destruct (skip_ws rest) as [|c tl]; [discriminate|].
  destruct (c =? 58); [|discriminate].
  apply bind_inv in H as ([v rest1] & Hv & H). cbn [fst snd] in H.
  apply Hs in Hv. cbn [fst] in Hv.
  destruct (skip_ws rest1) as [|c' tl']; [discriminate|].
  destruct (c' =? 125).
  { apply Ok_inj in H. subst r. now repeat constructor. }
  destruct (c' =? 44); [|discriminate].
  destruct (skip_ws tl') as [|q tl'']; [discriminate|].
  destruct (q =? 34); [|discriminate].
  apply bind_inv in H as (r' & Hr' & H). apply Ok_inj in H. subst r.
  cbn [fst]. constructor; [exact Hv|]. now apply (IH _ _ Hr').
Qed.

(** The decoder returns no object of a type the encoder refuses. *)
Lemma scan_once_typed (fuel : nat) :
  forall s r,
    scan_once VDict fuel s = Ok r ->
    all_values (fun x => x <> VOther) (fst r).
Proof.
  induction fuel as [|fuel IH]; intros s r H; [discriminate|].
  rewrite scan_once_unfold in H.
  destruct s as [|nextchar tl]; [discriminate|].
  destruct (nextchar =? 34).
  { apply bind_inv in H as (x & _ & H). apply Ok_inj in H. subst r.
    split; [discriminate|exact I]. }
  destruct (nextchar =? 123).
  { destruct (skip_ws tl) as [|c tl']; [discriminate|].
    destruct (c =? 125).
    { apply Ok_inj in H. subst r. split; [discriminate|exact I]. }
    destruct (c =? 34); [|discriminate].
    apply bind_inv in H as (ms & Hms & H). apply Ok_inj in H. subst r.
    apply all_values_dict. split; [discriminate|].
    apply (object_members_all _ _ IH _ _ _ Hms). }
  destruct (nextchar =? 91).
  { destruct (skip_ws tl) as [|c tl']; [discriminate|].
    destruct (c =? 93).
    { apply Ok_inj in H. subst r. split; [discriminate|exact I]. }
    apply bind_inv in H as (xs & Hxs & H). apply Ok_inj in H. subst r.
    apply all_values_list. split; [discriminate|].
    apply (array_elements_all _ _ IH _ _ _ Hxs). }
  destruct r as [v rest]. pose proof (scan_scalar_typed _ _ _ H) as Hv.
  cbn [fst]. destruct v; try (split; [exact Hv|exact I]).
  - apply scan_scalar_scalar in H. contradiction.
  - apply scan_scalar_scalar in H. contradiction.
Qed.

Lemma as_dicts_typed (tree : value) :
  all_values (fun x => x <> VOther) tree ->
  all_values (fun x => x <> VOther) (as_dicts tree).
Proof.
  induction tree as [| | | | |arr IH|members IH|] using value_induction;
    intro H; try exact H.
  - apply all_values_list in H as [_ H]. cbn [as_dicts].
    apply all_values_list. split; [discriminate|].
    apply Forall_map. rewrite Forall_forall in *. intros x Hx.
    now apply IH; [|apply H].
  - apply all_values_dict in H as [_ H]. cbn [as_dicts].
    apply all_values_dict. split; [discriminate|].
    apply (dict_of_pairs_values (all_values (fun x => x <> VOther))).
    apply Forall_map. cbn [snd].
    rewrite Forall_forall in *. intros x Hx. now apply IH; [|apply H].
Qed.

Lemma json_loads_typed (s : str) (v : value) :
  json_loads s = Ok v -> all_values (fun x => x <> VOther) v.
Proof.
  rewrite json_loads_as_dicts. intro H.
  apply bind_inv in H as (tree & Ht & H). apply Ok_inj in H. subst v.
  apply as_dicts_typed.
  unfold json_loads_pairs in Ht. rewrite decode_unfold in Ht.
  apply bind_inv in Ht as (r & Hr & Ht).
  destruct (skip_ws (snd r)); [|discriminate]. apply Ok_inj in Ht. subst tree.
  now apply (scan_once_typed _ _ _ Hr).
Qed.

(** On what the decoder returns the encoder raises nothing but
    [ValueError]. *)
Lemma canonicalize_value_raise_typed (nfc : str -> str) (v : value) (e : exn) :
  all_values (fun x => x <> VOther) v ->
  _canonicalize_value nfc v = Raise e -> e = ValueError.
Proof.
  revert e.
  induction v as [ |b|n|f|s|arr IH|obj IH| ] using value_induction;
    intros e Hv He; try discriminate.
  - apply (canonicalize_number_raise (NFloat f)). exact He.
  - apply all_values_list in Hv as [_ Hv].
    cbn [_canonicalize_value] in He.
    destruct (sequence _) as [e'|xs] eqn:E; [|discriminate].
    injection He as <-.
    revert e' E. apply (sequence_raise (fun e => e = ValueError)).
    apply Forall_map. rewrite Forall_forall in *. intros x Hx e' He'.
    now apply (IH x Hx e' (Hv x Hx)).
  - apply all_values_dict in Hv as [_ Hv].
    rewrite _canonicalize_value_dict in He.
    unfold _canonicalize_object, canonicalize_object_with in He.
    destruct (sequence _) as [e'|xs] eqn:E; [|discriminate].
    injection He as <-.
    revert e' E. apply (sequence_raise (fun e => e = ValueError)).
    apply Forall_map. apply Forall_forall. intros key Hkey e'.
    destruct (sorted_key_lookup nfc obj key Hkey) as (v & Hget & Hin).
    rewrite Hget, bind_Ok.
    rewrite Forall_forall in IH, Hv.
    specialize (IH _ Hin). specialize (Hv _ Hin). cbn [snd] in IH, Hv.
    destruct (_canonicalize_value nfc v) as [e''|t]; [|discriminate].
    intro H. injection H as <-. now apply IH.
  - apply all_values_head in Hv. now contradiction Hv.
Qed.

(** X8: the exceptions of [canonicalize_bytes] are [UnicodeDecodeError]
    (the bytes are not UTF-8), [JSONDecodeError] (the text is not JSON),
    [ValueError] (the text has a [NaN] or an [Infinity], which [json.loads]
    accepts) and [UnicodeEncodeError] (a string of the text has an escaped
    lone surrogate).  It raises no [TypeError] and no [KeyError], and every
    one of the four is raised on some input.  (The recursion limit of the
    interpreter, which a deeply nested text can reach, is not part of the
    model.) *)
Theorem canonicalize_bytes_exceptions (nfc : str -> str) :
  (forall raw e,
     canonicalize_bytes nfc raw = Raise e ->
     e = UnicodeDecodeError \/ e = JSONDecodeError \/ e = ValueError
     \/ e = UnicodeEncodeError)
  /\ canonicalize_bytes nfc [0xFF] = Raise UnicodeDecodeError
  /\ canonicalize_bytes nfc [] = Raise JSONDecodeError
  /\ canonicalize_bytes nfc (json_lit "[1,]") = Raise JSONDecodeError
  /\ canonicalize_bytes nfc (json_lit "[NaN]") = Raise ValueError
  /\ canonicalize_bytes nfc (json_lit "-Infinity") = Raise ValueError
  /\ canonicalize_bytes nfc_e_acute (json_lit "'\ud800'")
     = Raise UnicodeEncodeError.
Proof.
  split; [|vm_compute; repeat split; reflexivity].
  intros raw e. unfold canonicalize_bytes.
  destruct (utf8_decode raw) as [e'|text] eqn:Ed.
  - intro H. injection H as <-. left. eapply utf8_decode_raise. exact Ed.
  - rewrite bind_Ok. destruct (json_loads text) as [e'|v] eqn:El.
    + intro H. injection H as <-. right. left.
      eapply decode_raise. exact El.
    + rewrite bind_Ok. unfold canonicalize, canonicalize_to_string.
      destruct (_canonicalize_value nfc v) as [e'|s] eqn:E.
      * intro H. injection H as <-. right. right. left.
        eapply canonicalize_value_raise_typed; [|exact E].
        eapply json_loads_typed. exact El.
      * rewrite bind_Ok. intro H. apply utf8_encode_raise in H. auto.
Qed.

(** ** The first and the last octet of canonical bytes *)

Lemma digits1_last (ds : str) :
  digits1 ds -> exists ds' c, ds = ds' ++ [c] /\ is_digit c = true.
Proof.
  intros [Hne Hd].
  destruct (exists_last Hne) as (ds' & c & ->).
  exists ds', c. split; [reflexivity|].
  apply Forall_app in Hd as [_ Hd]. now inversion Hd.
Qed.

Lemma number_text_end (m : number_match) (text : str) :
  number_text m text -> exists s c, text = s ++ [c] /\ is_digit c = true.
Proof.
  intros (E & Hi & Hf & He). subst text.
  destruct (nm_exp m) as [[eneg es]|].
  { destruct (digits1_last es He) as (es' & c & -> & Hc).
    exists ((if nm_neg m then [45] else []) ++ nm_int m ++ frac_text (nm_frac m)
            ++ 101 :: (if eneg then 45 else 43) :: es'), c.
    split; [|exact Hc]. cbn [exp_text]. now rewrite <- !app_assoc. }
  destruct (nm_frac m) as [fs|].
  { destruct (digits1_last fs Hf) as (fs' & c & -> & Hc).
    exists ((if nm_neg m then [45] else []) ++ nm_int m ++ 46 :: fs'), c.
    split; [|exact Hc]. cbn [frac_text exp_text].
    now rewrite app_nil_r, <- !app_assoc. }
  assert (Hd : digits1 (nm_int m)).
  { destruct Hi as [->|(d & ds' & -> & Hd & _ & Hds)].
    - split; [discriminate|repeat constructor].
    - split; [discriminate|now constructor]. }
  destruct (digits1_last _ Hd) as (ds' & c & E & Hc).
  exists ((if nm_neg m then [45] else []) ++ ds'), c.
  split; [|exact Hc]. cbn [frac_text exp_text].
  now rewrite E, !app_nil_r, <- !app_assoc.
Qed.

(** The last character of the text of a value. *)
Lemma canonical_text_end (nfc : str -> str) (v : value) (s : str) :
  _canonicalize_value nfc v = Ok s ->
  exists s' c, s = s' ++ [c] /\ value_end c.
Proof.
  unfold value_end.
  destruct v as [|b|n|f|x|arr|obj|]; intro H.
  - apply Ok_inj in H. subst s. exists (lit "nul"), 108. auto.
  - apply Ok_inj in H. subst s. destruct b.
    + exists (lit "tru"), 101. auto.
    + exists (lit "fals"), 101. auto.
  - destruct (canonicalize_number_text _ _ H) as (m & Hm).
    destruct (number_text_end m s Hm) as (s' & c & -> & Hc). eauto 10.
  - destruct (canonicalize_number_text _ _ H) as (m & Hm).
    destruct (number_text_end m s Hm) as (s' & c & -> & Hc). eauto 10.
  - apply Ok_inj in H. subst s.
    exists ([34] ++ flat_map escape_char (nfc x)), 34.
    split; [unfold _canonicalize_string; now rewrite <- app_assoc|auto 10].
  - apply canonicalize_array_elements in H as (elements & -> & _).
    exists ([91] ++ join [44] elements), 93.
    split; [now rewrite <- app_assoc|auto 10].
  - apply canonicalize_object_members in H as (pairs & -> & _).
    exists ([123] ++ join [44] pairs), 125.
    split; [now rewrite <- app_assoc|auto 10].
  - discriminate.
Qed.

Lemma utf8_encode_app (a b : str) :
  utf8_encode (a ++ b)
  = (x <- utf8_encode a ;; y <- utf8_encode b ;; Ok (x ++ y)).
Proof.
  induction a as [|c a IH]; cbn [app utf8_encode].
  - rewrite bind_Ok. destruct (utf8_encode b); reflexivity.
  - destruct (utf8_encode_char c) as [e|bc]; [reflexivity|].
    rewrite !bind_Ok, IH.
    destruct (utf8_encode a) as [e|x]; [reflexivity|]. rewrite !bind_Ok.
    destruct (utf8_encode b) as [e|y]; [reflexivity|]. rewrite !bind_Ok.
    now rewrite app_assoc.
Qed.

(** The canonical bytes of a value begin with the first character of its
    text and end with the last one. *)
Lemma canonical_bytes_borders (nfc : str -> str) (v : value) (raw : bytes) :
  canonicalize nfc v = Ok raw ->
  (exists c tl, raw = c :: tl /\ value_start c)
  /\ (exists hd c, raw = hd ++ [c] /\ value_end c).
Proof.
  unfold canonicalize, canonicalize_to_string. intro H.
  apply bind_inv in H as (s & Hs & H). split.
  - destruct (canonical_text_start nfc v s Hs) as (c & s' & -> & Hc).
    cbn [utf8_encode] in H.
    assert (E : utf8_encode_char c = Ok [c]).
    { unfold utf8_encode_char.
      replace (c <? 128) with true; [reflexivity|].
      symmetry. apply Z.ltb_lt.
      unfold value_start, is_digit in Hc. lia. }
    rewrite E, bind_Ok in H.
    apply bind_inv in H as (bs & _ & H). apply Ok_inj in H.
    exists c, bs. split; [now symmetry|exact Hc].
  - destruct (canonical_text_end nfc v s Hs) as (s' & c & -> & Hc).
    rewrite utf8_encode_app in H.
    apply bind_inv in H as (x & _ & H).
    assert (E : utf8_encode [c] = Ok [c]).
    { cbn [utf8_encode]. unfold utf8_encode_char.
      replace (c <? 128) with true; [reflexivity|].
      symmetry. apply Z.ltb_lt.
      unfold value_end, is_digit in Hc. lia. }
    rewrite E, bind_Ok in H. apply Ok_inj in H.
    exists x, c. split; [now symmetry|exact Hc].
Qed.

(** X9: bytes with whitespace before or after the value, such as a final
    line feed, are never canonical: [validate_integrity] returns false on
    them, whatever the value. *)
Theorem surrounding_whitespace_is_not_canonical (nfc : str -> str)
    (raw : bytes) (c : Z) :
  is_ws c = true ->
  validate_integrity nfc (c :: raw) = false
  /\ validate_integrity nfc (raw ++ [c]) = false.
Proof.
  intro Hws.
  assert (Hv : forall x, validate_integrity nfc x = true ->
                 exists v, canonicalize nfc v = Ok x).
  { intros x Hx. apply validate_integrity_true in Hx.
    unfold canonicalize_bytes in Hx.
    apply bind_inv in Hx as (text & _ & Hx).
    apply bind_inv in Hx as (v & _ & Hx). now exists v. }
  split.
  - destruct (validate_integrity nfc (c :: raw)) eqn:E; [|reflexivity].
    destruct (Hv _ E) as (v & Hc).
    apply canonical_bytes_borders in Hc as [(c' & tl & Eq & Hs) _].
    injection Eq as <- _.
    apply value_start_facts in Hs as [Hs _]. congruence.
  - destruct (validate_integrity nfc (raw ++ [c])) eqn:E; [|reflexivity].
    destruct (Hv _ E) as (v & Hc).
    apply canonical_bytes_borders in Hc as [_ (hd & c' & Eq & He)].
    apply app_inj_tail in Eq as [_ <-].
    unfold value_end, is_digit in He. unfold is_ws in Hws. lia.
Qed.

Lemma surrounding_whitespace_is_not_canonical_witness :
  validate_integrity nfc_e_acute (10 :: json_lit "{'a':1}") = false
  /\ validate_integrity nfc_e_acute (json_lit "{'a':1}" ++ [10]) = false.
Proof.
  apply (surrounding_whitespace_is_not_canonical nfc_e_acute
           (json_lit "{'a':1}") 10).
  reflexivity.
Defined.

(** ** The order of the items of a [dict] *)

Lemma strictly_sorted_unique (l : list str) :
  forall l',
    StronglySorted utf16_lt l -> StronglySorted utf16_lt l' ->
    Permutation l l' -> l = l'.
Proof.
  induction l as [|a l IH]; intros l' Hs Hs' Hp.
  - apply Permutation_nil in Hp. now subst.
  - destruct l' as [|b l'].
    { apply Permutation_sym, Permutation_nil in Hp. discriminate. }
    apply StronglySorted_inv in Hs as [Hs Ha].
    apply StronglySorted_inv in Hs' as [Hs' Hb].
    rewrite Forall_forall in Ha, Hb.
    assert (E : a = b).
    { assert (Hin : In a (b :: l'))
        by (apply (Permutation_in _ Hp); now left).
      assert (Hin' : In b (a :: l))
        by (apply (Permutation_in _ (Permutation_sym Hp)); now left).
      destruct Hin as [->|Hin]; [reflexivity|].
      destruct Hin' as [->|Hin']; [reflexivity|].
      apply Hb in Hin. apply Ha in Hin'. unfold utf16_lt in Hin, Hin'.
      apply list_lt_asym in Hin. congruence. }
    subst b. f_equal. apply IH; try assumption.
    now apply Permutation_cons_inv in Hp.
Qed.

Lemma sort_keys_of_permutation (l l' : list str) :
  Permutation l l' -> NoDup l -> Forall (Forall scalar_value) l ->
  sort_keys l = sort_keys l'.
Proof.
  intros Hp Hnd Hsc.
  assert (G : forall x, Permutation x l ->
                StronglySorted utf16_lt (sort_keys x)).
  { intros x Hx. apply strongly_sorted_strict.
    - apply sort_keys_sorted.
    - apply Forall_forall. intros k Hk.
      apply (Permutation_in _ (sort_keys_perm x)) in Hk.
      apply (Permutation_in _ Hx) in Hk.
      rewrite Forall_forall in Hsc. now apply Hsc.
    - apply (Permutation_NoDup (Permutation_sym (sort_keys_perm x))).
      apply (Permutation_NoDup (Permutation_sym Hx) Hnd). }
  apply strictly_sorted_unique.
  - apply G. reflexivity.
  - apply G. now apply Permutation_sym.
  - rewrite (sort_keys_perm l), (sort_keys_perm l'). exact Hp.
Qed.

Lemma NoDup_map_keys {A : Type} (f : str -> str) (obj : dict A) :
  NoDup (map f (dict_keys obj)) -> NoDup (dict_keys obj).
Proof. apply NoDup_map_inv. Qed.

(** The body of [_canonicalize_object] does not look at the order of the
    items when no two keys have the same normalized form. *)
Lemma canonicalize_object_with_permutation (nfc : str -> str) {A : Type}
    (canon : A -> result str) (obj obj' : dict A) :
  Permutation obj obj' ->
  NoDup (map nfc (dict_keys obj)) ->
  Forall (Forall scalar_value) (map nfc (dict_keys obj)) ->
  canonicalize_object_with nfc canon obj
  = canonicalize_object_with nfc canon obj'.
Proof.
  intros Hp Hnd Hsc.
  assert (Hk : Permutation (dict_keys obj) (dict_keys obj'))
    by now apply Permutation_map.
  assert (Hnk : Permutation (map nfc (dict_keys obj)) (map nfc (dict_keys obj')))
    by now apply Permutation_map.
  assert (Hnd' : NoDup (map nfc (dict_keys obj')))
    by apply (Permutation_NoDup Hnk Hnd).
  unfold canonicalize_object_with.
  rewrite <- (sort_keys_of_permutation _ _ Hnk Hnd Hsc).
  f_equal. f_equal. apply map_ext_in. intros key Hkey.
  apply (Permutation_in _ (sort_keys_perm _)) in Hkey.
  apply in_map_iff in Hkey as (k & <- & Hin).
  rewrite (original_key_of_own nfc obj k Hnd Hin).
  rewrite (original_key_of_own nfc obj' k Hnd' (Permutation_in _ Hk Hin)).
  destruct (dict_get_in obj k Hin) as (x & Hget & Hx).
  rewrite Hget.
  rewrite (dict_get_distinct obj' k x (NoDup_map_keys nfc obj' Hnd')
             (Permutation_in _ Hp Hx)).
  reflexivity.
Qed.

Lemma same_items_list (arr : list value) (w : value) :
  same_items (VList arr) w
  <-> exists arr', w = VList arr' /\ Forall2 same_items arr arr'.
Proof.
  destruct w as [| | | | |arr'| |]; cbn [same_items];
    try (split; [contradiction|intros (? & ? & _); discriminate]).
  assert (E : forall l l',
             (fix all (l l' : list value) {struct l} : Prop :=
                match l, l' with
                | [], [] => True
                | x :: tl, y :: tl' => same_items x y /\ all tl tl'
                | _, _ => False
                end) l l' <-> Forall2 same_items l l').
  { induction l as [|x l IH]; intros [|y l'].
    - split; [constructor|exact (fun _ => I)].
    - split; [contradiction|intro H; inversion H].
    - split; [contradiction|intro H; inversion H].
    - split.
      + intros [Hx Hl]. constructor; [exact Hx|now apply IH].
      + intro H. inversion H; subst. split; [assumption|now apply IH]. }
  rewrite E. split.
  - intro H. now exists arr'.
  - intros (a & Ea & H). now injection Ea as ->.
Qed.

Lemma same_items_dict (obj : dict value) (w : value) :
  same_items (VDict obj) w
  <-> exists obj' mid,
        w = VDict obj' /\ Permutation mid obj'
        /\ Forall2 (fun kv kv' => fst kv = fst kv'
                                  /\ same_items (snd kv) (snd kv')) obj mid.
Proof.
  destruct w as [| | | | | |obj'|]; cbn [same_items];
    try (split; [contradiction|intros (? & ? & ? & _); discriminate]).
  assert (E : forall l l',
             (fix all (l l' : list (str * value)) {struct l} : Prop :=
                match l, l' with
                | [], [] => True
                | kv :: tl, kv' :: tl' =>
                    fst kv = fst kv' /\ same_items (snd kv) (snd kv')
                    /\ all tl tl'
                | _, _ => False
                end) l l'
             <-> Forall2 (fun kv kv' => fst kv = fst kv'
                                        /\ same_items (snd kv) (snd kv')) l l').
  { induction l as [|x l IH]; intros [|y l'].
    - split; [constructor|exact (fun _ => I)].
    - split; [contradiction|intro H; inversion H].
    - split; [contradiction|intro H; inversion H].
    - split.
      + intros (Hk & Hx & Hl). constructor; [now split|now apply IH].
      + intro H. inversion H as [|? ? ? ? [Hk Hx] Hl]; subst.
        split; [assumption|]. split; [assumption|now apply IH]. }
  split.
  - intros (mid & Hp & H). exists obj', mid. rewrite <- E. auto.
  - intros (o & mid & Eo & Hp & H). injection Eo as ->.
    exists mid. rewrite E. auto.
Qed.

Lemma same_items_text (nfc : str -> str) (v : value) :
  forall w,
    all_values (distinct_keys nfc) v -> same_items v w ->
    _canonicalize_value nfc v = _canonicalize_value nfc w.
Proof.
  induction v as [|b|n|f|s|arr IH|obj IH|] using value_induction;
    intros w Hv Hs; try (cbn [same_items] in Hs; now subst w).
  - apply all_values_list in Hv as [_ Hv].
    apply same_items_list in Hs as (arr' & -> & Hs).
    cbn [_canonicalize_value]. f_equal. f_equal.
    induction Hs as [|x y arr arr' Hxy _ IHs]; [reflexivity|].
    inversion IH; subst. inversion Hv; subst.
    cbn [map]. f_equal; [now apply H1|now apply IHs].
  - apply all_values_dict in Hv as [[Hnd Hsc] Hv].
    apply same_items_dict in Hs as (obj' & mid & -> & Hp & Hs).
    cbn [_canonicalize_value].
    assert (E : map (fun kv => (fst kv, _canonicalize_value nfc (snd kv))) obj
                = map (fun kv => (fst kv, _canonicalize_value nfc (snd kv))) mid).
    { clear Hnd Hsc Hp.
      induction Hs as [|x y obj mid [Hk Hxy] _ IHs]; [reflexivity|].
      inversion IH; subst. inversion Hv; subst.
      cbn [map]. f_equal; [|now apply IHs].
      rewrite Hk. f_equal. now apply H1. }
    rewrite E.
    apply canonicalize_object_with_permutation.
    + now apply Permutation_map.
    + rewrite <- E, dict_keys_map. exact Hnd.
    + rewrite <- E, dict_keys_map. exact Hsc.
Qed.

(** X10: two values that differ only by the order of the items of their
    [dict]s, at any depth, have the same canonical text and the same
    canonical bytes, provided no two keys of an object have the same
    normalized form. *)
Theorem order_of_items_does_not_matter (nfc : str -> str) (v w : value) :
  all_values (distinct_keys nfc) v -> same_items v w ->
  canonicalize_to_string nfc v = canonicalize_to_string nfc w
  /\ canonicalize nfc v = canonicalize nfc w.
Proof.
  intros Hv Hs.
  assert (E : canonicalize_to_string nfc v = canonicalize_to_string nfc w)
    by now apply same_items_text.
  split; [exact E|]. unfold canonicalize. now rewrite E.
Qed.

Lemma order_of_items_does_not_matter_witness :
  let v := VDict [(lit "b", VInt 1);
                  (lit "a", VList [VDict [(lit "y", VNone); (lit "x", VInt 2)]])] in
  let w := VDict [(lit "a", VList [VDict [(lit "x", VInt 2); (lit "y", VNone)]]);
                  (lit "b", VInt 1)] in
  canonicalize_to_string nfc_e_acute v = canonicalize_to_string nfc_e_acute w
  /\ canonicalize nfc_e_acute v = canonicalize nfc_e_acute w.
Proof.
  intros v w.
  apply (order_of_items_does_not_matter nfc_e_acute v w).
  - unfold scalar_value. simpl.
    repeat split; repeat constructor; simpl; try lia; try tauto;
      try (intros [H|H]; [discriminate|exact H]).
  - simpl.
    exists [(lit "b", VInt 1);
            (lit "a", VList [VDict [(lit "x", VInt 2); (lit "y", VNone)]])].
    split; [apply perm_swap|].
    repeat split.
    exists [(lit "y", VNone); (lit "x", VInt 2)].
    split; [apply perm_swap|]. repeat split.
Defined.

(** ** Objects without two keys of one normalized form *)

Lemma Forall2_in_left {A B : Type} (R : A -> B -> Prop) (l : list A)
    (l' : list B) (x : A) :
  Forall2 R l l' -> In x l -> exists y, In y l' /\ R x y.
Proof.
  induction 1 as [|a b l l' Hab _ IH]; intro Hin; [contradiction|].
  destruct Hin as [->|Hin].
  - exists b. split; [now left|exact Hab].
  - destruct (IH Hin) as (y & Hy & Hxy). exists y. split; [now right|exact Hxy].
Qed.

(** Without a collision, the member written for the normalized form of a
    key has the value of that key. *)
Lemma own_member (nfc : str -> str) (obj : dict value) (pairs : list str)
    (k : str) (x : value) :
  NoDup (map nfc (dict_keys obj)) ->
  Forall2 (fun key p =>
             exists v t,
               dict_get obj (original_key_of nfc obj key) = Ok v
               /\ In (original_key_of nfc obj key, v) obj
               /\ _canonicalize_value nfc v = Ok t
               /\ p = _canonicalize_string nfc key ++ [58] ++ t)
          (sort_keys (map nfc (dict_keys obj))) pairs ->
  In (k, x) obj ->
  exists t,
    _canonicalize_value nfc x = Ok t
    /\ In (_canonicalize_string nfc (nfc k) ++ [58] ++ t) pairs.
Proof.
  intros Hnd H Hin.
  assert (Hk : In k (dict_keys obj)).
  { apply in_map_iff. now exists (k, x). }
  assert (Hkey : In (nfc k) (sort_keys (map nfc (dict_keys obj)))).
  { apply (Permutation_in _ (Permutation_sym (sort_keys_perm _))).
    now apply in_map. }
  destruct (Forall2_in_left _ _ _ _ H Hkey) as (p & Hp & v & t & Hget & _ & Ht & ->).
  rewrite (original_key_of_own nfc obj k Hnd Hk) in Hget.
  rewrite (dict_get_distinct obj k x (NoDup_map_keys nfc obj Hnd) Hin) in Hget.
  apply Ok_inj in Hget. subst v.
  exists t. split; assumption.
Qed.

(** X11: in an object without two keys of one normalized form nothing is
    lost: the text has as many members as the [dict] has items, and every
    item is written as a member, the literal of its normalized key before
    the text of its own value. *)
Theorem every_item_is_written (nfc : str -> str) (obj : dict value)
    (text : str) :
  NoDup (map nfc (dict_keys obj)) ->
  canonicalize_to_string nfc (VDict obj) = Ok text ->
  exists members,
    text = json_lit "{" ++ join (lit ",") members ++ json_lit "}"
    /\ List.length members = List.length obj
    /\ (forall k x, In (k, x) obj ->
          exists t,
            canonicalize_to_string nfc x = Ok t
            /\ In (_canonicalize_string nfc (nfc k) ++ lit ":" ++ t) members).
Proof.
  intros Hnd H.
  apply canonicalize_object_members in H as (pairs & -> & H).
  exists pairs. split; [reflexivity|]. split.
  - etransitivity; [symmetry; apply (Forall2_length H)|].
    rewrite (Permutation_length (sort_keys_perm _)).
    unfold dict_keys. now rewrite !length_map.
  - intros k x Hin. now apply (own_member nfc obj pairs k x Hnd H).
Qed.

Lemma every_item_is_written_witness :
  exists members,
    json_lit "{'z':[2],'" ++ [0xE9] ++ json_lit "':1}"
    = json_lit "{" ++ join (lit ",") members ++ json_lit "}"
    /\ List.length members
       = List.length [(lit "z", VList [VInt 2]); ([0x65; 0x301], VInt 1)]
    /\ (forall k x,
          In (k, x) [(lit "z", VList [VInt 2]); ([0x65; 0x301], VInt 1)] ->
          exists t,
            canonicalize_to_string nfc_e_acute x = Ok t
            /\ In (_canonicalize_string nfc_e_acute (nfc_e_acute k)
                   ++ lit ":" ++ t) members).
Proof.
  apply (every_item_is_written nfc_e_acute
           [(lit "z", VList [VInt 2]); ([0x65; 0x301], VInt 1)]).
  - repeat constructor; simpl; intuition discriminate.
  - vm_compute. reflexivity.
Defined.

(** Without two keys of one normalized form in an object, the recursion of
    the source returns a text only on a value without NaN, infinity or an
    object of an unsupported type. *)
Lemma returned_text_encodable (nfc : str -> str) (v : value) :
  all_values (no_collision nfc) v ->
  ((exists text, canonicalize_to_string nfc v = Ok text) <-> encodable v).
Proof.
  intro Hv. split; [|apply canonicalize_value_ok].
  intros [text H]. revert text Hv H. unfold canonicalize_to_string.
  induction v as [|b|n|f|s|arr IH|obj IH|] using value_induction;
    intros text Hv H; try exact I.
  - cbn [_canonicalize_value _canonicalize_number] in H. cbn [encodable].
    destruct (isnan f || isinf f); [discriminate|reflexivity].
  - apply all_values_list in Hv as [_ Hv].
    apply canonicalize_array_elements in H as (elements & _ & H).
    apply encodable_list. rewrite Forall_forall in *. intros x Hx.
    destruct (Forall2_in_left _ _ _ _ H Hx) as (t & _ & Ht).
    now apply (IH x Hx t (Hv x Hx)).
  - apply all_values_dict in Hv as [Hnd Hv]. cbn [no_collision] in Hnd.
    apply canonicalize_object_members in H as (pairs & _ & H).
    apply encodable_dict. rewrite Forall_forall in *. intros [k x] Hx.
    destruct (own_member nfc obj pairs k x Hnd H Hx) as (t & Ht & _).
    now apply (IH (k, x) Hx t (Hv (k, x) Hx)).
  - discriminate.
Qed.

(** ** The text of a number *)

(** X13: whatever the number, the text [_canonicalize_number] returns is a
    number of the JSON grammar (an optional minus sign, an integer part
    without a leading zero, an optional fraction, an optional exponent), and
    [json.loads] reads it as a number; so the texts of [repr] with an
    exponent are JSON as well. *)
Theorem canonical_number_is_a_json_number (num : number) (text : str) :
  _canonicalize_number num = Ok text ->
  exists m, number_text m text /\ json_loads text = Ok (number_of_match m).
Proof.
  intro H. destruct (canonicalize_number_text num text H) as (m & Hm).
  exists m. split; [exact Hm|now apply json_loads_number].
Qed.

Lemma canonical_number_is_a_json_number_witness :
  exists m,
    number_text m (lit "-1.5e+300")
    /\ json_loads (lit "-1.5e+300") = Ok (number_of_match m).
Proof.
  apply (canonical_number_is_a_json_number
           (NFloat (float_of_decimal true 15 299))).
  vm_compute. reflexivity.
Defined.

(** ** What canonical bytes look like *)

Lemma scanstring_escaped_nonneg (x : str) :
  exists y,
    Forall (fun c => 0 <= c) y
    /\ forall rest,
         scanstring (flat_map escape_char x ++ 34 :: rest) = Ok (y, rest).
Proof.
  induction x as [|c x (y & Hy & IH)].
  - exists []. split; [constructor|reflexivity].
  - destruct (Z_lt_le_dec c 0) as [Hneg|Hpos].
    + destruct c as [|p|p]; try lia.
      exists (Zneg p mod 16 :: y). split.
      * constructor; [|exact Hy].
        apply (Z.mod_pos_bound (Zneg p) 16). lia.
      * intro rest. cbn [flat_map].
        rewrite <- app_assoc, scanstring_negative, IH. reflexivity.
    + exists (c :: y). split; [now constructor|].
      intro rest. cbn [flat_map].
      rewrite <- app_assoc, scanstring_code_point, IH by exact Hpos.
      reflexivity.
Qed.

Lemma reread_string_nonneg (nfc : str -> str) (s : str) :
  Forall (fun c => 0 <= c) (reread_string nfc s).
Proof.
  destruct (scanstring_escaped_nonneg (nfc s)) as (y & Hy & H).
  unfold reread_string. now rewrite (H []).
Qed.

Lemma reread_string_of_nonneg (nfc : str -> str) (s : str) :
  Forall (fun c => 0 <= c) (nfc s) -> reread_string nfc s = nfc s.
Proof.
  intro H. unfold reread_string. now rewrite scanstring_code_points.
Qed.

Lemma map_fixed_inv {A : Type} (f : A -> A) (l : list A) :
  map f l = l -> Forall (fun x => f x = x) l.
Proof.
  induction l as [|x l IH]; intro H; [constructor|].
  injection H as Hx Hl. constructor; [exact Hx|now apply IH].
Qed.

Section CanonicalDocuments.

Variable nfc : str -> str.
Hypothesis nfc_idempotent : forall s, nfc (nfc s) = nfc s.
Hypothesis nfc_nonneg :
  forall s, Forall (fun c => 0 <= c) s -> Forall (fun c => 0 <= c) (nfc s).

(** A string that is read back from its own literal is normalized. *)
Lemma reread_string_fixed (s : str) : s = reread_string nfc s -> nfc s = s.
Proof.
  intro E.
  assert (Hs : Forall (fun c => 0 <= c) s)
    by (rewrite E; apply reread_string_nonneg).
  rewrite reread_string_of_nonneg in E by now apply nfc_nonneg.
  now symmetry.
Qed.

Lemma reread_fixed_canonical (tree : value) :
  tree = reread nfc (as_dicts tree) -> all_values (canonical_node nfc) tree.
Proof.
  induction tree as [|b|n|f|s|arr IH|members IH|] using value_induction;
    intro E; try (split; exact I).
  - split; [|exact I]. cbn [as_dicts reread canonical_node] in *.
    unfold reread_number, _canonicalize_number, written_as_int in *.
    destruct (isnan f || isinf f); [discriminate|].
    split; [|reflexivity]. cbn [negb andb].
    destruct (float_is_zero f).
    { exfalso. revert E. vm_compute. discriminate. }
    cbn [orb].
    destruct (float_eq_int f (int_of_float f) && float_abs_le_int f (2 ^ 53));
      [|reflexivity].
    exfalso.
    pose proof (match_number_text _ _ [] (str_int_number_text (int_of_float f)) I)
      as Em.
    rewrite app_nil_r in Em. unfold Ok in E. rewrite Em in E.
    rewrite number_of_match_int in E. discriminate.
  - split; [|exact I]. cbn [as_dicts reread canonical_node] in *.
    injection E as E. now apply reread_string_fixed.
  - apply all_values_list. split; [exact I|].
    cbn [as_dicts reread] in E. injection E as E.
    rewrite map_map in E. symmetry in E. apply map_fixed_inv in E.
    rewrite Forall_forall in *. intros x Hx. apply (IH x Hx).
    symmetry. now apply E.
  - pose proof (fixed_by_reread_wf nfc (VDict members) (eq_sym E)) as Hwf.
    apply wf_value_dict in Hwf as [Hnd _].
    cbn [as_dicts] in E.
    rewrite dict_of_pairs_distinct in E
      by (rewrite map_map; cbn [fst]; exact Hnd).
    set (M1 := map (fun kv => (fst kv, as_dicts (snd kv))) members) in *.
    assert (Ek1 : dict_keys M1 = dict_keys members)
      by apply dict_keys_map.
    rewrite reread_dict, Ek1 in E. injection E as E.
    set (K := sort_keys (map nfc (dict_keys members))) in *.
    assert (Hkeys : dict_keys members = map (reread_string nfc) K).
    { unfold dict_keys at 1. rewrite E at 1. rewrite map_map. reflexivity. }
    assert (Hpos : Forall (fun k => Forall (fun c => 0 <= c) k)
                          (dict_keys members)).
    { rewrite Hkeys. apply Forall_map, Forall_forall. intros k _.
      apply reread_string_nonneg. }
    assert (HK : Forall (fun key => reread_string nfc key = key
                                    /\ nfc key = key) K).
    { apply Forall_forall. intros key Hkey.
      apply (Permutation_in _ (sort_keys_perm _)) in Hkey.
      apply in_map_iff in Hkey as (k & <- & Hk).
      rewrite Forall_forall in Hpos.
      rewrite reread_string_of_nonneg; rewrite nfc_idempotent;
        auto using nfc_nonneg. }
    assert (EK : dict_keys members = K).
    { rewrite Hkeys. apply map_fixed. revert HK. apply Forall_impl. tauto. }
    assert (Hfix : Forall (fun k => nfc k = k) (dict_keys members)).
    { rewrite EK. revert HK. apply Forall_impl. tauto. }
    apply all_values_dict. split.
    + cbn [canonical_node]. repeat split; try assumption.
      rewrite EK. apply sort_keys_sorted.
    + rewrite <- EK in E. unfold dict_keys in E. rewrite map_map in E.
      symmetry in E. apply map_fixed_inv in E.
      rewrite Forall_forall in *. intros [k v] Hkv.
      apply (IH (k, v) Hkv). cbn [snd].
      specialize (E (k, v) Hkv). cbn [fst] in E.
      assert (Hk : In k (dict_keys members)).
      { apply in_map_iff. now exists (k, v). }
      rewrite (original_key_of_fixed nfc M1 k) in E;
        try (rewrite Ek1; try apply Forall_forall; assumption).
      unfold M1 in E. rewrite dict_get_map in E.
      rewrite (dict_get_distinct members k v Hnd Hkv), bind_Ok in E.
      unfold Ok in E. now injection E.
Qed.

End CanonicalDocuments.

(** X14: what [validate_integrity] accepts.  When normalization is
    idempotent, bytes on which [validate_integrity] returns true are the
    UTF-8 of a JSON text in which every object has its names in the order of
    their UTF-16 code units, without a repetition, every name and every
    string is normalized, and no number with a fraction or an exponent has a
    value that is written as an integer (no [1.0], no [1e2]). *)
Theorem canonical_document_shape (nfc : str -> str) (raw : bytes) :
  (forall s, nfc (nfc s) = nfc s) ->
  (forall s, Forall (fun c => 0 <= c) s -> Forall (fun c => 0 <= c) (nfc s)) ->
  validate_integrity nfc raw = true ->
  exists text tree,
    utf8_decode raw = Ok text
    /\ json_loads_pairs text = Ok tree
    /\ all_values (canonical_node nfc) tree.
Proof.
  intros Hidem Hpos Hvalid.
  apply validate_integrity_true in Hvalid.
  unfold canonicalize_bytes in Hvalid.
  apply bind_inv in Hvalid as (text & Htext & Hvalid).
  apply bind_inv in Hvalid as (v & Hv & Hvalid).
  rewrite json_loads_as_dicts in Hv.
  apply bind_inv in Hv as (tree & Htree & Hv). apply Ok_inj in Hv. subst v.
  exists text, tree. split; [exact Htext|]. split; [exact Htree|].
  unfold canonicalize, canonicalize_to_string in Hvalid.
  apply bind_inv in Hvalid as (s & Hs & Henc).
  assert (text = s) by (eapply utf8_decode_encode; eassumption). subst text.
  apply (reread_fixed_canonical nfc Hidem Hpos).
  eapply json_loads_pairs_canonical; eassumption.
Qed.

Lemma canonical_document_shape_witness :
  exists text tree,
    utf8_decode (json_lit "{'a':[1.5,'x'],'b':{}}") = Ok text
    /\ json_loads_pairs text = Ok tree
    /\ all_values (canonical_node (fun s => s)) tree.
Proof.
  apply (canonical_document_shape (fun s => s)
           (json_lit "{'a':[1.5,'x'],'b':{}}")).
  - reflexivity.
  - trivial.
  - vm_compute. reflexivity.
Defined.

(** ** Values with the same canonical bytes *)

(** X15: the encoder is injective on the values that are read back as they
    are: two of them with the same canonical text, or with the same
    canonical bytes, are equal. *)
Theorem normal_values_with_the_same_bytes_are_equal (nfc : str -> str)
    (v w : value) :
  normal nfc v -> normal nfc w ->
  (canonicalize_to_string nfc v = canonicalize_to_string nfc w -> v = w)
  /\ (forall raw,
        canonicalize nfc v = Ok raw -> canonicalize nfc w = Ok raw -> v = w).
Proof.
  intros Hv Hw.
  assert (Hread : forall x text, normal nfc x ->
            _canonicalize_value nfc x = Ok text -> json_loads text = Ok x).
  { intros x text Hx Ht. rewrite (json_loads_read nfc x text Ht).
    now rewrite (normal_reread nfc x Hx), (normal_as_dicts nfc x Hx). }
  assert (Htext : forall text,
            _canonicalize_value nfc v = Ok text ->
            _canonicalize_value nfc w = Ok text -> v = w).
  { intros text Htv Htw.
    pose proof (Hread v text Hv Htv) as E. rewrite (Hread w text Hw Htw) in E.
    apply Ok_inj in E. now symmetry. }
  split.
  - unfold canonicalize_to_string. intro E.
    destruct (canonicalize_value_ok nfc v (normal_encodable nfc v Hv)) as [t Ht].
    apply (Htext t Ht). now rewrite <- E.
  - unfold canonicalize, canonicalize_to_string. intros raw Hrv Hrw.
    apply bind_inv in Hrv as (tv & Htv & Hev).
    apply bind_inv in Hrw as (tw & Htw & Hew).
    assert (Hc : Forall code_point tv).
    { apply (canonical_text_chars nfc code_point) with (v := v);
        [unfold code_point; intros; lia| |exact Htv].
      revert Hv. apply all_values_impl.
      intros [| | | |s| |obj|]; try exact (fun _ => I).
      - intros [Hc E]. cbn [written_chars]. rewrite E.
        revert Hc. apply Forall_impl. auto.
      - intros (_ & _ & Hk). cbn [written_chars].
        revert Hk. apply Forall_impl. intros k [Hc E]. rewrite !E.
        revert Hc. apply Forall_impl. auto. }
    pose proof (utf8_decode_encode_code_points tv Hc raw Hev) as Hd.
    assert (tv = tw) by (eapply utf8_decode_encode; eassumption).
    subst tw. now apply (Htext tv).
Qed.

Lemma normal_values_with_the_same_bytes_are_equal_witness :
  let v := VDict [(lit "a", VList [VInt 1; VStr [0xE9]]); (lit "b", VNone)] in
  let w := VDict [(lit "a", VList [VInt 1; VStr [0xE9]]); (lit "b", VNone)] in
  (canonicalize_to_string nfc_e_acute v = canonicalize_to_string nfc_e_acute w
   -> v = w)
  /\ (forall raw,
        canonicalize nfc_e_acute v = Ok raw ->
        canonicalize nfc_e_acute w = Ok raw -> v = w).
Proof.
  intros v w.
  apply (normal_values_with_the_same_bytes_are_equal nfc_e_acute v w);
    unfold normal, utf16_le, code_point; simpl;
    repeat split; repeat constructor; simpl; try lia; try tauto;
      try (intros [H|H]; [discriminate|exact H]).
Defined.

(** ** The order of the keys and the order of the code points *)

Lemma utf16_sort_key_bmp (s : str) :
  Forall (fun c => c < 0x10000) s -> _utf16_sort_key s = s.
Proof.
  induction 1 as [|c s Hc _ IH]; [reflexivity|].
  cbn [_utf16_sort_key].
  replace (c <? 65536) with true by (symmetry; now apply Z.ltb_lt).
  now rewrite IH.
Qed.

(** X16: the order of the keys is the order of the code points on strings
    of the Basic Multilingual Plane, whose sort key is the string itself; it
    is not on the others: a key that begins with a supplementary character
    (U+10000 and above) is written before a key that begins with a character
    from U+E000 to U+FFFF, against the order of the code points and of the
    UTF-8 octets. *)
Theorem key_order_and_code_point_order (c d : Z) (s s' : str) :
  0xE000 <= c <= 0xFFFF -> 0x10000 <= d <= 0x10FFFF ->
  utf16_lt (d :: s) (c :: s')
  /\ sort_keys [c :: s'; d :: s] = [d :: s; c :: s']
  /\ sort_keys [d :: s; c :: s'] = [d :: s; c :: s']
  /\ (forall a b,
        Forall (fun x => x < 0x10000) a -> Forall (fun x => x < 0x10000) b ->
        (utf16_lt a b <-> list_lt a b = true)).
Proof.
  intros Hc Hd.
  assert (Hlt : utf16_lt (d :: s) (c :: s')).
  { unfold utf16_lt. cbn [_utf16_sort_key].
    replace (d <? 65536) with false by (symmetry; apply Z.ltb_ge; lia).
    replace (c <? 65536) with true by (symmetry; apply Z.ltb_lt; lia).
    cbn [list_lt]. rewrite Z.shiftr_div_pow2 by lia.
    change (2 ^ 10) with 1024.
    pose proof (Z.div_lt_upper_bound (d - 65536) 1024 1024 ltac:(lia) ltac:(lia)).
    pose proof (Z.div_pos (d - 65536) 1024 ltac:(lia) ltac:(lia)).
    replace (55296 + (d - 65536) / 1024 =? c) with false
      by (symmetry; apply Z.eqb_neq; lia).
    apply Z.ltb_lt. lia. }
  split; [exact Hlt|].
  unfold utf16_lt in Hlt. pose proof (list_lt_asym _ _ Hlt) as Hgt.
  repeat split.
  - unfold sort_keys. cbn [fold_right insert_key]. now rewrite Hlt.
  - unfold sort_keys. cbn [fold_right insert_key]. now rewrite Hgt.
  - unfold utf16_lt. now rewrite !utf16_sort_key_bmp.
  - unfold utf16_lt. now rewrite !utf16_sort_key_bmp.
Qed.

Lemma key_order_and_code_point_order_witness :
  utf16_lt [0x1F600] [0xFF21]
  /\ sort_keys [[0xFF21]; [0x1F600]] = [[0x1F600]; [0xFF21]]
  /\ sort_keys [[0x1F600]; [0xFF21]] = [[0x1F600]; [0xFF21]]
  /\ (forall a b,
        Forall (fun x => x < 0x10000) a -> Forall (fun x => x < 0x10000) b ->
        (utf16_lt a b <-> list_lt a b = true)).
Proof.
  apply (key_order_and_code_point_order 0xFF21 0x1F600 [] []); lia.
Defined.

(** ** Bytes that begin with a byte order mark *)

(** X17: bytes that begin with the UTF-8 byte order mark are refused:
    [canonicalize_bytes] raises [JSONDecodeError] (or [UnicodeDecodeError]
    when what follows is not UTF-8), and [validate_integrity] returns
    false. *)
Theorem byte_order_mark_is_refused (nfc : str -> str) (raw : bytes) :
  (canonicalize_bytes nfc (0xEF :: 0xBB :: 0xBF :: raw) = Raise JSONDecodeError
   \/ canonicalize_bytes nfc (0xEF :: 0xBB :: 0xBF :: raw)
      = Raise UnicodeDecodeError)
  /\ validate_integrity nfc (0xEF :: 0xBB :: 0xBF :: raw) = false.
Proof.
  assert (E : utf8_decode (0xEF :: 0xBB :: 0xBF :: raw)
              = (s <- utf8_decode raw ;; Ok (0xFEFF :: s))) by reflexivity.
  assert (H : canonicalize_bytes nfc (0xEF :: 0xBB :: 0xBF :: raw)
              = Raise JSONDecodeError
              \/ canonicalize_bytes nfc (0xEF :: 0xBB :: 0xBF :: raw)
                 = Raise UnicodeDecodeError).
  { unfold canonicalize_bytes. rewrite E.
    destruct (utf8_decode raw) as [e|s] eqn:Hd.
    - right. apply utf8_decode_raise in Hd. now subst e.
    - left. reflexivity. }
  split; [exact H|].
  unfold validate_integrity. destruct H as [-> | ->]; reflexivity.
Qed.

(** ** Whitespace around the value *)

Lemma with_tail_bind {A B : Type} (tail : str) (r : result (A * str))
    (g : A -> B) :
  (x <- with_tail tail r ;; Ok (g (fst x), snd x))
  = with_tail tail (x <- r ;; Ok (g (fst x), snd x)).
Proof. destruct r as [e|[a rest]]; reflexivity. Qed.

Lemma is_ws_cases (c : Z) :
  is_ws c = true -> c = 32 \/ c = 9 \/ c = 10 \/ c = 13.
Proof. unfold is_ws. lia. Qed.

Lemma skip_ws_snoc (c : Z) (s : str) :
  is_ws c = true ->
  skip_ws (s ++ [c])
  = match skip_ws s with
    | [] => []
    | x :: tl => x :: tl ++ [c]
    end.
Proof.
  intro Hc. induction s as [|x s IH]; cbn [app skip_ws].
  - now rewrite Hc.
  - destruct (is_ws x); [exact IH|reflexivity].
Qed.

Lemma scanstring_snoc (c : Z) :
  is_ws c = true ->
  forall s, scanstring (s ++ [c]) = with_tail [c] (scanstring s).
Proof.
  intros Hc s.
  assert (Hnil : scanstring [c] = Raise JSONDecodeError).
  { destruct (is_ws_cases c Hc) as [-> | [-> | [-> | ->]]]; reflexivity. }
  assert (Hhex : hex_value c = None).
  { destruct (is_ws_cases c Hc) as [-> | [-> | [-> | ->]]]; reflexivity. }
  assert (Hu : (c =? 117) = false).
  { destruct (is_ws_cases c Hc) as [-> | [-> | [-> | ->]]]; reflexivity. }
  assert (Hb : backslash c = None).
  { destruct (is_ws_cases c Hc) as [-> | [-> | [-> | ->]]]; reflexivity. }
  remember (List.length s) as n eqn:En.
  revert s En. induction n as [n IH] using lt_wf_ind. intros s En.
  assert (Hrec : forall tl (g : str -> str),
            (List.length tl < n)%nat ->
            (r <- scanstring (tl ++ [c]) ;; Ok (g (fst r), snd r))
            = with_tail [c] (r <- scanstring tl ;; Ok (g (fst r), snd r))).
  { intros tl g Hlt. rewrite (IH _ Hlt tl eq_refl). apply with_tail_bind. }
  destruct s as [|x tl]; [exact Hnil|].
  cbn [List.length] in En.
  cbn [app scanstring].
  destruct (x =? 34); [reflexivity|].
  destruct (x =? 92).
  { destruct tl as [|esc tl1].
    { cbn [app]. now rewrite Hu, Hb. }
    cbn [app List.length] in *.
    destruct (esc =? 117).
    - destruct tl1 as [|h1 [|h2 [|h3 [|h4 tl5]]]]; cbn [app]; try reflexivity.
      { unfold decode_uXXXX. rewrite Hhex.
        destruct (hex_value h1), (hex_value h2), (hex_value h3); reflexivity. }
      cbn [List.length] in *.
      destruct (decode_uXXXX h1 h2 h3 h4) as [e|uni]; [reflexivity|].
      rewrite !bind_Ok.
      assert (Hsingle :
                (r <- scanstring (tl5 ++ [c]) ;; Ok (uni :: fst r, snd r))
                = with_tail [c]
                    (r <- scanstring tl5 ;; Ok (uni :: fst r, snd r))).
      { apply (Hrec tl5 (fun x => uni :: x)). lia. }
      destruct ((55296 <=? uni) && (uni <=? 56319)); [|exact Hsingle].
      destruct tl5 as [|b [|u tl7]]; cbn [app]; try exact Hsingle.
      { rewrite Hu, andb_false_r. exact Hsingle. }
      cbn [List.length] in *.
      destruct ((b =? 92) && (u =? 117)); [|exact Hsingle].
      destruct tl7 as [|g1 [|g2 [|g3 [|g4 tl11]]]]; cbn [app];
        try reflexivity.
      { unfold decode_uXXXX. rewrite Hhex.
        destruct (hex_value g1), (hex_value g2), (hex_value g3); reflexivity. }
      cbn [List.length] in *.
      destruct (decode_uXXXX g1 g2 g3 g4) as [e|uni2]; [reflexivity|].
      rewrite !bind_Ok.
      destruct ((56320 <=? uni2) && (uni2 <=? 57343)); [|exact Hsingle].
      apply (Hrec tl11 (fun x => _ :: x)). lia.
    - destruct (backslash esc) as [char|]; [|reflexivity].
      apply (Hrec tl1 (fun x => char :: x)). lia. }
  destruct (x <? 32); [reflexivity|].
  apply (Hrec tl (fun r => x :: r)). lia.
Qed.

Lemma strip_prefix_snoc (c : Z) (p s : str) :
  ~ In c p ->
  strip_prefix p (s ++ [c])
  = match strip_prefix p s with
    | Some rest => Some (rest ++ [c])
    | None => None
    end.
Proof.
  revert s. induction p as [|x p IH]; intros s Hp; [reflexivity|].
  destruct s as [|y s]; cbn [app strip_prefix].
  - replace (x =? c) with false; [reflexivity|].
    symmetry. apply Z.eqb_neq. intros ->. apply Hp. now left.
  - destruct (x =? y); [|reflexivity]. apply IH. intro H. apply Hp. now right.
Qed.

Lemma span_digits_snoc (c : Z) (s : str) :
  is_digit c = false ->
  span_digits (s ++ [c]) = (fst (span_digits s), snd (span_digits s) ++ [c]).
Proof.
  intro Hc. induction s as [|x s IH]; cbn [app span_digits].
  - now rewrite Hc.
  - destruct (is_digit x); [|reflexivity].
    rewrite IH. destruct (span_digits s). reflexivity.
Qed.

Lemma match_number_snoc (c : Z) (s : str) :
  is_ws c = true ->
  match_number (s ++ [c])
  = match match_number s with
    | Some (m, rest) => Some (m, rest ++ [c])
    | None => None
    end.
Proof.
  intro Hc.
  assert (Hd : is_digit c = false
               /\ (c =? 45) = false /\ (c =? 43) = false /\ (c =? 46) = false
               /\ (c =? 48) = false /\ (c =? 101) = false /\ (c =? 69) = false).
  { destruct (is_ws_cases c Hc) as [-> | [-> | [-> | ->]]];
      repeat split; reflexivity. }
  destruct Hd as (Hdig & H45 & H43 & H46 & H48 & H101 & H69).
  assert (Hsign : forall s,
            match_sign (s ++ [c])
            = (fst (match_sign s), snd (match_sign s) ++ [c])).
  { intros [|x tl]; cbn [app match_sign]; [now rewrite H45|].
    destruct (x =? 45); reflexivity. }
  assert (Hint : forall s,
            match_integer (s ++ [c])
            = match match_integer s with
              | Some (ds, rest) => Some (ds, rest ++ [c])
              | None => None
              end).
  { intros [|x tl]; cbn [app match_integer]; [now rewrite H48, Hdig|].
    destruct (x =? 48); [reflexivity|].
    destruct (is_digit x); [|reflexivity].
    rewrite (span_digits_snoc c tl Hdig). destruct (span_digits tl). reflexivity. }
  assert (Hfrac : forall s,
            match_frac (s ++ [c])
            = (fst (match_frac s), snd (match_frac s) ++ [c])).
  { intros [|x tl]; cbn [app match_frac]; [now rewrite H46|].
    destruct (x =? 46); [|reflexivity].
    rewrite (span_digits_snoc c tl Hdig).
    destruct (span_digits tl) as [[|d ds] rest]; reflexivity. }
  assert (Hexp : forall s,
            match_exp (s ++ [c])
            = (fst (match_exp s), snd (match_exp s) ++ [c])).
  { intros [|x tl]; cbn [app match_exp].
    { now rewrite H101, H69. }
    destruct ((x =? 101) || (x =? 69)); [|reflexivity].
    destruct tl as [|sg tl'']; cbn [app].
    { rewrite H45, H43. cbn [span_digits]. now rewrite Hdig. }
    destruct (sg =? 45).
    { rewrite (span_digits_snoc c tl'' Hdig).
      destruct (span_digits tl'') as [[|d ds] rest]; reflexivity. }
    destruct (sg =? 43).
    { rewrite (span_digits_snoc c tl'' Hdig).
      destruct (span_digits tl'') as [[|d ds] rest]; reflexivity. }
    change (sg :: tl'' ++ [c]) with ((sg :: tl'') ++ [c]).
    rewrite (span_digits_snoc c (sg :: tl'') Hdig).
    destruct (span_digits (sg :: tl'')) as [[|d ds] rest]; reflexivity. }
  unfold match_number.
  rewrite Hsign. destruct (match_sign s) as [neg s1]. cbn [fst snd].
  rewrite Hint. destruct (match_integer s1) as [[ds s2]|]; [|reflexivity].
  rewrite Hfrac. destruct (match_frac s2) as [frac s3]. cbn [fst snd].
  rewrite Hexp. destruct (match_exp s3) as [exp s4]. reflexivity.
Qed.

Lemma scan_scalar_snoc (c : Z) (s : str) :
  is_ws c = true ->
  scan_scalar (s ++ [c]) = with_tail [c] (scan_scalar s).
Proof.
  intro Hc.
  assert (Hp : forall p,
            In p [lit "null"; lit "true"; lit "false"; lit "NaN";
                  lit "Infinity"; lit "-Infinity"] -> ~ In c p).
  { intros p Hp Hin.
    destruct (is_ws_cases c Hc) as [-> | [-> | [-> | ->]]];
      repeat (destruct Hp as [<-|Hp];
              [vm_compute in Hin; intuition discriminate|]);
      contradiction. }
  unfold scan_scalar.
  rewrite !strip_prefix_snoc, match_number_snoc
    by (try apply Hp; try exact Hc; simpl; tauto).
  destruct (strip_prefix (lit "null") s); [reflexivity|].
  destruct (strip_prefix (lit "true") s); [reflexivity|].
  destruct (strip_prefix (lit "false") s); [reflexivity|].
  destruct (match_number s) as [[m rest]|]; [reflexivity|].
  destruct (strip_prefix (lit "NaN") s); [reflexivity|].
  destruct (strip_prefix (lit "Infinity") s); [reflexivity|].
  destruct (strip_prefix (lit "-Infinity") s); reflexivity.
Qed.

Section Framing.

Variable c : Z.
Hypothesis c_ws : is_ws c = true.

Lemma array_elements_snoc (scan : str -> result (value * str)) :
  (forall s, scan (s ++ [c]) = with_tail [c] (scan s)) ->
  (exists e, scan [] = Raise e) ->
  forall fuel s,
    array_elements scan fuel (s ++ [c])
    = with_tail [c] (array_elements scan fuel s).
Proof.
  intros Hscan [e0 Hnil] fuel.
  assert (Hempty : forall fuel, exists e,
            array_elements scan fuel [] = Raise e).
  { intros [|fuel']; [eexists; reflexivity|].
    rewrite array_elements_unfold, Hnil. eexists. reflexivity. }
  induction fuel as [|fuel IH]; intro s; [reflexivity|].
  rewrite !array_elements_unfold, Hscan.
  destruct (scan s) as [e|[v rest]]; [reflexivity|].
  cbn [with_tail]. rewrite !bind_Ok. cbn [fst snd].
  rewrite (skip_ws_snoc c rest c_ws).
  destruct (skip_ws rest) as [|x tl]; [reflexivity|].
  destruct (x =? 93); [reflexivity|].
  destruct (x =? 44); [|reflexivity].
  rewrite (skip_ws_snoc c tl c_ws).
  destruct (skip_ws tl) as [|y tl'] eqn:E.
  - destruct (Hempty fuel) as [e ->]. reflexivity.
  - change (y :: tl' ++ [c]) with ((y :: tl') ++ [c]). rewrite IH.
    destruct (array_elements scan fuel (y :: tl')) as [e|[vs rest']];
      reflexivity.
Qed.

Lemma object_members_snoc (scan : str -> result (value * str)) :
  (forall s, scan (s ++ [c]) = with_tail [c] (scan s)) ->
  (exists e, scan [] = Raise e) ->
  forall fuel s,
    object_members scan fuel (s ++ [c])
    = with_tail [c] (object_members scan fuel s).
Proof.
  intros Hscan [e0 Hnil] fuel.
  induction fuel as [|fuel IH]; intro s; [reflexivity|].
  rewrite !object_members_unfold, (scanstring_snoc c c_ws).
  destruct (scanstring s) as [e|[k rest]]; [reflexivity|].
  cbn [with_tail]. rewrite !bind_Ok. cbn [fst snd].
  rewrite (skip_ws_snoc c rest c_ws).
  destruct (skip_ws rest) as [|x tl]; [reflexivity|].
  destruct (x =? 58); [|reflexivity].
  rewrite (skip_ws_snoc c tl c_ws).
  destruct (skip_ws tl) as [|y tl1].
  { rewrite Hnil. reflexivity. }
  change (y :: tl1 ++ [c]) with ((y :: tl1) ++ [c]). rewrite Hscan.
  destruct (scan (y :: tl1)) as [e|[v rest1]]; [reflexivity|].
  cbn [with_tail]. rewrite !bind_Ok. cbn [fst snd].
  rewrite (skip_ws_snoc c rest1 c_ws).
  destruct (skip_ws rest1) as [|x' tl']; [reflexivity|].
  destruct (x' =? 125); [reflexivity|].
  destruct (x' =? 44); [|reflexivity].
  rewrite (skip_ws_snoc c tl' c_ws).
  destruct (skip_ws tl') as [|q tl'']; [reflexivity|].
  destruct (q =? 34); [|reflexivity].
  rewrite IH.
  destruct (object_members scan fuel tl'') as [e|[ms rest']]; reflexivity.
Qed.

Lemma scan_once_snoc (hook : list (str * value) -> value) (fuel : nat) :
  forall s,
    scan_once hook fuel (s ++ [c]) = with_tail [c] (scan_once hook fuel s).
Proof.
  induction fuel as [|fuel IH]; intro s; [reflexivity|].
  assert (Hnil : exists e, scan_once hook fuel [] = Raise e).
  { destruct fuel; eexists; reflexivity. }
  rewrite !scan_once_unfold.
  destruct s as [|x tl].
  { cbn [app].
    destruct (is_ws_cases c c_ws) as [-> | [-> | [-> | ->]]]; reflexivity. }
  cbn [app].
  destruct (x =? 34).
  { rewrite (scanstring_snoc c c_ws).
    destruct (scanstring tl) as [e|[k rest]]; reflexivity. }
  destruct (x =? 123).
  { rewrite (skip_ws_snoc c tl c_ws).
    destruct (skip_ws tl) as [|y tl']; [reflexivity|].
    destruct (y =? 125); [reflexivity|].
    destruct (y =? 34); [|reflexivity].
    rewrite (object_members_snoc _ IH Hnil).
    destruct (object_members _ fuel tl') as [e|[ms rest]]; reflexivity. }
  destruct (x =? 91).
  { rewrite (skip_ws_snoc c tl c_ws).
    destruct (skip_ws tl) as [|y tl']; [reflexivity|].
    destruct (y =? 93); [reflexivity|].
    change (y :: tl' ++ [c]) with ((y :: tl') ++ [c]).
    rewrite (array_elements_snoc _ IH Hnil).
    destruct (array_elements _ fuel (y :: tl')) as [e|[vs rest]]; reflexivity. }
  change (x :: tl ++ [c]) with ((x :: tl) ++ [c]).
  now apply scan_scalar_snoc.
Qed.

(** [json.loads] does not look at whitespace after the value, nor at
    whitespace before it. *)
Lemma decode_snoc (hook : list (str * value) -> value) (s : str) :
  decode hook (s ++ [c]) = decode hook s.
Proof.
  rewrite !decode_unfold, (skip_ws_snoc c s c_ws).
  destruct (skip_ws s) as [|x tl] eqn:E; [reflexivity|].
  pose proof (skip_ws_length s) as Hlen. rewrite E in Hlen.
  change (x :: tl ++ [c]) with ((x :: tl) ++ [c]).
  assert (Hfuel : scan_once hook (S (List.length (s ++ [c]))) (x :: tl)
                  = scan_once hook (S (List.length s)) (x :: tl)).
  { apply scan_once_enough; [lia|]. rewrite length_app. lia. }
  rewrite <- Hfuel, scan_once_snoc.
  destruct (scan_once hook _ (x :: tl)) as [e|[v rest]]; [reflexivity|].
  cbn [with_tail]. rewrite !bind_Ok. cbn [fst snd].
  rewrite (skip_ws_snoc c rest c_ws).
  destruct (skip_ws rest); reflexivity.
Qed.

Lemma decode_cons (hook : list (str * value) -> value) (s : str) :
  decode hook (c :: s) = decode hook s.
Proof.
  rewrite !decode_unfold. cbn [skip_ws]. rewrite c_ws.
  pose proof (skip_ws_length s) as Hlen.
  assert (Hfuel : scan_once hook (S (List.length (c :: s))) (skip_ws s)
                  = scan_once hook (S (List.length s)) (skip_ws s)).
  { apply scan_once_enough; [lia|]. cbn [List.length]. lia. }
  now rewrite Hfuel.
Qed.

Lemma utf8_decode_cons (b : bytes) :
  utf8_decode (c :: b) = (s <- utf8_decode b ;; Ok (c :: s)).
Proof.
  destruct (is_ws_cases c c_ws) as [-> | [-> | [-> | ->]]]; reflexivity.
Qed.

Lemma utf8_decode_snoc (b : bytes) :
  utf8_decode (b ++ [c]) = (s <- utf8_decode b ;; Ok (s ++ [c])).
Proof.
  assert (Hcont : is_cont c = false).
  { destruct (is_ws_cases c c_ws) as [-> | [-> | [-> | ->]]]; reflexivity. }
  assert (Hone : utf8_decode [c] = Ok [c]).
  { destruct (is_ws_cases c c_ws) as [-> | [-> | [-> | ->]]]; reflexivity. }
  remember (List.length b) as n eqn:En.
  revert b En. induction n as [n IH] using lt_wf_ind. intros b En.
  assert (Hrec : forall tl x,
            (List.length tl < n)%nat ->
            (s <- utf8_decode (tl ++ [c]) ;; Ok (x :: s))
            = (s <- (s <- utf8_decode tl ;; Ok (x :: s)) ;; Ok (s ++ [c]))).
  { intros tl x Hlt. rewrite (IH _ Hlt tl eq_refl).
    destruct (utf8_decode tl); reflexivity. }
  destruct b as [|b0 r0]; [exact Hone|].
  cbn [List.length] in En. cbn [app utf8_decode].
  destruct ((0 <=? b0) && (b0 <? 128)); [apply Hrec; lia|].
  destruct r0 as [|b1 r1]; cbn [app].
  { rewrite Hcont. cbn [andb].
    destruct ((192 <=? b0) && (b0 <? 224)); reflexivity. }
  cbn [List.length] in En.
  destruct ((192 <=? b0) && (b0 <? 224)).
  { destruct (is_cont b1 && (128 <=? (b0 - 192) * 64 + (b1 - 128)));
      [apply Hrec; lia|reflexivity]. }
  destruct r1 as [|b2 r2]; cbn [app].
  { rewrite Hcont, andb_false_r. cbn [andb].
    destruct ((224 <=? b0) && (b0 <? 240)); reflexivity. }
  cbn [List.length] in En.
  destruct ((224 <=? b0) && (b0 <? 240)).
  { destruct (_ && _); [apply Hrec; lia|reflexivity]. }
  destruct r2 as [|b3 r3]; cbn [app].
  { rewrite Hcont, !andb_false_r. reflexivity. }
  cbn [List.length] in En.
  destruct (_ && _); [apply Hrec; lia|reflexivity].
Qed.

Lemma canonicalize_bytes_cons (nfc : str -> str) (raw : bytes) :
  canonicalize_bytes nfc (c :: raw) = canonicalize_bytes nfc raw.
Proof.
  unfold canonicalize_bytes. rewrite utf8_decode_cons.
  destruct (utf8_decode raw) as [e|s]; [reflexivity|].
  rewrite !bind_Ok. unfold json_loads. now rewrite decode_cons.
Qed.

Lemma canonicalize_bytes_snoc (nfc : str -> str) (raw : bytes) :
  canonicalize_bytes nfc (raw ++ [c]) = canonicalize_bytes nfc raw.
Proof.
  unfold canonicalize_bytes. rewrite utf8_decode_snoc.
  destruct (utf8_decode raw) as [e|s]; [reflexivity|].
  rewrite !bind_Ok. unfold json_loads. now rewrite decode_snoc.
Qed.

End Framing.

(** X18: [canonicalize_bytes] does not look at whitespace (spaces, tabs,
    line feeds, carriage returns) before and after the value: with it the
    result is the same, bytes or exception. *)
Theorem surrounding_whitespace_is_ignored (nfc : str -> str)
    (before after raw : bytes) :
  Forall (fun c => is_ws c = true) before ->
  Forall (fun c => is_ws c = true) after ->
  canonicalize_bytes nfc (before ++ raw ++ after) = canonicalize_bytes nfc raw.
Proof.
  intros Hb Ha.
  induction Hb as [|c before Hc _ IH].
  - cbn [app]. revert raw.
    induction Ha as [|c after Hc _ IH]; intro raw.
    + now rewrite app_nil_r.
    + change (c :: after) with ([c] ++ after). rewrite app_assoc, IH.
      now apply canonicalize_bytes_snoc.
  - cbn [app]. rewrite (canonicalize_bytes_cons c Hc). exact IH.
Qed.

Lemma surrounding_whitespace_is_ignored_witness :
  canonicalize_bytes nfc_e_acute
    ([32; 10] ++ json_lit "{'b': 1, 'a': [ ]}" ++ [13; 10])
  = canonicalize_bytes nfc_e_acute (json_lit "{'b': 1, 'a': [ ]}").
Proof.
  apply (surrounding_whitespace_is_ignored nfc_e_acute [32; 10] [13; 10]);
    repeat constructor.
Defined.

(** ** Negative numbers *)

Lemma repr_layout_length (digits : str) (decpt : Z) :
  (2 <= List.length (repr_layout digits decpt))%nat.
Proof.
  unfold repr_layout.
  destruct ((decpt <=? -4) || (16 <? decpt)).
  { rewrite !length_app. unfold format_exponent. cbn [List.length]. lia. }
  destruct (Z.leb_spec decpt 0); [cbn [List.length]; lia|].
  destruct (Z.ltb_spec decpt (Z.of_nat (List.length digits))).
  - rewrite length_app. cbn [List.length].
    pose proof (firstn_skipn (Z.to_nat decpt) digits) as E.
    apply (f_equal (@List.length Z)) in E. rewrite length_app in E. lia.
  - rewrite !length_app. cbn [List.length]. lia.
Qed.

Lemma endswith_minus (s suffix : str) :
  (List.length suffix <= List.length s)%nat ->
  endswith (45 :: s) suffix = endswith s suffix
  /\ firstn (List.length (45 :: s) - List.length suffix) (45 :: s)
     = 45 :: firstn (List.length s - List.length suffix) s.
Proof.
  intro H. unfold endswith. cbn [List.length].
  replace (S (List.length s) - List.length suffix)%nat
    with (S (List.length s - List.length suffix)) by lia.
  cbn [skipn firstn]. split; [|reflexivity].
  f_equal.
  destruct (Nat.leb_spec (List.length suffix) (List.length s)); [|lia].
  destruct (Nat.leb_spec (List.length suffix) (S (List.length s))); [|lia].
  reflexivity.
Qed.

(** X19: the text of a negative number is a minus sign followed by the text
    of its opposite, for every [int] and for every finite float other than
    zero. *)
Theorem negative_numbers_have_a_minus_sign :
  (forall n text,
     0 < n -> _canonicalize_number (NInt n) = Ok text ->
     _canonicalize_number (NInt (- n)) = Ok (45 :: text))
  /\ (forall m e text,
        _canonicalize_number (NFloat (S754_finite false m e)) = Ok text ->
        _canonicalize_number (NFloat (S754_finite true m e))
        = Ok (45 :: text)).
Proof.
  assert (Hint : forall n, 0 < n -> str_int (- n) = 45 :: str_int n).
  { intros n Hn. unfold str_int.
    destruct (Z.ltb_spec (- n) 0); [|lia].
    destruct (Z.ltb_spec n 0); [lia|].
    now rewrite Z.opp_involutive. }
  split.
  - intros n text Hn H. apply Ok_inj in H. subst text.
    cbn [_canonicalize_number]. now rewrite Hint.
  - intros m e text.
    unfold _canonicalize_number. cbn [isnan isinf float_is_zero orb].
    set (x := if 0 <=? e then Z.pos m * 2 ^ e else Z.pos m / 2 ^ (- e)).
    assert (Ei : forall s, int_of_float (S754_finite s m e) = cond_Zopp s x)
      by reflexivity.
    rewrite !Ei.
    assert (Eeq : float_eq_int (S754_finite true m e) (cond_Zopp true x)
                  = float_eq_int (S754_finite false m e) (cond_Zopp false x)).
    { unfold float_eq_int, x. cbn [cond_Zopp].
      destruct (0 <=? e).
      - rewrite !Z.eqb_refl. reflexivity.
      - rewrite Z.mul_opp_l.
        destruct (Z.eqb_spec (Z.pos m) (Z.pos m / 2 ^ (- e) * 2 ^ (- e)));
          destruct (Z.eqb_spec (- Z.pos m) (- (Z.pos m / 2 ^ (- e) * 2 ^ (- e))));
          try reflexivity; lia. }
    assert (Ele : float_abs_le_int (S754_finite true m e) (2 ^ 53)
                  = float_abs_le_int (S754_finite false m e) (2 ^ 53))
      by reflexivity.
    rewrite Eeq, Ele.
    destruct (float_eq_int (S754_finite false m e) (cond_Zopp false x)
              && float_abs_le_int (S754_finite false m e) (2 ^ 53)) eqn:Hc.
    + intro H. apply Ok_inj in H. subst text. cbn [cond_Zopp]. f_equal.
      apply Hint.
      apply andb_true_iff in Hc as [Hc _].
      unfold float_eq_int, x in *. cbn [cond_Zopp] in Hc.
      destruct (Z.leb_spec 0 e).
      * apply Z.mul_pos_pos; [lia|]. now apply Z.pow_pos_nonneg.
      * apply Z.eqb_eq in Hc.
        destruct (Z_lt_le_dec 0 (Z.pos m / 2 ^ (- e))) as [Hx|Hx];
          [exact Hx|].
        assert (0 < 2 ^ (- e)) by (apply Z.pow_pos_nonneg; lia).
        nia.
    + intro H. apply Ok_inj in H. subst text. f_equal.
      unfold repr_float. destruct (shortest_decimal m e) as [d q].
      cbn [app].
      set (L := repr_layout _ _).
      destruct (endswith_minus L (lit ".0")) as [E1 E2].
      { apply repr_layout_length. }
      rewrite E1. destruct (endswith L (lit ".0")); [|reflexivity].
      exact E2.
Qed.

(** ** Canonicalizing twice *)




(** ** The text and the bytes *)

Lemma utf8_encode_surrogate (s : str) :
  if existsb surrogate s
  then utf8_encode s = Raise UnicodeEncodeError
  else exists raw, utf8_encode s = Ok raw.
Proof.
  induction s as [|c s IH]; cbn [existsb utf8_encode].
  - now exists [].
  - assert (Hc : if surrogate c
                 then utf8_encode_char c = Raise UnicodeEncodeError
                 else exists b, utf8_encode_char c = Ok b).
    { unfold surrogate, utf8_encode_char.
      destruct (Z.ltb_spec c 128).
      { replace ((55296 <=? c) && (c <? 57344)) with false by lia.
        eexists. reflexivity. }
      destruct (Z.ltb_spec c 2048).
      { replace ((55296 <=? c) && (c <? 57344)) with false by lia.
        eexists. reflexivity. }
      destruct ((55296 <=? c) && (c <? 57344)); [reflexivity|].
      destruct (c <? 65536); eexists; reflexivity. }
    destruct (surrogate c); cbn [orb].
    + now rewrite Hc.
    + destruct Hc as [b ->]. rewrite bind_Ok.
      destruct (existsb surrogate s).
      * now rewrite IH.
      * destruct IH as [bs ->]. rewrite bind_Ok. eexists. reflexivity.
Qed.

(** X21: [canonicalize] returns the UTF-8 of the text of
    [canonicalize_to_string] and raises what [canonicalize_to_string]
    raises; besides it raises [UnicodeEncodeError] exactly when the text has
    a surrogate code point, on which [canonicalize_to_string] still returns.
    Decoding the bytes of a text of code points gives the text back. *)
Theorem canonicalize_and_canonicalize_to_string (nfc : str -> str)
    (v : value) :
  (forall e, canonicalize_to_string nfc v = Raise e ->
             canonicalize nfc v = Raise e)
  /\ (forall text,
        canonicalize_to_string nfc v = Ok text ->
        if existsb surrogate text
        then canonicalize nfc v = Raise UnicodeEncodeError
        else exists raw,
               canonicalize nfc v = Ok raw
               /\ (Forall code_point text -> utf8_decode raw = Ok text)).
Proof.
  unfold canonicalize. split.
  - intros e ->. reflexivity.
  - intros text ->. rewrite bind_Ok.
    pose proof (utf8_encode_surrogate text) as H.
    destruct (existsb surrogate text); [exact H|].
    destruct H as [raw H]. exists raw. split; [exact H|].
    intro Hc. now apply utf8_decode_encode_code_points.
Qed.

(** * The encoder under the limits of the interpreter *)

(** ** The limit on the digits of an [int] *)

Lemma to_base_aux_length (fuel : nat) (base n : Z) (acc : str) :
  (List.length (to_base_aux fuel base n acc) <= fuel + List.length acc)%nat.
Proof.
  revert n acc. induction fuel as [|fuel IH]; intros n acc; [simpl; lia|].
  cbn [to_base_aux]. destruct (n / base =? 0); [simpl; lia|].
  etransitivity; [apply IH|]. simpl. lia.
Qed.

(** An integer of magnitude at most [2^53] has few digits. *)
Lemma few_digits (max_str_digits n : Z) :
  Z.abs n <= 2 ^ 53 -> too_many_digits max_str_digits n = false.
Proof.
  intro H. unfold too_many_digits.
  pose proof (to_base_aux_length (S (Z.to_nat (Z.log2 (Z.abs n)))) 10
                (Z.abs n) []) as Hlen.
  fold (to_base 10 (Z.abs n)) in Hlen. cbn [List.length] in Hlen.
  assert (Hlog : Z.log2 (Z.abs n) <= 53).
  { destruct (Z.eq_dec (Z.abs n) 0) as [->|Hne]; [simpl; lia|].
    etransitivity; [apply Z.log2_le_mono; exact H|].
    rewrite Z.log2_pow2; lia. }
  pose proof (Z.log2_nonneg (Z.abs n)).
  replace (640 <? Z.of_nat (List.length (to_base 10 (Z.abs n)))) with false
    by lia.
  reflexivity.
Qed.

(** The value of [ds] decimal digits read after [acc]. *)
Lemma digits_fold_bounds (ds : str) :
  forall acc, 0 <= acc ->
  Forall (fun c => is_digit c = true) ds ->
  acc * 10 ^ Z.of_nat (List.length ds)
  <= fold_left (fun acc c => acc * 10 + (c - 48)) ds acc
  < (acc + 1) * 10 ^ Z.of_nat (List.length ds).
Proof.
  induction ds as [|c ds IH]; intros acc Hacc Hds.
  - cbn [List.length fold_left Z.of_nat]. rewrite Z.pow_0_r. lia.
  - apply Forall_cons_iff in Hds as [Hc Hds].
    unfold is_digit in Hc. apply andb_true_iff in Hc as [H1 H2].
    apply Z.leb_le in H1, H2.
    cbn [fold_left List.length]. rewrite Nat2Z.inj_succ, Z.pow_succ_r by lia.
    specialize (IH (acc * 10 + (c - 48)) ltac:(lia) Hds).
    assert (Hp : 0 < 10 ^ Z.of_nat (List.length ds))
      by (apply Z.pow_pos_nonneg; lia).
    nia.
Qed.

(** [str] writes more than [k] digits exactly for the integers of magnitude
    [10^k] and above. *)
Lemma digits_of_int (n : Z) (k : nat) :
  (0 < k)%nat ->
  ((k < List.length (to_base 10 (Z.abs n)))%nat
   <-> 10 ^ Z.of_nat k <= Z.abs n).
Proof.
  intro Hk.
  assert (Hk' : 0 < 10 ^ Z.of_nat k) by (apply Z.pow_pos_nonneg; lia).
  destruct (Z.eq_dec (Z.abs n) 0) as [E|E].
  { rewrite E. change (to_base 10 0) with [48]. cbn [List.length]. lia. }
  destruct (to_base_decimal (Z.abs n) (Z.abs_nonneg n))
    as (ds & -> & Hne & Hds & Hval & Hhd).
  specialize (Hhd E). unfold digits_value in Hval.
  split.
  - intro Hlen.
    destruct ds as [|d tl]; [contradiction|].
    cbn [hd] in Hhd. cbn [List.length] in Hlen. cbn [fold_left] in Hval.
    apply Forall_cons_iff in Hds as [Hd Htl].
    unfold is_digit in Hd. apply andb_true_iff in Hd as [H1 H2].
    apply Z.leb_le in H1, H2.
    pose proof (digits_fold_bounds tl (0 * 10 + (d - 48)) ltac:(lia) Htl)
      as [Hlow _].
    rewrite Hval in Hlow.
    assert (Hle : 10 ^ Z.of_nat k <= 10 ^ Z.of_nat (List.length tl))
      by (apply Z.pow_le_mono_r; lia).
    nia.
  - intro Hle.
    pose proof (digits_fold_bounds ds 0 ltac:(lia) Hds) as [_ Hup].
    rewrite Hval in Hup.
    assert (H : 10 ^ Z.of_nat k < 10 ^ Z.of_nat (List.length ds)) by lia.
    apply Z.pow_lt_mono_r_iff in H; lia.
Qed.

(** The limit in terms of the magnitude: with a limit [max_str_digits] of
    640 or more, [str] refuses the integers of magnitude
    [10^max_str_digits] and above; with the limit 0 it refuses none. *)
Lemma too_many_digits_magnitude (max_str_digits n : Z) :
  640 <= max_str_digits ->
  (too_many_digits max_str_digits n = true
   <-> 10 ^ max_str_digits <= Z.abs n).
Proof.
  intro Hmax. unfold too_many_digits.
  pose proof (digits_of_int n (Z.to_nat max_str_digits) ltac:(lia)) as H.
  rewrite Z2Nat.id in H by lia.
  rewrite !andb_true_iff, !Z.ltb_lt. lia.
Qed.

Lemma too_many_digits_no_limit (n : Z) : too_many_digits 0 n = false.
Proof. unfold too_many_digits. now rewrite andb_false_r. Qed.

Lemma integral_float_bound (f : float) :
  float_eq_int f (int_of_float f) = true ->
  float_abs_le_int f (2 ^ 53) = true ->
  Z.abs (int_of_float f) <= 2 ^ 53.
Proof.
  destruct f as [s|s| |s m e]; cbn [int_of_float]; try (intros; simpl; lia).
  unfold float_eq_int, float_abs_le_int.
  destruct (Z.leb_spec 0 e).
  - intros _ H'. apply Z.leb_le in H'. destruct s; cbn [cond_Zopp]; lia.
  - intros He Hle. apply Z.eqb_eq in He. apply Z.leb_le in Hle.
    assert (Hp : 0 < 2 ^ (- e)) by (apply Z.pow_pos_nonneg; lia).
    set (p := 2 ^ (- e)) in *. set (q := Z.pos m / p) in *.
    destruct s; cbn [cond_Zopp] in *; nia.
Qed.

(** Within the limit, the formatter is the formatter of the source. *)
Lemma canonicalize_number_limited_agrees (max_str_digits : Z) (num : number) :
  (forall n, num = NInt n -> too_many_digits max_str_digits n = false) ->
  _canonicalize_number_limited max_str_digits num = _canonicalize_number num.
Proof.
  intro H. destruct num as [n|f].
  - cbn [_canonicalize_number_limited _canonicalize_number].
    unfold str_int_limited. now rewrite (H n eq_refl).
  - cbn [_canonicalize_number_limited _canonicalize_number].
    destruct (isnan f || isinf f); [reflexivity|].
    destruct (float_is_zero f); [reflexivity|].
    destruct (float_eq_int f (int_of_float f) && float_abs_le_int f (2 ^ 53))
      eqn:Hc; [|reflexivity].
    apply andb_true_iff in Hc as [H1 H2].
    unfold str_int_limited.
    now rewrite (few_digits _ _ (integral_float_bound f H1 H2)).
Qed.

(** ** With enough frames, the encoder of the source *)

Lemma depth_element (arr : list value) (x : value) :
  In x arr -> (depth x < depth (VList arr))%nat.
Proof.
  cbn [depth]. induction arr as [|y arr IH]; [contradiction|].
  cbn [fold_right]. intros [->|Hin]; [lia|]. specialize (IH Hin). lia.
Qed.

Lemma depth_member (obj : dict value) (kv : str * value) :
  In kv obj -> (depth (snd kv) < depth (VDict obj))%nat.
Proof.
  cbn [depth]. induction obj as [|y obj IH]; [contradiction|].
  cbn [fold_right]. intros [->|Hin]; [lia|]. specialize (IH Hin). lia.
Qed.

Lemma normalized_keys_of_value (nfc : str -> str) (obj : dict value) :
  normalized_keys nfc
    (map (fun kv => (KStr (fst kv), of_value (snd kv))) obj)
  = Ok (map nfc (dict_keys obj)).
Proof.
  unfold normalized_keys. induction obj as [|kv obj IH]; [reflexivity|].
  cbn [map sequence fst dict_keys] in *. now rewrite bind_Ok, IH, bind_Ok.
Qed.

Lemma str_items_of_value {A B : Type} (f : A -> B) (obj : dict A) :
  str_items (map (fun kv => (KStr (fst kv), f (snd kv))) obj)
  = map (fun kv => (fst kv, f (snd kv))) obj.
Proof.
  unfold str_items. induction obj as [|kv obj IH]; [reflexivity|].
  cbn [map flat_map fst snd app]. now rewrite IH.
Qed.

Lemma limited_list (nfc : str -> str) (max_str_digits : Z) (frames : nat)
    (arr : list object) :
  _canonicalize_value_limited nfc max_str_digits (S (S (S frames))) (OList arr)
  = (elements <- sequence
                   (map (_canonicalize_value_limited nfc max_str_digits frames)
                        arr) ;;
     Ok ([91] ++ join [44] elements ++ [93])).
Proof. reflexivity. Qed.

Lemma limited_dict (nfc : str -> str) (max_str_digits : Z) (frames : nat)
    (items : list (key * object)) :
  _canonicalize_value_limited nfc max_str_digits (S (S (S frames)))
    (ODict items)
  = (_ <- normalized_keys nfc items ;;
     match items, frames with
     | _ :: _, O => Raise RecursionError
     | _, _ =>
         canonicalize_object_with nfc (fun text => text)
           (map (fun kv =>
                   (fst kv,
                    _canonicalize_value_limited nfc max_str_digits (S frames)
                      (snd kv)))
                (str_items items))
     end).
Proof. reflexivity. Qed.

Lemma limited_agrees (nfc : str -> str) (max_str_digits : Z) (v : value) :
  forall frames,
    all_values (int_within max_str_digits) v ->
    (3 * depth v + 2 <= frames)%nat ->
    _canonicalize_value_limited nfc max_str_digits frames (of_value v)
    = _canonicalize_value nfc v.
Proof.
  induction v as [|b|n|f|s|arr IH|obj IH|] using value_induction;
    intros frames Hv Hf.
  - destruct frames as [|[|?]]; try (cbn [depth] in Hf; lia). reflexivity.
  - destruct frames as [|[|?]]; try (cbn [depth] in Hf; lia). reflexivity.
  - destruct frames as [|[|?]]; try (cbn [depth] in Hf; lia).
    cbn [of_value _canonicalize_value_limited _canonicalize_value].
    apply canonicalize_number_limited_agrees.
    intros n' E. injection E as <-. now apply all_values_head in Hv.
  - destruct frames as [|[|?]]; try (cbn [depth] in Hf; lia).
    cbn [of_value _canonicalize_value_limited _canonicalize_value].
    apply canonicalize_number_limited_agrees. discriminate.
  - destruct frames as [|[|?]]; try (cbn [depth] in Hf; lia). reflexivity.
  - apply all_values_list in Hv as [_ Hv].
    destruct frames as [|[|[|frames]]];
      try (cbn [depth] in Hf; lia).
    cbn [of_value _canonicalize_value]. rewrite limited_list.
    rewrite map_map. f_equal. f_equal.
    apply map_ext_in. intros x Hx.
    rewrite Forall_forall in IH, Hv. apply (IH x Hx); [now apply Hv|].
    pose proof (depth_element arr x Hx). lia.
  - apply all_values_dict in Hv as [_ Hv].
    destruct frames as [|[|[|frames]]];
      try (cbn [depth] in Hf; lia).
    cbn [of_value _canonicalize_value]. rewrite limited_dict.
    rewrite normalized_keys_of_value, bind_Ok.
    rewrite str_items_of_value, map_map. cbn [fst snd].
    assert (E : map (fun kv => (fst kv,
                                _canonicalize_value_limited nfc max_str_digits
                                  (S frames) (of_value (snd kv)))) obj
                = map (fun kv => (fst kv, _canonicalize_value nfc (snd kv))) obj).
    { apply map_ext_in. intros kv Hkv. f_equal.
      rewrite Forall_forall in IH, Hv. apply (IH kv Hkv); [now apply Hv|].
      pose proof (depth_member obj kv Hkv). lia. }
    rewrite E.
    destruct obj as [|kv obj]; [reflexivity|].
    cbn [map].
    destruct frames as [|frames]; [cbn [depth] in Hf; lia|]. reflexivity.
  - destruct frames as [|?]; [cbn [depth] in Hf; lia|]. reflexivity.
Qed.

(** ** The exceptions of the encoder *)

Lemma str_int_limited_raise (max_str_digits n : Z) (e : exn) :
  str_int_limited max_str_digits n = Raise e -> e = ValueError.
Proof.
  unfold str_int_limited. destruct (too_many_digits _ _); [|discriminate].
  intro H. now injection H.
Qed.

Lemma canonicalize_number_limited_raise (max_str_digits : Z) (num : number)
    (e : exn) :
  _canonicalize_number_limited max_str_digits num = Raise e -> e = ValueError.
Proof.
  destruct num as [n|f]; cbn [_canonicalize_number_limited].
  - apply str_int_limited_raise.
  - destruct (isnan f || isinf f); [intro H; now injection H|].
    destruct (float_is_zero f); [discriminate|].
    destruct (_ && _); [apply str_int_limited_raise|discriminate].
Qed.


(** A key that is not a [str] is refused by the normalization. *)
Lemma normalized_keys_other (nfc : str -> str) {A : Type}
    (items : list (key * A)) :
  Exists (fun kv => fst kv = KOther) items ->
  normalized_keys nfc items = Raise TypeError.
Proof.
  unfold normalized_keys.
  induction 1 as [[k x] items Hk|[[k|] x] items _ IH]; cbn [map sequence fst] in *.
  - now subst k.
  - now rewrite bind_Ok, IH.
  - reflexivity.
Qed.


(** ** Values nested too deep *)



Lemma int_within_nest (max_str_digits : Z) (n : nat) :
  all_values (int_within max_str_digits) (nest n).
Proof.
  induction n as [|n IH].
  - split; exact I.
  - cbn [nest]. apply all_values_list. split; [exact I|].
    now constructor.
Qed.

(** ** The entry points under the limits *)

Lemma canonicalize_to_string_limited_agrees (nfc : str -> str)
    (max_str_digits : Z) (frames : nat) (v : value) :
  all_values (int_within max_str_digits) v ->
  (3 * depth v + 3 <= frames)%nat ->
  canonicalize_to_string_limited nfc max_str_digits frames (of_value v)
  = canonicalize_to_string nfc v.
Proof.
  intros Hv Hf. destruct frames as [|frames]; [lia|].
  unfold canonicalize_to_string_limited, canonicalize_to_string.
  apply limited_agrees; [exact Hv|lia].
Qed.







(** With 999 frames, what the default recursion limit leaves to a call
    from the top level of a program, the encoder accepts arrays nested 332
    deep and no more. *)
Example recursion_limit_example :
  canonicalize_to_string_limited nfc_e_acute 4300 999 (of_value (nest 331))
  = Ok (repeat 91 332 ++ repeat 93 332)
  /\ canonicalize_to_string_limited nfc_e_acute 4300 999 (of_value (nest 332))
     = Raise RecursionError.
Proof. vm_compute. split; reflexivity. Qed.

(** An object takes two frames for each level, and two more to sort its
    keys. *)
Example recursion_limit_object_example :
  canonicalize_to_string_limited nfc_e_acute 4300 5
    (of_value (VDict [(lit "a", VNone)])) = Ok (json_lit "{'a':null}")
  /\ canonicalize_to_string_limited nfc_e_acute 4300 4
       (of_value (VDict [(lit "a", VNone)])) = Raise RecursionError
  /\ canonicalize_to_string_limited nfc_e_acute 4300 4 (of_value (VDict []))
     = Ok (json_lit "{}").
Proof. vm_compute. repeat split; reflexivity. Qed.

(** ** The formatter under the limit on digits *)

(** C8, as the code has it: formatting a number raises [ValueError] (the
    FormatError of the specification), and no other exception, exactly when
    the number is NaN or an infinity, or is an [int] of more digits than
    [str] converts (more than 640, and more than the limit, when there is
    one); every other number is formatted, to the text the source defines.
    With a limit of [max_str_digits] digits the integers [str] refuses are
    those of magnitude [10^max_str_digits] and above; with the limit 0 it
    refuses none. *)
Theorem canonicalize_number_error_iff (max_str_digits : Z) (num : number) :
  (_canonicalize_number_limited max_str_digits num = Raise ValueError
   <-> non_finite num
       \/ exists n, num = NInt n /\ too_many_digits max_str_digits n = true)
  /\ (forall e, _canonicalize_number_limited max_str_digits num = Raise e ->
        e = ValueError)
  /\ (~ non_finite num ->
      (forall n, num = NInt n -> too_many_digits max_str_digits n = false) ->
      exists text,
        _canonicalize_number_limited max_str_digits num = Ok text
        /\ _canonicalize_number num = Ok text)
  /\ (forall n,
        (640 <= max_str_digits ->
         (too_many_digits max_str_digits n = true
          <-> 10 ^ max_str_digits <= Z.abs n))
        /\ too_many_digits 0 n = false).
Proof.
  assert (Hfinite : ~ non_finite num ->
            exists text, _canonicalize_number num = Ok text).
  { intro Hn. destruct num as [n|f]; [eexists; reflexivity|].
    unfold _canonicalize_number.
    destruct f as [s|s| |s m e]; cbn [isnan isinf float_is_zero orb].
    - eexists; reflexivity.
    - exfalso. apply Hn. right. now exists s.
    - exfalso. apply Hn. now left.
    - destruct (_ && _); eexists; reflexivity. }
  assert (Hraised : non_finite num -> _canonicalize_number num = Raise ValueError).
  { intros [->|[s ->]]; reflexivity. }
  split; [|split; [|split]].
  - split.
    + intro H. destruct num as [n|f].
      * right. exists n. split; [reflexivity|].
        cbn [_canonicalize_number_limited] in H. unfold str_int_limited in H.
        destruct (too_many_digits max_str_digits n); [reflexivity|discriminate].
      * left. rewrite canonicalize_number_limited_agrees in H by discriminate.
        destruct f as [s|s| |s m e].
        -- discriminate.
        -- right. now exists s.
        -- now left.
        -- exfalso. unfold _canonicalize_number in H.
           cbn [isnan isinf float_is_zero orb] in H.
           destruct (_ && _); discriminate.
    + intros [Hn|(n & -> & Hn)].
      * rewrite canonicalize_number_limited_agrees; [now apply Hraised|].
        intros n ->. destruct Hn as [Hn|[s Hn]]; discriminate.
      * cbn [_canonicalize_number_limited]. unfold str_int_limited.
        now rewrite Hn.
  - intro e. apply canonicalize_number_limited_raise.
  - intros Hn Hd. destruct (Hfinite Hn) as [text Ht]. exists text.
    rewrite canonicalize_number_limited_agrees by exact Hd.
    split; exact Ht.
  - intro n. split.
    + intro Hmax. now apply too_many_digits_magnitude.
    + apply too_many_digits_no_limit.
Qed.

Lemma digits_limit_example (max_str_digits big : Z) :
  640 <= max_str_digits -> big = 10 ^ max_str_digits ->
  _canonicalize_number_limited max_str_digits (NInt big) = Raise ValueError
  /\ _canonicalize_number_limited max_str_digits (NInt (big - 1))
     = Ok (str_int (big - 1))
  /\ _canonicalize_number_limited 0 (NInt big) = Ok (str_int big).
Proof.
  intros Hmax Hbig.
  assert (Hpos : 0 < 10 ^ max_str_digits) by (apply Z.pow_pos_nonneg; lia).
  cbn [_canonicalize_number_limited]. unfold str_int_limited.
  split; [|split].
  - replace (too_many_digits max_str_digits big) with true; [reflexivity|].
    symmetry. apply too_many_digits_magnitude; lia.
  - replace (too_many_digits max_str_digits (big - 1)) with false;
      [reflexivity|].
    symmetry. apply not_true_is_false.
    rewrite too_many_digits_magnitude by lia. lia.
  - now rewrite too_many_digits_no_limit.
Qed.

(** C8, as the specification states it, fails: the integer [10^4300] is
    finite, and with the interpreter's default limit of 4300 digits
    formatting it raises [ValueError]; the integer before it is formatted,
    and so is [10^4300] itself when the limit is lifted. *)
Lemma long_int_is_not_formatted :
  ~ non_finite (NInt (10 ^ 4300))
  /\ _canonicalize_number_limited 4300 (NInt (10 ^ 4300)) = Raise ValueError
  /\ _canonicalize_number_limited 4300 (NInt (10 ^ 4300 - 1))
     = Ok (str_int (10 ^ 4300 - 1))
  /\ _canonicalize_number_limited 0 (NInt (10 ^ 4300))
     = Ok (str_int (10 ^ 4300)).
Proof.
  split; [intros [H|[s H]]; discriminate|].
  apply (digits_limit_example 4300 (10 ^ 4300)); [|reflexivity].
  intro H. discriminate H.
Qed.

(** ** Reading back under the limits *)

(** X2: when [str] converts an [int] (it has at most 640 digits, or no more
    than the limit, or there is no limit), [_canonicalize_number] writes it
    and [json.loads] reads the text as the same [int]; the text has the
    digits [int] converts back. *)
Theorem canonical_int_within_limit_is_read_back (max_str_digits n : Z) :
  too_many_digits max_str_digits n = false ->
  exists text,
    _canonicalize_number_limited max_str_digits (NInt n) = Ok text
    /\ text = str_int n
    /\ json_loads text = Ok (VInt n).
Proof.
  intro H. exists (str_int n).
  cbn [_canonicalize_number_limited]. unfold str_int_limited. rewrite H.
  split; [reflexivity|]. split; [reflexivity|].
  rewrite (json_loads_number _ _ (str_int_number_text n)).
  now rewrite number_of_match_int.
Qed.

Lemma canonical_int_within_limit_is_read_back_witness :
  exists text,
    _canonicalize_number_limited 4300 (NInt (- 10 ^ 700)) = Ok text
    /\ text = str_int (- 10 ^ 700)
    /\ json_loads text = Ok (VInt (- 10 ^ 700)).
Proof.
  apply (canonical_int_within_limit_is_read_back 4300 (- 10 ^ 700)).
  vm_compute. reflexivity.
Defined.

(** X5: a value without floats, with normalized strings and with the items
    of every [dict] in the order of their keys, whose [int]s are within the
    limit on digits, is read back as it is from its canonical text, when the
    interpreter has frames enough for its nesting (three for each level and
    eight more; [json.loads] needs fewer than the encoder). *)
Theorem normal_value_within_limits_is_read_back (nfc : str -> str)
    (max_str_digits : Z) (frames : nat) (v : value) :
  normal nfc v ->
  all_values (int_within max_str_digits) v ->
  (3 * depth v + 8 <= frames)%nat ->
  exists text,
    canonicalize_to_string_limited nfc max_str_digits frames (of_value v)
    = Ok text
    /\ json_loads text = Ok v.
Proof.
  intros H Hv Hf.
  destruct (canonicalize_value_ok nfc v (normal_encodable nfc v H)) as [text Ht].
  exists text.
  rewrite canonicalize_to_string_limited_agrees by (assumption || lia).
  split; [exact Ht|].
  rewrite (json_loads_read nfc v text Ht).
  now rewrite (normal_reread nfc v H), (normal_as_dicts nfc v H).
Qed.

Lemma normal_value_within_limits_is_read_back_witness :
  let v := VDict [(lit "a", VList [VInt 1; VStr [0xE9]; VNone]);
                  (lit "b", VDict [(lit "c", VBool true)])] in
  exists text,
    canonicalize_to_string_limited nfc_e_acute 4300 1000 (of_value v) = Ok text
    /\ json_loads text = Ok v.
Proof.
  intro v.
  apply (normal_value_within_limits_is_read_back nfc_e_acute 4300 1000 v).
  - unfold normal, utf16_le, code_point. simpl.
    repeat split; repeat constructor; simpl; try lia; try tauto;
      try (intros [H|H]; [discriminate|exact H]).
  - simpl. repeat split; reflexivity.
  - simpl. lia.
Defined.

(** X12: on a value whose [dict]s have [str] keys, no two of one normalized
    form in a [dict], whose [int]s are within the limit on digits, and with
    frames enough for its nesting (three for each level and eight more), the
    encoder returns a text exactly when the value has no NaN, no infinity
    and no object of an unsupported type at any depth.  A [dict] with a key
    that is not a [str] is not encoded: the encoder raises [TypeError]. *)
Theorem encoder_returns_iff_encodable_within_limits (nfc : str -> str)
    (max_str_digits : Z) (frames : nat) (v : value) :
  all_values (no_collision nfc) v ->
  all_values (int_within max_str_digits) v ->
  (3 * depth v + 8 <= frames)%nat ->
  ((exists text,
      canonicalize_to_string_limited nfc max_str_digits frames (of_value v)
      = Ok text)
   <-> encodable v)
  /\ (forall items,
        Exists (fun kv => fst kv = KOther) items ->
        canonicalize_to_string_limited nfc max_str_digits frames (ODict items)
        = Raise TypeError).
Proof.
  intros Hc Hv Hf. split.
  - rewrite canonicalize_to_string_limited_agrees by (assumption || lia).
    now apply returned_text_encodable.
  - intros items Hk.
    destruct frames as [|[|[|[|frames]]]]; try lia.
    cbn [canonicalize_to_string_limited]. rewrite limited_dict.
    now rewrite (normalized_keys_other nfc items Hk).
Qed.

Lemma encoder_returns_iff_encodable_within_limits_witness :
  let v := VDict [(lit "a", VList [VFloat S754_nan])] in
  ((exists text,
      canonicalize_to_string_limited nfc_e_acute 4300 1000 (of_value v)
      = Ok text)
   <-> encodable v)
  /\ (forall items,
        Exists (fun kv => fst kv = KOther) items ->
        canonicalize_to_string_limited nfc_e_acute 4300 1000 (ODict items)
        = Raise TypeError).
Proof.
  intro v.
  apply (encoder_returns_iff_encodable_within_limits nfc_e_acute 4300 1000 v).
  - simpl. repeat split; repeat constructor; simpl; tauto.
  - simpl. repeat split; reflexivity.
  - simpl. lia.
Defined.

(** A [dict] with the key [1] and a [dict] nested in a list: the key that
    is not a [str] is refused before any value is encoded. *)
Example other_key_example :
  canonicalize_to_string_limited nfc_e_acute 4300 1000
    (ODict [(KOther, OStr (lit "a"))]) = Raise TypeError
  /\ canonicalize_to_string_limited nfc_e_acute 4300 1000
       (OList [ODict [(KStr (lit "b"), OFloat S754_nan); (KOther, ONone)]])
     = Raise TypeError.
Proof. vm_compute. split; reflexivity. Qed.

(** ** The members of an object, as they stand in the text *)

Lemma Forall2_map_right_in {A B : Type} (R : A -> B -> Prop) (f : A -> B)
    (l : list A) :
  (forall x, In x l -> R x (f x)) -> Forall2 R l (map f l).
Proof.
  induction l as [|x l IH]; intro H; [constructor|].
  cbn [map]. constructor; [apply H; now left|].
  apply IH. intros y Hy. apply H. now right.
Qed.

(** C5: the members of an encoded object are written in the order of the
    sorted normalized keys; that list is a permutation of the normalized
    keys, sorted for the comparison of their UTF-16 code units (one unit for
    a scalar value below 0x10000, a surrogate pair above) as lists of
    integers, lexicographically with a strict prefix first; on strings of
    scalar values this comparison is a strict total order, so distinct keys
    come out strictly increasing.  The members stand in the text in that
    order: a decoder that keeps the members of the text as they stand reads,
    name by name, the sorted keys, each with what it reads from the text of
    the value found under the original key. *)
Theorem object_members_are_written_in_utf16_order (nfc : str -> str)
    (obj : dict value) :
  let keys := sort_keys (map nfc (dict_keys obj)) in
  _canonicalize_value nfc (VDict obj)
  = (pairs <- sequence
                (map (fun key =>
                        value <- dict_get obj (original_key_of nfc obj key) ;;
                        text <- _canonicalize_value nfc value ;;
                        Ok (_canonicalize_string nfc key ++ [58] ++ text))
                     keys) ;;
     Ok ([123] ++ join [44] pairs ++ [125]))
  /\ Permutation keys (map nfc (dict_keys obj))
  /\ StronglySorted utf16_le keys
  /\ (Forall (Forall scalar_value) keys -> NoDup keys ->
      StronglySorted utf16_lt keys)
  /\ (forall s, _utf16_sort_key s = flat_map utf16_units s)
  /\ (forall a b,
        utf16_lt a b <-> lex_lt (_utf16_sort_key a) (_utf16_sort_key b))
  /\ (forall a, ~ utf16_lt a a)
  /\ (forall a b c, utf16_lt a b -> utf16_lt b c -> utf16_lt a c)
  /\ (forall a b, Forall scalar_value a -> Forall scalar_value b ->
        a <> b -> utf16_lt a b \/ utf16_lt b a)
  /\ (forall text,
        _canonicalize_value nfc (VDict obj) = Ok text ->
        Forall (fun key => Forall code_point (nfc key)) keys ->
        exists members,
          json_loads_pairs text = Ok (VDict members)
          /\ map fst members = map nfc keys
          /\ ((forall key, In key keys -> nfc key = key) ->
              map fst members = keys)
          /\ Forall2 (fun key member =>
                        exists v t,
                          dict_get obj (original_key_of nfc obj key) = Ok v
                          /\ _canonicalize_value nfc v = Ok t
                          /\ json_loads_pairs t = Ok (snd member))
                     keys members).
Proof.
  intro keys. split; [apply _canonicalize_value_dict|].
  split; [apply sort_keys_perm|].
  split; [apply sort_keys_sorted|].
  split; [apply strongly_sorted_strict, sort_keys_sorted|].
  split; [apply utf16_sort_key_units|].
  split; [intros a b; apply list_lt_lex|].
  split; [apply utf16_lt_strict_total_order|].
  split; [apply utf16_lt_strict_total_order|].
  split; [apply utf16_lt_strict_total_order|].
  intros text Ht Hcp.
  pose proof (json_loads_pairs_read nfc (VDict obj) text Ht) as Hr.
  rewrite reread_dict in Hr. fold keys in Hr.
  apply canonicalize_object_members in Ht as (pairs & _ & Hpairs).
  fold keys in Hpairs.
  assert (Hnames :
            map fst
              (map (fun key =>
                      (reread_string nfc key,
                       match dict_get obj (original_key_of nfc obj key) with
                       | inr v => reread nfc v
                       | inl _ => VNone
                       end)) keys)
            = map nfc keys).
  { rewrite map_map. cbn [fst]. apply map_ext_in. intros key Hkey.
    apply reread_string_code_points.
    rewrite Forall_forall in Hcp. now apply Hcp. }
  eexists. split; [exact Hr|]. split; [exact Hnames|]. split.
  - intro Hidem. rewrite Hnames.
    rewrite <- (map_id keys) at 2. now apply map_ext_in.
  - apply Forall2_map_right_in. intros key Hkey. cbn [snd].
    destruct (Forall2_in_left _ _ _ _ Hpairs Hkey)
      as (p & _ & v & t & Hget & _ & Hv & _).
    exists v, t. rewrite Hget.
    split; [reflexivity|]. split; [exact Hv|].
    now apply json_loads_pairs_read.
Qed.

(** The key ordering example of the specification: the decoder reads the
    four names in the order [A_key], [a_key], [m_key], [z_key]. *)
Lemma object_members_are_written_in_utf16_order_witness :
  exists members,
    json_loads_pairs (json_lit "{'A_key':0,'a_key':1,'m_key':2,'z_key':3}")
    = Ok (VDict members)
    /\ map fst members
       = [lit "A_key"; lit "a_key"; lit "m_key"; lit "z_key"].
Proof.
  destruct (object_members_are_written_in_utf16_order nfc_e_acute
              [(lit "z_key", VInt 3); (lit "a_key", VInt 1);
               (lit "A_key", VInt 0); (lit "m_key", VInt 2)])
    as (_ & _ & _ & _ & _ & _ & _ & _ & _ & H).
  destruct (H (json_lit "{'A_key':0,'a_key':1,'m_key':2,'z_key':3}"))
    as (members & Hread & Hnames & _).
  - vm_compute. reflexivity.
  - repeat constructor; vm_compute; congruence.
  - exists members. split; [exact Hread|exact Hnames].
Defined.
